(** * SealGate: grammar-based, content-deduplicating compressor

    A shallow embedding of [encode.py] and [decode.py] and the proofs of
    the properties of the encoder's Dictionary Manager, of the Re-Pair
    style Grammar Compressor ([build_hierarchical_rules]) and of the
    decoder's Expander ([expand_symbol], [decode_template]).

    Conventions of the embedding.
    - Python [bytes] are [list byte]; Python [str] is [string].
    - A Python [dict] is insertion ordered: it is an association list
      whose keys are pairwise distinct, a new key goes to the end and an
      existing key is updated in place.  The order is observable twice:
      [Counter.most_common(1)] and [for v in e.values()].
    - An exception is a value of [exn]; fallible code returns [result].
    - [expand_symbol] is recursive and the interpreter bounds its stack.
      The argument [depth] is the number of nested activations of the
      body of [expand_symbol] that the stack admits when the expansion
      of a symbol of the sequence starts.  It is not the number given to
      the interpreter as its recursion limit: part of that is in use
      when [decode_template] runs, and an activation takes more than one
      unit of it, the wrapper of [lru_cache] and the function.  With no
      activation left the embedding raises [RecursionError].
    - [functools.lru_cache] is embedded in [expand_symbol_cached]: a
      stored result is returned without an activation of the body.
      [expand_symbol] is the same function without the cache.  Where it
      returns bytes within [depth] activations, the cached function
      returns the same bytes within [depth] activations
      ([expand_symbol_cached_complete]); where it raises
      [RecursionError], the cached function may still return, when a
      stored result cuts the descent short.
    - [json.dumps]/[json.loads] and [zlib] are external primitives, the
      template is the parsed object.  Verbose logging is left out. *)

From Stdlib Require Import List Bool Arith ZArith NArith Lia.
From Stdlib.Strings Require Import String Ascii Byte.
From Stdlib Require Import ListSet Relations DecimalString DecimalNat.
Import ListNotations.

Open Scope string_scope.
Open Scope list_scope.

(* ================================================================== *)
(** * Part I.  The embedding                                           *)
(* ================================================================== *)

(** ** Exceptions and results *)

Inductive exn : Type :=
| ValueError       (* bytes.fromhex on a malformed string *)
| TypeError        (* bytes.fromhex on a value that is not a string *)
| RecursionError.  (* interpreter recursion limit reached *)

Inductive result (A : Type) : Type :=
| Ok (a : A)
| Raise (e : exn).

Arguments Ok {A} a.
Arguments Raise {A} e.

Definition bind {A B} (r : result A) (k : A -> result B) : result B :=
  match r with
  | Ok a => k a
  | Raise e => Raise e
  end.

Notation "x <- r ;; k" := (bind r (fun x => k))
  (at level 61, r at next level, right associativity).

Definition is_ok {A} (r : result A) : bool :=
  match r with Ok _ => true | Raise _ => false end.

(** ** Decidable equality on keys *)

Class EqDec (K : Type) := eq_dec : forall x y : K, {x = y} + {x <> y}.

#[export] Instance string_EqDec : EqDec string := string_dec.

#[export] Instance pair_EqDec {A B} `{EqDec A} `{EqDec B} : EqDec (A * B).
Proof.
  intros [a b] [a' b'].
  destruct (eq_dec a a') as [Ha | Ha]; [ | right; congruence ].
  destruct (eq_dec b b') as [Hb | Hb]; [ left; congruence | right; congruence ].
Defined.

#[export] Instance byte_EqDec : EqDec byte := Byte.byte_eq_dec.

#[export] Instance list_EqDec {A} `{EqDec A} : EqDec (list A) :=
  list_eq_dec eq_dec.

(** ** Insertion-ordered dictionaries (Python [dict]) *)

Section Dict.
Context {K V : Type} `{EqDec K}.

Definition dict := list (K * V).

(** [d.get(k)] *)
Fixpoint dict_get (d : dict) (k : K) : option V :=
  match d with
  | [] => None
  | (k', v) :: r => if eq_dec k' k then Some v else dict_get r k
  end.

(** [k in d] *)
Definition dict_mem (d : dict) (k : K) : bool :=
  match dict_get d k with Some _ => true | None => false end.

(** [d[k] = v]: in place when [k] is a key, at the end otherwise. *)
Fixpoint dict_set (d : dict) (k : K) (v : V) : dict :=
  match d with
  | [] => [(k, v)]
  | (k', v') :: r =>
      if eq_dec k' k then (k', v) :: r else (k', v') :: dict_set r k v
  end.

Definition dict_keys (d : dict) : list K := map fst d.
Definition dict_values (d : dict) : list V := map snd d.
End Dict.

Arguments dict K V : clear implicits.

(** ** [collections.Counter] keyed in first-seen order *)

Section Counter.
Context {K : Type} `{EqDec K}.

Definition counter := dict K nat.

(** [c[k]]: a missing key counts 0. *)
Definition counter_get (c : counter) (k : K) : nat :=
  match dict_get c k with Some n => n | None => 0 end.

(** [c[k] += 1] *)
Definition counter_incr (c : counter) (k : K) : counter :=
  dict_set c k (S (counter_get c k)).

(** [max(items, key=itemgetter(1))]: the running maximum is replaced
    only by a strictly greater count, so the first maximal item wins. *)
Fixpoint max_first (best : K * nat) (items : list (K * nat)) : K * nat :=
  match items with
  | [] => best
  | x :: r =>
      if (snd best <? snd x)%nat then max_first x r else max_first best r
  end.

(** [c.most_common(1)]: [heapq.nlargest(1, c.items(), key=count)],
    which is [max] over the items in dictionary order; [None] stands
    for the empty list. *)
Definition most_common1 (c : counter) : option (K * nat) :=
  match c with
  | [] => None
  | x :: r => Some (max_first x r)
  end.
End Counter.

Arguments counter K : clear implicits.

(** ** Bytes and hexadecimal text *)

Definition bytes := list byte.

Definition hex_digit (n : N) : ascii :=
  match get (N.to_nat n) "0123456789abcdef" with
  | Some c => c
  | None => "?"%char
  end.

Definition hex_of_byte (b : byte) : string :=
  let n := Byte.to_N b in
  String (hex_digit (n / 16)) (String (hex_digit (n mod 16)) EmptyString).

(** [bs.hex()] *)
Fixpoint hex (bs : bytes) : string :=
  match bs with
  | [] => EmptyString
  | b :: r => (hex_of_byte b ++ hex r)%string
  end.

(** Value of a hexadecimal digit, either case. *)
Definition digit_val (c : ascii) : option N :=
  let n := N_of_ascii c in
  if (48 <=? n)%N && (n <=? 57)%N then Some (n - 48)%N
  else if (97 <=? n)%N && (n <=? 102)%N then Some (n - 87)%N
  else if (65 <=? n)%N && (n <=? 70)%N then Some (n - 55)%N
  else None.

(** ASCII white space, skipped by [bytes.fromhex] between two bytes. *)
Definition is_space (c : ascii) : bool :=
  let n := N_of_ascii c in
  (n =? 32)%N || ((9 <=? n)%N && (n <=? 13)%N).

(** [bytes.fromhex(s)] for a string [s]; [None] is [ValueError]. *)
Fixpoint fromhex_str (s : string) : option bytes :=
  match s with
  | EmptyString => Some []
  | String c s' =>
      if is_space c then fromhex_str s'
      else
        match digit_val c, s' with
        | Some hi, String d s'' =>
            match digit_val d with
            | Some lo =>
                match Byte.of_N (hi * 16 + lo), fromhex_str s'' with
                | Some b, Some r => Some (b :: r)
                | _, _ => None
                end
            | None => None
            end
        | _, _ => None
        end
  end.

(** A value of a dictionary entry as JSON delivers it: a string, or a
    number (the informational ["freq"] of a global entry). *)
Inductive jvalue : Type :=
| JStr (s : string)
| JNum (z : Z).

(** [bytes.fromhex(v)] *)
Definition fromhex (v : jvalue) : result bytes :=
  match v with
  | JStr s =>
      match fromhex_str s with
      | Some bs => Ok bs
      | None => Raise ValueError
      end
  | JNum _ => Raise TypeError
  end.

(** ** Strings: [sep.join] and [str.split] *)

(** [sep.join(l)] *)
Fixpoint join (sep : string) (l : list string) : string :=
  match l with
  | [] => EmptyString
  | s :: r =>
      match r with
      | [] => s
      | _ :: _ => (s ++ sep ++ join sep r)%string
      end
  end.

(** [s.split(c)] for a one-character separator: never empty. *)
Fixpoint split (c : ascii) (s : string) : list string :=
  match s with
  | EmptyString => [EmptyString]
  | String x r =>
      if Ascii.eqb x c then EmptyString :: split c r
      else
        match split c r with
        | [] => [String x EmptyString]
        | h :: t => String x h :: t
        end
  end.

(** [s.startswith("S")] and [s[1:]] *)
Definition startswith_S (s : string) : bool :=
  match s with
  | String c _ => Ascii.eqb c "S"%char
  | EmptyString => false
  end.

Definition drop1 (s : string) : string :=
  match s with
  | String _ r => r
  | EmptyString => EmptyString
  end.

(** [f"{n}"] for a non-negative integer *)
Definition string_of_nat (n : nat) : string :=
  NilEmpty.string_of_uint (Nat.to_uint n).

(** ** Symbols, rules and templates *)

Definition symbol := string.

(** A dictionary entry: context name -> hexadecimal text. *)
Definition entry := dict string jvalue.

(** [rules]: rule symbol -> [[a, b]]. *)
Definition ruleset := dict symbol (symbol * symbol).

Record meta : Type := {
  chunk_size : Z;
  orig_file : string;
  total_chunks : Z
}.

Record template : Type := {
  tpl_meta : meta;
  dictionary : dict symbol entry;
  rules : ruleset;
  sequence : string
}.

(* ------------------------------------------------------------------ *)
(** ** encode.py: [stream_chunks]                                      *)
(* ------------------------------------------------------------------ *)

(** [f.read(chunk_size)] until it returns [b""].  The file is its
    content [data]; [fuel] bounds the number of reads.  The chunk size
    is a natural number; a size of 0 makes the first read return [b""]. *)
Fixpoint stream_chunks_fuel (fuel : nat) (data : bytes) (size : nat)
  : list bytes :=
  match fuel with
  | 0 => []
  | S f =>
      match firstn size data with
      | [] => []
      | chunk => chunk :: stream_chunks_fuel f (skipn size data) size
      end
  end.

(** One read per byte suffices, and one more sees the end of the file. *)
Definition stream_chunks (data : bytes) (size : nat) : list bytes :=
  stream_chunks_fuel (S (List.length data)) data size.

(* ------------------------------------------------------------------ *)
(** ** encode.py: [build_hierarchical_rules]                           *)
(* ------------------------------------------------------------------ *)

(** [seq[i]] for an index the code keeps in range. *)
Definition at_index (seq : list symbol) (i : nat) : symbol :=
  nth i seq EmptyString.

(** [for i in range(len(seq) - 1): pairs[(seq[i], seq[i+1])] += 1] *)
Definition count_pairs (seq : list symbol) : counter (symbol * symbol) :=
  fold_left
    (fun pairs i => counter_incr pairs (at_index seq i, at_index seq (i + 1)))
    (List.seq 0 (List.length seq - 1))
    [].

(** [f"R{next_idx}"] *)
Definition new_sym (next_idx : nat) : symbol :=
  ("R" ++ string_of_nat next_idx)%string.

(** The inner [while i < len(seq)] loop; every turn advances [i], so
    [len(seq)] turns of [fuel] reach the exit. *)
Fixpoint rewrite_loop (fuel : nat) (seq : list symbol) (a b ns : symbol)
    (i : nat) (new_seq : list symbol) : list symbol :=
  match fuel with
  | 0 => new_seq
  | S f =>
      if (i <? List.length seq)%nat then
        if (i <? List.length seq - 1)%nat
           && (if eq_dec (at_index seq i) a then true else false)
           && (if eq_dec (at_index seq (i + 1)) b then true else false)
        then rewrite_loop f seq a b ns (i + 1 + 1) (new_seq ++ [ns])
        else rewrite_loop f seq a b ns (i + 1) (new_seq ++ [at_index seq i])
      else new_seq
  end.

Definition rewrite_pair (seq : list symbol) (a b ns : symbol) : list symbol :=
  rewrite_loop (List.length seq) seq a b ns 0 [].

(** The variables of the outer [while True] loop. *)
Record rules_state : Type := {
  rs_seq : list symbol;
  rs_rules : ruleset;
  rs_next_idx : nat
}.

Inductive iteration : Type :=
| Break
| Continue (st : rules_state).

(** One turn of the outer loop. *)
Definition rules_iter (max_new_symbols min_pair_freq : Z) (st : rules_state)
  : iteration :=
  match most_common1 (count_pairs (rs_seq st)) with
  | None => Break
  | Some ((a, b), freq) =>
      if (Z.of_nat freq <? min_pair_freq)%Z
         || (max_new_symbols <=? Z.of_nat (List.length (rs_rules st)))%Z
      then Break
      else
        let ns := new_sym (rs_next_idx st) in
        Continue {| rs_seq := rewrite_pair (rs_seq st) a b ns;
                    rs_rules := dict_set (rs_rules st) ns (a, b);
                    rs_next_idx := S (rs_next_idx st) |}
  end.

(** The outer loop; [None] when [fuel] turns did not reach a [break]. *)
Fixpoint rules_loop (fuel : nat) (max_new_symbols min_pair_freq : Z)
    (st : rules_state) : option rules_state :=
  match fuel with
  | 0 => None
  | S f =>
      match rules_iter max_new_symbols min_pair_freq st with
      | Break => Some st
      | Continue st' => rules_loop f max_new_symbols min_pair_freq st'
      end
  end.

Definition initial_rules_state (sequence : list symbol) : rules_state :=
  {| rs_seq := sequence; rs_rules := []; rs_next_idx := 0 |}.

Definition build_hierarchical_rules_fuel (fuel : nat) (sequence : list symbol)
    (max_new_symbols min_pair_freq : Z) : option rules_state :=
  rules_loop fuel max_new_symbols min_pair_freq (initial_rules_state sequence).

(** [build_hierarchical_rules(sequence, max_new_symbols, min_pair_freq)]:
    returns [(seq, rules)]. *)
Definition build_hierarchical_rules (sequence : list symbol)
    (max_new_symbols min_pair_freq : Z)
  : option (list symbol * ruleset) :=
  match build_hierarchical_rules_fuel (S (List.length sequence)) sequence
          max_new_symbols min_pair_freq with
  | Some st => Some (rs_seq st, rs_rules st)
  | None => None
  end.

(* ------------------------------------------------------------------ *)
(** ** encode.py: [encode_file]                                        *)
(* ------------------------------------------------------------------ *)

(** The ["entries"] object of a global dictionary file. *)
Definition global_entries := dict symbol entry.

(** [global_dict[sym] = {k: v for k, v in info.items() if k != "freq"}] *)
Definition strip_freq (info : entry) : entry :=
  filter (fun kv => if eq_dec (fst kv) "freq" then false else true) info.

Definition load_global_dict (dict_file : option global_entries)
  : dict symbol entry :=
  match dict_file with
  | None => []
  | Some entries =>
      fold_left (fun gd si => dict_set gd (fst si) (strip_freq (snd si)))
        entries []
  end.

(** [for sym in global_dict.keys(): if sym.startswith("S"): ...] *)
Definition build_hash_to_sym (global_dict : dict symbol entry)
  : dict string symbol :=
  fold_left
    (fun m sym => if startswith_S sym then dict_set m (drop1 sym) sym else m)
    (dict_keys global_dict) [].

(** The variables of the first streaming pass. *)
Record pass1_state : Type := {
  p1_sequence : list symbol;
  p1_local : dict string symbol;   (* local_symbol_map *)
  p1_total : nat                   (* total_chunks *)
}.

(** [template_dict[sym][ctx] = v] on a [defaultdict(dict)] *)
Definition set_context (td : dict symbol entry) (sym : symbol) (ctx : string)
    (v : jvalue) : dict symbol entry :=
  let e := match dict_get td sym with Some e => e | None => [] end in
  dict_set td sym (dict_set e ctx v).

(** [template_dict[sym].update(m)] *)
Definition update_entry (td : dict symbol entry) (sym : symbol) (m : entry)
  : dict symbol entry :=
  let e := match dict_get td sym with Some e => e | None => [] end in
  dict_set td sym (fold_left (fun e kv => dict_set e (fst kv) (snd kv)) m e).

Section Encoder.
(** [short_hash]: the first 12 hexadecimal digits of SHA-256, an
    external primitive. *)
Variable short_hash : bytes -> string.

Definition pass1_step (hash_to_sym : dict string symbol) (st : pass1_state)
    (chunk : bytes) : pass1_state :=
  let h := short_hash chunk in
  let total := S (p1_total st) in
  match dict_get hash_to_sym h with
  | Some sym =>
      {| p1_sequence := p1_sequence st ++ [sym];
         p1_local := p1_local st;
         p1_total := total |}
  | None =>
      match dict_get (p1_local st) h with
      | Some sym =>
          {| p1_sequence := p1_sequence st ++ [sym];
             p1_local := p1_local st;
             p1_total := total |}
      | None =>
          let sym := ("L" ++ h)%string in
          {| p1_sequence := p1_sequence st ++ [sym];
             p1_local := dict_set (p1_local st) h sym;
             p1_total := total |}
      end
  end.

Definition pass1 (hash_to_sym : dict string symbol) (chunks : list bytes)
  : pass1_state :=
  fold_left (pass1_step hash_to_sym) chunks
    {| p1_sequence := []; p1_local := []; p1_total := 0 |}.

(** The second streaming pass, with its early [break]. *)
Fixpoint pass2 (contexts : list string) (local : dict string symbol)
    (chunks : list bytes) (td : dict symbol entry) (seen : set string)
  : dict symbol entry :=
  match chunks with
  | [] => td
  | chunk :: rest =>
      let h := short_hash chunk in
      let '(td', seen') :=
        match dict_get local h with
        | Some sym =>
            if set_mem string_dec h seen then (td, seen)
            else (fold_left
                    (fun td ctx => set_context td sym ctx (JStr (hex chunk)))
                    contexts td,
                  set_add string_dec h seen)
        | None => (td, seen)
        end in
      if (List.length seen'
          =? List.length (nodup string_dec (dict_values local)))%nat
      then td'
      else pass2 contexts local rest td' seen'
  end.

(** [encode_file]: [input_name] is [os.path.basename(input_path)],
    [data] the content of the input file, [dict_file] the parsed
    global dictionary when [dict_path] is given.  The result is the
    template object handed to [json.dumps]; [None] only if the rule
    loop did not reach its [break]. *)
Definition encode_file (input_name : string) (data : bytes)
    (dict_file : option global_entries) (contexts : list string)
    (size : nat) (min_pair_freq : Z) : option template :=
  let global_dict := load_global_dict dict_file in
  let hash_to_sym := build_hash_to_sym global_dict in
  let chunks := stream_chunks data size in
  let p1 := pass1 hash_to_sym chunks in
  let template_dict :=
    fold_left (fun td sm => update_entry td (fst sm) (snd sm))
      global_dict [] in
  let template_dict :=
    match p1_local p1 with
    | [] => template_dict
    | _ :: _ => pass2 contexts (p1_local p1) chunks template_dict []
    end in
  match build_hierarchical_rules (p1_sequence p1) 10000 min_pair_freq with
  | None => None
  | Some (seq_after, rules) =>
      Some {| tpl_meta := {| chunk_size := Z.of_nat size;
                             orig_file := input_name;
                             total_chunks := Z.of_nat (p1_total p1) |};
              dictionary := template_dict;
              rules := rules;
              sequence := join "," seq_after |}
  end.
End Encoder.

(* ------------------------------------------------------------------ *)
(** ** decode.py: [expand_symbol] and [decode_template]                *)
(* ------------------------------------------------------------------ *)

(** [for v in e.values(): try: return bytes.fromhex(v) / except: continue]
    followed by [return b""]. *)
Fixpoint first_usable (values : list jvalue) : bytes :=
  match values with
  | [] => []
  | v :: r =>
      match fromhex v with
      | Ok bs => bs
      | Raise _ => first_usable r
      end
  end.

Section Decoder.
Variable dictionary_ : dict symbol entry.
Variable rules_ : ruleset.
Variable context : string.

(** The body of [expand_symbol(sym)], without the cache, with [depth]
    nested activations left on the stack. *)
Fixpoint expand_symbol (depth : nat) (sym : symbol) : result bytes :=
  match depth with
  | 0 => Raise RecursionError
  | S d =>
      match dict_get dictionary_ sym with
      | Some e =>
          match dict_get e context with
          | Some v => fromhex v
          | None =>
              match dict_get e "DEFAULT" with
              | Some v => fromhex v
              | None => Ok (first_usable (dict_values e))
              end
          end
      | None =>
          match dict_get rules_ sym with
          | Some (a, b) =>
              x <- expand_symbol d a ;;
              y <- expand_symbol d b ;;
              Ok (x ++ y)
          | None => Ok []
          end
      end
  end.

(** [for s in seq: f_out.write(expand_symbol(s))]: [out] is what the
    file holds so far; an exception leaves the loop with it.  Every
    symbol is expanded by the function without the cache. *)
Fixpoint write_loop (depth : nat) (seq : list symbol) (out : bytes)
  : result unit * bytes :=
  match seq with
  | [] => (Ok tt, out)
  | s :: r =>
      match expand_symbol depth s with
      | Ok b => write_loop depth r (out ++ b)
      | Raise e => (Raise e, out)
      end
  end.
End Decoder.

(** [seq_str.split(",") if seq_str else []] *)
Definition parse_sequence (seq_str : string) : list symbol :=
  match seq_str with
  | EmptyString => []
  | _ => split "," seq_str
  end.

(** The output file: [None] while it does not exist. *)
Definition file := option bytes.

(** [decode_template]: [tpl] is the object [json.loads] returned,
    [out_before] the state of [out_path] before the call.  [open(out_path,
    "wb")] creates or truncates the file, the [with] block closes it on
    every exit.  The result is the outcome and the state of [out_path].
    [expand_symbol] is taken without its cache here;
    [decode_template_cached] below is the same function with it. *)
Definition decode_template (tpl : template) (context : string) (depth : nat)
    (out_before : file) : result unit * file :=
  let seq := parse_sequence (sequence tpl) in
  let '(r, out) :=
    write_loop (dictionary tpl) (rules tpl) context depth seq [] in
  (r, Some out).

(* ------------------------------------------------------------------ *)
(** ** Definitions used to state the properties                        *)
(* ------------------------------------------------------------------ *)

(** [c in s] for a character. *)
Fixpoint has_char (c : ascii) (s : string) : bool :=
  match s with
  | EmptyString => false
  | String x r => Ascii.eqb x c || has_char c r
  end.

(** The adjacent pairs of a sequence, positions [(i, i+1)] from left
    to right. *)
Definition adjacent_pairs (seq : list symbol) : list (symbol * symbol) :=
  combine seq (tl seq).

(** The positions [i] at which the pair [p] stands: [seq[i]] is its
    first and [seq[i+1]] its second component. *)
Definition positions_of_pair (seq : list symbol) (p : symbol * symbol)
  : list nat :=
  filter
    (fun i =>
       if eq_dec (at_index seq i, at_index seq (i + 1)) p then true else false)
    (List.seq 0 (List.length seq - 1)).

(** The rewrite as the specification words it: "whenever the current
    position and the next form exactly the winning pair, emit the new
    rule symbol and advance past both positions; otherwise emit the
    current symbol and advance by one". *)
Fixpoint rewrite_spec (a b ns : symbol) (seq : list symbol) : list symbol :=
  match seq with
  | [] => []
  | x :: r =>
      match r with
      | [] => [x]
      | y :: r' =>
          if eq_dec x a then
            if eq_dec y b then ns :: rewrite_spec a b ns r'
            else x :: rewrite_spec a b ns r
          else x :: rewrite_spec a b ns r
      end
  end.

(** [k] is met in the left-to-right scan of [ps] before [q] is: the
    first occurrence of [k] comes before every occurrence of [q]. *)
Definition seen_before {K : Type} (ps : list K) (k q : K) : Prop :=
  exists pre post, ps = pre ++ k :: post /\ ~ In k pre /\ ~ In q pre.

(** The keys [ks] are listed in the order in which [ps] first shows
    them. *)
Definition first_seen_order {K : Type} (ps ks : list K) : Prop :=
  forall ks1 k ks2 q,
    ks = ks1 ++ k :: ks2 -> In q ks2 -> seen_before ps k q.

(** The number of rule-creating turns of the outer loop of
    [build_hierarchical_rules] before its [break]; [None] when [fuel]
    turns did not reach it. *)
Fixpoint rule_creating_turns (fuel : nat) (max_new_symbols min_pair_freq : Z)
    (st : rules_state) : option nat :=
  match fuel with
  | 0 => None
  | S f =>
      match rules_iter max_new_symbols min_pair_freq st with
      | Break => Some 0
      | Continue st' =>
          option_map S (rule_creating_turns f max_new_symbols min_pair_freq st')
      end
  end.

(** The rules made so far are [R0 .. R(next_idx - 1)], in that order. *)
Definition rules_named (st : rules_state) : Prop :=
  dict_keys (rs_rules st) = map new_sym (List.seq 0 (rs_next_idx st)).

(** A symbol the decoder can resolve: a key of the dictionary or of the
    rules. *)
Definition is_known (dictionary_ : dict symbol entry) (rules_ : ruleset)
    (s : symbol) : bool :=
  dict_mem dictionary_ s || dict_mem rules_ s.

(** [t] is an operand of the rule that [expand_symbol] applies to [s]:
    [s] is no key of the dictionary (which is looked up first) and
    [rules[s]] is [[a, b]] with [t] one of the two. *)
Definition rule_operand (dictionary_ : dict symbol entry) (rules_ : ruleset)
    (s t : symbol) : Prop :=
  dict_get dictionary_ s = None
  /\ exists a b, dict_get rules_ s = Some (a, b) /\ (t = a \/ t = b).

(** [s] is reachable from itself through rule operands. *)
Definition on_cycle (dictionary_ : dict symbol entry) (rules_ : ruleset)
    (s : symbol) : Prop :=
  clos_trans symbol (rule_operand dictionary_ rules_) s s.

(** Every value of every dictionary entry is well-formed hexadecimal
    text. *)
Definition all_hex (dictionary_ : dict symbol entry) : Prop :=
  forall sym e, In (sym, e) dictionary_ ->
    Forall (fun kv => is_ok (fromhex (snd kv)) = true) e.

(** [seq] expands, symbol by symbol, to the byte strings [vs]. *)
Definition expands_to (dictionary_ : dict symbol entry) (rules_ : ruleset)
    (context : string) (depth : nat) (seq : list symbol) (vs : list bytes)
  : Prop :=
  Forall2 (fun s v => expand_symbol dictionary_ rules_ context depth s = Ok v)
    seq vs.

(** ** Templates used as examples *)

Definition no_meta : meta :=
  {| chunk_size := 0; orig_file := EmptyString; total_chunks := 0 |}.

(** A rule set with the cycle [R0 -> [R0, R0]]. *)
Definition cyclic_template : template :=
  {| tpl_meta := no_meta;
     dictionary := [];
     rules := [("R0", ("R0", "R0"))];
     sequence := "R0" |}.


(** A terminal with a ["DEFAULT"] context only, one with no context at
    all, and a sequence that also names a symbol nobody defines. *)
Definition fallback_template : template :=
  {| tpl_meta := no_meta;
     dictionary := [("T", [("DEFAULT", JStr "4142")]); ("E", [])];
     rules := [];
     sequence := "T,X,E" |}.

(** ** The contract of [short_hash] and the shape of symbols *)

(** Every character of [s] satisfies [p]. *)
Fixpoint all_chars (p : ascii -> bool) (s : string) : bool :=
  match s with
  | EmptyString => true
  | String x r => p x && all_chars p r
  end.

(** The characters of [hexdigest()]. *)
Definition is_lower_hex (c : ascii) : bool :=
  let n := N_of_ascii c in
  ((48 <=? n)%N && (n <=? 57)%N) || ((97 <=? n)%N && (n <=? 102)%N).

(** [hexdigest()[:12]]: twelve lower-case hexadecimal digits. *)
Definition is_hex12 (s : string) : bool :=
  (String.length s =? 12)%nat && all_chars is_lower_hex s.

(** A symbol that survives [",".join] and [split(",")]. *)
Definition comma_free (s : symbol) : Prop :=
  s <> EmptyString /\ has_char "," s = false.

(** [s] is none of the rule names [R(k)], [R(k+1)], ... *)
Definition fresh_sym (k : nat) (s : symbol) : Prop :=
  forall j, k <= j -> s <> new_sym j.

(** The symbol the first pass emits for the fingerprint [h]. *)
Definition symbol_of (hash_to_sym : dict string symbol) (h : string)
  : symbol :=
  match dict_get hash_to_sym h with
  | Some sym => sym
  | None => ("L" ++ h)%string
  end.

(** A stand-in for [short_hash] in the examples: the hexadecimal text
    of the first six bytes, padded with zero bytes. *)
Definition toy_hash (b : bytes) : string :=
  hex (firstn 6 (b ++ repeat x00 6)).

(** [b"AAAABBBBAAAABBBB"] *)
Definition sample_input : bytes :=
  [x41; x41; x41; x41; x42; x42; x42; x42;
   x41; x41; x41; x41; x42; x42; x42; x42].

(** The second pass has stored, under the local symbol for the
    fingerprint [h] and under every configured context, the hexadecimal
    text of a chunk of the input with that fingerprint. *)
Definition captured (short_hash : bytes -> string) (contexts : list string)
    (chunks : list bytes) (td : dict symbol entry) (h : string) : Prop :=
  forall ctx, In ctx contexts ->
    exists e c',
      dict_get td ("L" ++ h)%string = Some e
      /\ dict_get e ctx = Some (JStr (hex c'))
      /\ In c' chunks
      /\ short_hash c' = h.

(** What every turn of the Grammar Compressor keeps, seen from the
    decoder with the dictionary [dictionary_] and the context [context]:
    the rules are [R0 .. R(k-1)], no symbol in use is a later rule name,
    every symbol survives the comma-separated wire format, and the
    sequence expands to [data] within [k + 1] frames. *)
Definition grammar_inv (dictionary_ : dict symbol entry) (context : string)
    (data : bytes) (st : rules_state) : Prop :=
  rules_named st
  /\ Forall (fresh_sym (rs_next_idx st)) (rs_seq st)
  /\ Forall comma_free (rs_seq st)
  /\ (forall s x y, In (s, (x, y)) (rs_rules st) ->
        fresh_sym (rs_next_idx st) x /\ fresh_sym (rs_next_idx st) y)
  /\ exists vs,
       expands_to dictionary_ (rs_rules st) context (S (rs_next_idx st))
         (rs_seq st) vs
       /\ List.concat vs = data.

(* ------------------------------------------------------------------ *)
(** ** Definitions used to state further properties                    *)
(* ------------------------------------------------------------------ *)

(** The rules and the sequence of the state [st] refer to nothing but
    the symbols of the input sequence [seq0] and the rules made. *)
Definition grammar_closed (seq0 : list symbol) (st : rules_state) : Prop :=
  (forall x, In x (rs_seq st) ->
     In x seq0 \/ In x (dict_keys (rs_rules st)))
  /\ (forall s a b, In (s, (a, b)) (rs_rules st) ->
        (In a seq0 \/ In a (dict_keys (rs_rules st)))
        /\ (In b seq0 \/ In b (dict_keys (rs_rules st)))).

(** Every rule made is [R(i)] for some [i] below [next_idx], and neither
    operand of it is one of [R(i)], [R(i+1)], ...; nor is a symbol of
    the sequence one of [R(next_idx)], ... *)
Definition grammar_ordered (st : rules_state) : Prop :=
  Forall (fresh_sym (rs_next_idx st)) (rs_seq st)
  /\ forall s a b, In (s, (a, b)) (rs_rules st) ->
       exists i, i < rs_next_idx st /\ s = new_sym i
                 /\ fresh_sym i a /\ fresh_sym i b.

(** The second pass has stored the local symbol for the fingerprint [h]
    with an entry that is not empty and whose every value is the
    hexadecimal text of one chunk of the input with that fingerprint. *)
Definition captured_all (short_hash : bytes -> string) (chunks : list bytes)
    (td : dict symbol entry) (h : string) : Prop :=
  exists e c',
    dict_get td ("L" ++ h)%string = Some e
    /\ e <> []
    /\ (forall k v, In (k, v) e -> v = JStr (hex c'))
    /\ In c' chunks
    /\ short_hash c' = h.

(* ------------------------------------------------------------------ *)
(** ** encode.py: [build_global_dict]                                  *)
(* ------------------------------------------------------------------ *)

(** The variables of the scan: [counts], [sample_map] and [total]. *)
Record scan_state : Type := {
  sc_counts : counter string;
  sc_sample_map : dict string bytes;
  sc_total : nat
}.

(** The object written to the dictionary file. *)
Record dict_file_object : Type := {
  gd_chunk_size : Z;
  gd_min_freq : Z;
  gd_entries : global_entries
}.

(** The entry of a fingerprint: [{"DEFAULT": sample.hex(), "freq": cnt}] *)
Definition global_entry (sample : bytes) (cnt : nat) : entry :=
  [("DEFAULT", JStr (hex sample)); ("freq", JNum (Z.of_nat cnt))].

(** [for h, cnt in counts.items(): if cnt >= min_freq: entries["S" + h]
    = ...]; [None] is the [KeyError] of [sample_map[h]]. *)
Fixpoint collect_entries (min_freq : Z) (sample_map : dict string bytes)
    (items : list (string * nat)) (entries : global_entries)
  : option global_entries :=
  match items with
  | [] => Some entries
  | (h, cnt) :: r =>
      if (min_freq <=? Z.of_nat cnt)%Z then
        match dict_get sample_map h with
        | Some sample =>
            collect_entries min_freq sample_map r
              (dict_set entries ("S" ++ h)%string (global_entry sample cnt))
        | None => None
        end
      else collect_entries min_freq sample_map r entries
  end.

Section GlobalDictBuilder.
Variable short_hash : bytes -> string.

(** The body of [for c in stream_chunks(p, chunk_size)]. *)
Definition scan_step (st : scan_state) (c : bytes) : scan_state :=
  let h := short_hash c in
  {| sc_counts := counter_incr (sc_counts st) h;
     sc_sample_map :=
       if dict_mem (sc_sample_map st) h then sc_sample_map st
       else dict_set (sc_sample_map st) h c;
     sc_total := S (sc_total st) |}.

(** [for p in paths: for c in stream_chunks(p, chunk_size): ...]; a
    path is the content of its file. *)
Definition scan_files (files : list bytes) (size : nat) : scan_state :=
  fold_left
    (fun st data => fold_left scan_step (stream_chunks data size) st)
    files
    {| sc_counts := []; sc_sample_map := []; sc_total := 0 |}.

(** [build_global_dict(paths, out_path, chunk_size, min_freq)]: the
    result is the object handed to [json.dump]. *)
Definition build_global_dict (files : list bytes) (size : nat) (min_freq : Z)
  : option dict_file_object :=
  let st := scan_files files size in
  match collect_entries min_freq (sc_sample_map st) (sc_counts st) [] with
  | Some entries =>
      Some {| gd_chunk_size := Z.of_nat size;
              gd_min_freq := min_freq;
              gd_entries := entries |}
  | None => None
  end.
End GlobalDictBuilder.

(** All the chunks of the sample files, in scan order. *)
Definition sample_chunks (files : list bytes) (size : nat) : list bytes :=
  flat_map (fun data => stream_chunks data size) files.

(** The first chunk of [chunks] with the fingerprint [h]. *)
Definition first_with_hash (short_hash : bytes -> string) (h : string)
    (chunks : list bytes) : option bytes :=
  find (fun c => if string_dec (short_hash c) h then true else false) chunks.

(** [template_dict[sym].update(m)] on a fresh [sym] stores the items of
    [m] in their order. *)
Definition updated (m : entry) : entry :=
  fold_left (fun e kv => dict_set e (fst kv) (snd kv)) m [].

(* ------------------------------------------------------------------ *)
(** ** decode.py: [expand_symbol] under [lru_cache(maxsize=65536)]     *)
(* ------------------------------------------------------------------ *)

(** The cache of [lru_cache]: key and result, most recently used
    first. *)
Definition lru := list (symbol * bytes).

Definition lru_maxsize : N := 65536.

(** A hit moves the link to the front of the queue. *)
Definition lru_touch (c : lru) (sym : symbol) (v : bytes) : lru :=
  (sym, v) :: filter (fun kv => if eq_dec (fst kv) sym then false else true) c.

(** After a miss the result is stored, unless the key got into the
    cache meanwhile; when the cache is full the oldest link goes. *)
Definition lru_store (c : lru) (sym : symbol) (v : bytes) : lru :=
  match dict_get c sym with
  | Some _ => c
  | None =>
      if (lru_maxsize <=? N.of_nat (List.length c))%N
      then (sym, v) :: removelast c
      else (sym, v) :: c
  end.

(** The return of the wrapper after the call of the function: a result
    is stored, an exception passes through and nothing is stored. *)
Definition lru_return (sym : symbol) (rc : result bytes * lru)
  : result bytes * lru :=
  match rc with
  | (Ok v, c) => (Ok v, lru_store c sym v)
  | (Raise e, c) => (Raise e, c)
  end.

(** The terminal branch of [expand_symbol] on the entry [e]. *)
Definition resolve_entry (context : string) (e : entry) : result bytes :=
  match dict_get e context with
  | Some v => fromhex v
  | None =>
      match dict_get e "DEFAULT" with
      | Some v => fromhex v
      | None => Ok (first_usable (dict_values e))
      end
  end.

Section CachedDecoder.
Variable dictionary_ : dict symbol entry.
Variable rules_ : ruleset.
Variable context : string.

(** [expand_symbol(sym)] as decorated: the wrapper looks the key up and
    returns a stored result; otherwise it calls the function, which
    needs one of the [depth] activations left, and stores what the
    function returns.  [c] is the cache before the call, the second
    component of the result the cache after it. *)
Fixpoint expand_symbol_cached (depth : nat) (c : lru) (sym : symbol)
  : result bytes * lru :=
  match dict_get c sym with
  | Some v => (Ok v, lru_touch c sym v)
  | None =>
      match depth with
      | 0 => (Raise RecursionError, c)
      | S d =>
          lru_return sym
            match dict_get dictionary_ sym with
            | Some e => (resolve_entry context e, c)
            | None =>
                match dict_get rules_ sym with
                | Some (a, b) =>
                    match expand_symbol_cached d c a with
                    | (Ok x, c1) =>
                        match expand_symbol_cached d c1 b with
                        | (Ok y, c2) => (Ok (x ++ y), c2)
                        | (Raise e, c2) => (Raise e, c2)
                        end
                    | (Raise e, c1) => (Raise e, c1)
                    end
                | None => (Ok [], c)
                end
            end
      end
  end.

(** [for s in seq: f_out.write(expand_symbol(s))] with the cache carried
    from symbol to symbol. *)
Fixpoint write_loop_cached (depth : nat) (c : lru) (seq : list symbol)
    (out : bytes) : result unit * bytes :=
  match seq with
  | [] => (Ok tt, out)
  | s :: r =>
      match expand_symbol_cached depth c s with
      | (Ok b, c') => write_loop_cached depth c' r (out ++ b)
      | (Raise e, _) => (Raise e, out)
      end
  end.
End CachedDecoder.

(** [decode_template] as it runs: the cache is made anew, empty, by
    every call. *)
Definition decode_template_cached (tpl : template) (context : string)
    (depth : nat) (out_before : file) : result unit * file :=
  let seq := parse_sequence (sequence tpl) in
  let '(r, out) :=
    write_loop_cached (dictionary tpl) (rules tpl) context depth [] seq [] in
  (r, Some out).

(** Every stored result is a result of the function. *)
Definition lru_sound (dictionary_ : dict symbol entry) (rules_ : ruleset)
    (context : string) (c : lru) : Prop :=
  forall s v, In (s, v) c ->
    exists d, expand_symbol dictionary_ rules_ context d s = Ok v.

(** [b"ABCDABCD"] *)
Definition abcd_twice : bytes := [x41; x42; x43; x44; x41; x42; x43; x44].

(** [s] heads a chain of [n] rules, each of them the first operand of
    the one before: what [expand_symbol(s)] descends into before
    anything returns. *)
Inductive left_chain (dictionary_ : dict symbol entry) (rules_ : ruleset)
  : nat -> symbol -> Prop :=
| left_chain_end s : left_chain dictionary_ rules_ 0 s
| left_chain_rule n s a b :
    dict_get dictionary_ s = None ->
    dict_get rules_ s = Some (a, b) ->
    left_chain dictionary_ rules_ n a ->
    left_chain dictionary_ rules_ (S n) s.





(** Three rules, each inside the next, and a sequence that names them
    from the innermost outwards: every expansion but the first finds
    its first operand in the cache. *)
Definition warm_cache_template : template :=
  {| tpl_meta := no_meta;
     dictionary := [("A", [("DEFAULT", JStr "41")]);
                    ("B", [("DEFAULT", JStr "42")])];
     rules := [("R0", ("A", "B")); ("R1", ("R0", "A")); ("R2", ("R1", "B"))];
     sequence := "R0,R1,R2" |}.

(* ================================================================== *)
(** * Part II.  Properties                                             *)
(* ================================================================== *)

(** ** Dictionaries *)

Section DictFacts.
Context {K V : Type} `{EqDec K}.
Implicit Types (d : dict K V) (k : K) (v : V).

Lemma dict_get_set_same d k v : dict_get (dict_set d k v) k = Some v.
Proof.
  induction d as [ | [k' v'] r IH]; simpl.
  - destruct (eq_dec k k); congruence.
  - destruct (eq_dec k' k) as [E | E]; simpl.
    + destruct (eq_dec k' k); congruence.
    + destruct (eq_dec k' k); congruence.
Qed.

Lemma dict_get_set_other d k k' v :
  k <> k' -> dict_get (dict_set d k v) k' = dict_get d k'.
Proof.
  intros Hne.
  induction d as [ | [k0 v0] r IH]; simpl.
  - destruct (eq_dec k k'); congruence.
  - destruct (eq_dec k0 k) as [E | E]; simpl.
    + subst k0. destruct (eq_dec k k'); congruence.
    + destruct (eq_dec k0 k'); congruence.
Qed.

Lemma dict_get_In d k v : dict_get d k = Some v -> In (k, v) d.
Proof.
  induction d as [ | [k0 v0] r IH]; simpl; [ discriminate | ].
  destruct (eq_dec k0 k) as [E | E].
  - intros [= ->]. subst. now left.
  - intros Hg. right. now apply IH.
Qed.

Lemma dict_get_None_keys d k :
  dict_get d k = None <-> ~ In k (dict_keys d).
Proof.
  induction d as [ | [k0 v0] r IH]; simpl.
  - tauto.
  - destruct (eq_dec k0 k) as [E | E].
    + split; [ discriminate | intros Hn; exfalso; apply Hn; now left ].
    + rewrite IH. tauto.
Qed.

Lemma dict_get_Some_keys d k v :
  dict_get d k = Some v -> In k (dict_keys d).
Proof.
  intros Hg. apply dict_get_In in Hg.
  unfold dict_keys. apply in_map_iff. now exists (k, v).
Qed.

Lemma dict_keys_set_new d k v :
  dict_get d k = None -> dict_keys (dict_set d k v) = dict_keys d ++ [k].
Proof.
  induction d as [ | [k0 v0] r IH]; simpl; [ reflexivity | ].
  destruct (eq_dec k0 k) as [E | E]; [ discriminate | ].
  intros Hg. simpl. now rewrite IH.
Qed.

Lemma dict_keys_set_old d k v v0 :
  dict_get d k = Some v0 -> dict_keys (dict_set d k v) = dict_keys d.
Proof.
  induction d as [ | [k1 v1] r IH]; simpl; [ discriminate | ].
  destruct (eq_dec k1 k) as [E | E]; simpl; [ reflexivity | ].
  intros Hg. now rewrite IH.
Qed.

Lemma dict_set_new d k v :
  dict_get d k = None -> dict_set d k v = d ++ [(k, v)].
Proof.
  induction d as [ | [k0 v0] r IH]; simpl; [ reflexivity | ].
  destruct (eq_dec k0 k) as [E | E]; [ discriminate | ].
  intros Hg. now rewrite IH.
Qed.

Lemma dict_get_app d d' k :
  dict_get (d ++ d') k =
  match dict_get d k with Some v => Some v | None => dict_get d' k end.
Proof.
  induction d as [ | [k0 v0] r IH]; simpl; [ reflexivity | ].
  destruct (eq_dec k0 k); [ reflexivity | apply IH ].
Qed.
End DictFacts.

(** ** Hexadecimal text *)

Lemma fromhex_str_hex_of_byte (b : byte) (s : string) :
  fromhex_str (hex_of_byte b ++ s) =
  match fromhex_str s with Some r => Some (b :: r) | None => None end.
Proof. destruct b; reflexivity. Qed.

Lemma fromhex_str_hex (bs : bytes) : fromhex_str (hex bs) = Some bs.
Proof.
  induction bs as [ | b r IH]; [ reflexivity | ].
  cbn [hex]. rewrite fromhex_str_hex_of_byte, IH. reflexivity.
Qed.

Lemma fromhex_hex (bs : bytes) : fromhex (JStr (hex bs)) = Ok bs.
Proof. unfold fromhex. now rewrite fromhex_str_hex. Qed.

(** ** [join] and [split] *)

Lemma has_char_append c s t :
  has_char c (s ++ t) = has_char c s || has_char c t.
Proof.
  induction s as [ | x r IH]; simpl; [ reflexivity | ].
  now rewrite IH, orb_assoc.
Qed.

Lemma split_nonempty c s : split c s <> [].
Proof.
  destruct s as [ | x r]; simpl; [ discriminate | ].
  destruct (Ascii.eqb x c); [ discriminate | ].
  destruct (split c r); discriminate.
Qed.

Lemma split_no_sep c s : has_char c s = false -> split c s = [s].
Proof.
  induction s as [ | x r IH]; simpl; [ reflexivity | ].
  destruct (Ascii.eqb x c); simpl; [ discriminate | ].
  intros Hc. now rewrite IH.
Qed.

Lemma split_append_sep c s t :
  has_char c s = false ->
  split c (s ++ String c t) = s :: split c t.
Proof.
  induction s as [ | x r IH]; simpl.
  - now rewrite Ascii.eqb_refl.
  - destruct (Ascii.eqb x c); simpl; [ discriminate | ].
    intros Hc. now rewrite IH.
Qed.

Lemma split_join c (l : list string) :
  l <> [] ->
  Forall (fun s => has_char c s = false) l ->
  split c (join (String c EmptyString) l) = l.
Proof.
  induction l as [ | s r IH]; [ congruence | ].
  intros _ Hall. inversion Hall as [ | ? ? Hs Hr]; subst.
  destruct r as [ | s' r'].
  - simpl. now apply split_no_sep.
  - change (join (String c EmptyString) (s :: s' :: r'))
      with (s ++ String c (join (String c EmptyString) (s' :: r')))%string.
    rewrite split_append_sep by assumption.
    f_equal. apply IH; [ discriminate | assumption ].
Qed.

Lemma join_nonempty sep (l : list string) s r :
  l = s :: r -> s <> EmptyString -> join sep l <> EmptyString.
Proof.
  intros -> Hs. destruct r as [ | s' r']; simpl; [ assumption | ].
  destruct s; [ congruence | discriminate ].
Qed.

(** The sequence field survives [",".join] and [split(",")] when no
    symbol is empty or holds a comma. *)
Lemma parse_sequence_join (l : list symbol) :
  Forall (fun s => s <> EmptyString /\ has_char "," s = false) l ->
  parse_sequence (join "," l) = l.
Proof.
  intros Hall. destruct l as [ | s r]; [ reflexivity | ].
  unfold parse_sequence.
  assert (Hne : join "," (s :: r) <> EmptyString).
  { eapply join_nonempty; [ reflexivity | ].
    inversion Hall; subst; tauto. }
  destruct (join "," (s :: r)) eqn:Ej; [ congruence | ].
  rewrite <- Ej. apply split_join; [ discriminate | ].
  eapply Forall_impl; [ | exact Hall ]. simpl; tauto.
Qed.

(** ** The rewrite loop *)

Lemma at_index_app_length (pre suf : list symbol) x :
  at_index (pre ++ x :: suf) (List.length pre) = x.
Proof. unfold at_index. now rewrite nth_middle. Qed.

Lemma rewrite_loop_spec a b ns (fuel : nat) :
  forall (pre suf acc : list symbol),
    List.length suf <= fuel ->
    rewrite_loop fuel (pre ++ suf) a b ns (List.length pre) acc =
    acc ++ rewrite_spec a b ns suf.
Proof.
  induction fuel as [ | f IH]; intros pre suf acc Hlen.
  - destruct suf; simpl in Hlen; [ | lia ]. simpl. now rewrite app_nil_r.
  - cbn [rewrite_loop].
    destruct suf as [ | x r].
    + rewrite app_nil_r, Nat.ltb_irrefl. simpl. now rewrite app_nil_r.
    + assert (Hlt : (List.length pre <? List.length (pre ++ x :: r))%nat
                    = true).
      { apply Nat.ltb_lt. rewrite length_app. simpl. lia. }
      rewrite Hlt, at_index_app_length.
      assert (Hnext : forall acc',
                 rewrite_loop f (pre ++ x :: r) a b ns
                   (List.length pre + 1) acc'
                 = acc' ++ rewrite_spec a b ns r).
      { intros acc'.
        replace (pre ++ x :: r) with ((pre ++ [x]) ++ r)
          by now rewrite <- app_assoc.
        replace (List.length pre + 1) with (List.length (pre ++ [x]))
          by (rewrite length_app; reflexivity).
        apply IH. simpl in Hlen. lia. }
      destruct r as [ | y r'].
      * assert (Hlast : (List.length pre <? List.length (pre ++ [x]) - 1)%nat
                        = false).
        { apply Nat.ltb_ge. rewrite length_app. simpl. lia. }
        rewrite Hlast. cbn [andb]. rewrite Hnext. simpl.
        now rewrite app_nil_r.
      * assert (Hin : (List.length pre
                         <? List.length (pre ++ x :: y :: r') - 1)%nat = true).
        { apply Nat.ltb_lt. rewrite length_app. simpl. lia. }
        rewrite Hin. cbn [andb].
        assert (Hy : at_index (pre ++ x :: y :: r') (List.length pre + 1) = y).
        { replace (pre ++ x :: y :: r') with ((pre ++ [x]) ++ y :: r')
            by now rewrite <- app_assoc.
          replace (List.length pre + 1) with (List.length (pre ++ [x]))
            by (rewrite length_app; reflexivity).
          apply at_index_app_length. }
        rewrite Hy. cbn [rewrite_spec].
        destruct (eq_dec x a) as [Ex | Ex]; cbn [andb].
        -- destruct (eq_dec y b) as [Ey | Ey].
           ++ replace (pre ++ x :: y :: r') with ((pre ++ [x; y]) ++ r')
                by (rewrite <- app_assoc; reflexivity).
              replace (List.length pre + 1 + 1)
                with (List.length (pre ++ [x; y]))
                by (rewrite length_app; simpl; lia).
              rewrite IH by (simpl in Hlen; lia).
              rewrite <- app_assoc. reflexivity.
           ++ rewrite Hnext, <- app_assoc. reflexivity.
        -- rewrite Hnext, <- app_assoc. reflexivity.
Qed.

(** The index loop of the source computes the rewrite of the
    specification. *)
Lemma rewrite_pair_spec (seq : list symbol) a b ns :
  rewrite_pair seq a b ns = rewrite_spec a b ns seq.
Proof.
  unfold rewrite_pair.
  exact (rewrite_loop_spec a b ns (List.length seq) [] seq [] (le_n _)).
Qed.

Lemma rewrite_spec_length a b ns (seq : list symbol) :
  List.length (rewrite_spec a b ns seq) <= List.length seq.
Proof.
  assert (H : forall n (s : list symbol), List.length s <= n ->
              List.length (rewrite_spec a b ns s) <= List.length s).
  { induction n as [ | n IH]; intros s Hs.
    - destruct s; simpl in *; lia.
    - destruct s as [ | x [ | y r']]; simpl; try lia.
      destruct (eq_dec x a); [ destruct (eq_dec y b) | ]; simpl.
      + specialize (IH r'). simpl in Hs. lia.
      + specialize (IH (y :: r')). simpl in *. lia.
      + specialize (IH (y :: r')). simpl in *. lia. }
  now apply (H (List.length seq)).
Qed.

(** An occurrence of the pair makes the rewritten sequence shorter. *)
Lemma rewrite_spec_shorter a b ns (seq : list symbol) :
  In (a, b) (adjacent_pairs seq) ->
  List.length (rewrite_spec a b ns seq) < List.length seq.
Proof.
  assert (H : forall n (s : list symbol), List.length s <= n ->
              In (a, b) (adjacent_pairs s) ->
              List.length (rewrite_spec a b ns s) < List.length s).
  { induction n as [ | n IH]; intros s Hs Hin.
    - destruct s; simpl in *; [ contradiction | lia ].
    - destruct s as [ | x [ | y r']]; try (simpl in Hin; contradiction).
      cbn [rewrite_spec].
      unfold adjacent_pairs in Hin. simpl in Hin.
      destruct (eq_dec x a) as [Ex | Ex];
        [ destruct (eq_dec y b) as [Ey | Ey] | ].
      + pose proof (rewrite_spec_length a b ns r'). simpl. lia.
      + destruct Hin as [Hin | Hin]; [ congruence | ].
        specialize (IH (y :: r')). simpl in *.
        apply Nat.succ_lt_mono in IH; [ lia | lia | exact Hin ].
      + destruct Hin as [Hin | Hin]; [ congruence | ].
        specialize (IH (y :: r')). simpl in *.
        apply Nat.succ_lt_mono in IH; [ lia | lia | exact Hin ]. }
  now apply (H (List.length seq)).
Qed.

(** ** Counters *)

Section CounterFacts.
Context {K : Type} `{EqDec K}.
Implicit Types (c : counter K) (k q : K) (ps : list K).

Lemma counter_get_incr_same c k :
  counter_get (counter_incr c k) k = S (counter_get c k).
Proof.
  unfold counter_incr. unfold counter_get at 1.
  now rewrite dict_get_set_same.
Qed.

Lemma counter_get_incr_other c k q :
  k <> q -> counter_get (counter_incr c k) q = counter_get c q.
Proof.
  intros Hne. unfold counter_incr, counter_get.
  now rewrite dict_get_set_other.
Qed.

(** After the scan, the count of a key is its number of occurrences. *)
Lemma counter_get_fold ps : forall c k,
  counter_get (fold_left counter_incr ps c) k
  = counter_get c k + count_occ eq_dec ps k.
Proof.
  induction ps as [ | p r IH]; intros c k; simpl; [ lia | ].
  rewrite IH.
  destruct (eq_dec p k) as [E | E].
  - subst p. rewrite counter_get_incr_same. lia.
  - rewrite counter_get_incr_other by assumption. lia.
Qed.

Lemma counter_keys_incr c k :
  dict_keys (counter_incr c k) =
  if dict_mem c k then dict_keys c else dict_keys c ++ [k].
Proof.
  unfold counter_incr, dict_mem.
  destruct (dict_get c k) as [n | ] eqn:Eg.
  - eapply dict_keys_set_old. exact Eg.
  - now apply dict_keys_set_new.
Qed.

Lemma dict_mem_keys c k : dict_mem c k = true <-> In k (dict_keys c).
Proof.
  unfold dict_mem. destruct (dict_get c k) as [n | ] eqn:Eg.
  - split; [ intros _; eapply dict_get_Some_keys; exact Eg | reflexivity ].
  - split; [ discriminate | ].
    intros Hin. apply dict_get_None_keys in Eg. contradiction.
Qed.

Lemma seen_before_snoc ps k q p :
  seen_before ps k q -> seen_before (ps ++ [p]) k q.
Proof.
  intros (pre & post & -> & Hk & Hq).
  exists pre, (post ++ [p]). rewrite <- app_assoc. auto.
Qed.

Lemma in_split_first ps k :
  In k ps -> exists pre post, ps = pre ++ k :: post /\ ~ In k pre.
Proof.
  induction ps as [ | p r IH]; simpl; [ contradiction | ].
  intros Hin. destruct (eq_dec p k) as [E | E].
  - subst p. exists [], r. auto.
  - destruct Hin as [Hin | Hin]; [ contradiction | ].
    destruct (IH Hin) as (pre & post & -> & Hpre).
    exists (p :: pre), post. split; [ reflexivity | ].
    simpl. intros [Hp | Hp]; auto.
Qed.

Lemma counter_keys_fold ps :
  let c := fold_left counter_incr ps [] in
  NoDup (dict_keys c)
  /\ (forall k, In k (dict_keys c) <-> In k ps)
  /\ first_seen_order ps (dict_keys c).
Proof.
  induction ps as [ | p ps IH] using rev_ind; simpl.
  - split; [ constructor | ]. split; [ tauto | ].
    intros ks1 k ks2 q Heq. destruct ks1; discriminate.
  - rewrite fold_left_app. simpl.
    set (c := fold_left counter_incr ps []) in *.
    simpl in IH. destruct IH as (Hnd & Hkeys & Hord).
    rewrite counter_keys_incr.
    destruct (dict_mem c p) eqn:Em.
    + apply dict_mem_keys in Em.
      split; [ assumption | ]. split.
      * intros k. rewrite in_app_iff, Hkeys. simpl.
        split; [ tauto | ].
        intros [Hk | [Hk | []]]; [ assumption | ].
        subst k. now apply Hkeys.
      * intros ks1 k ks2 q Heq Hq. apply seen_before_snoc.
        eapply Hord; eassumption.
    + assert (Hp : ~ In p (dict_keys c)).
      { intros Hin. apply dict_mem_keys in Hin. congruence. }
      split; [ | split ].
      * apply NoDup_app; [ assumption | repeat constructor; simpl; tauto | ].
        intros a Ha [Hb | []]. congruence.
      * intros k. rewrite !in_app_iff, Hkeys. tauto.
      * intros ks1 k ks2 q Heq Hq.
        destruct ks2 as [ | z ks2 _] using rev_ind; [ contradiction | ].
        change (ks1 ++ k :: ks2 ++ [z]) with (ks1 ++ (k :: ks2) ++ [z]) in Heq.
        rewrite app_assoc in Heq.
        apply app_inj_tail in Heq. destruct Heq as [Heq <-].
        apply in_app_iff in Hq. destruct Hq as [Hq | [Hq | []]].
        -- apply seen_before_snoc. eapply Hord; eassumption.
        -- subst q.
           assert (Hk : In k ps).
           { apply Hkeys. rewrite Heq. apply in_elt. }
           destruct (in_split_first _ _ Hk) as (pre & post & Eps & Hpre).
           exists pre, (post ++ [p]). split; [ | split ].
           ++ rewrite Eps, <- app_assoc. reflexivity.
           ++ assumption.
           ++ intros Hin. apply Hp, Hkeys. rewrite Eps.
              apply in_app_iff. now left.
Qed.

(** [max] keeps the first of the items with the greatest count. *)
Lemma max_first_split (rest : list (K * nat)) :
  forall (best : K * nat) (pre mid : list (K * nat)),
    (forall y, In y pre -> snd y < snd best) ->
    (forall y, In y mid -> snd y <= snd best) ->
    exists i1 i2,
      pre ++ best :: mid ++ rest = i1 ++ max_first best rest :: i2
      /\ (forall y, In y i1 -> snd y < snd (max_first best rest))
      /\ (forall y, In y i2 -> snd y <= snd (max_first best rest)).
Proof.
  induction rest as [ | x r IH]; intros best pre mid Hpre Hmid; simpl.
  - exists pre, mid. rewrite app_nil_r. auto.
  - destruct (Nat.ltb_spec (snd best) (snd x)) as [Hlt | Hge].
    + destruct (IH x (pre ++ best :: mid) []) as (i1 & i2 & Heq & H1 & H2).
      * intros y Hy. apply in_app_iff in Hy.
        destruct Hy as [Hy | [Hy | Hy]].
        -- specialize (Hpre _ Hy). lia.
        -- subst y. assumption.
        -- specialize (Hmid _ Hy). lia.
      * intros y [].
      * exists i1, i2. split; [ | auto ].
        rewrite <- Heq. rewrite <- app_assoc. reflexivity.
    + destruct (IH best pre (mid ++ [x])) as (i1 & i2 & Heq & H1 & H2).
      * assumption.
      * intros y Hy. apply in_app_iff in Hy.
        destruct Hy as [Hy | [Hy | []]]; [ auto | subst y; lia ].
      * exists i1, i2. split; [ | auto ].
        rewrite <- Heq. rewrite <- app_assoc. reflexivity.
Qed.

Lemma dict_get_NoDup_In (d : counter K) k n :
  NoDup (dict_keys d) -> In (k, n) d -> dict_get d k = Some n.
Proof.
  induction d as [ | [k0 n0] r IH]; simpl; [ contradiction | ].
  intros Hnd Hin. inversion Hnd as [ | ? ? Hk0 Hr]; subst.
  destruct (eq_dec k0 k) as [E | E].
  - subst k0. destruct Hin as [Hin | Hin]; [ congruence | ].
    exfalso. apply Hk0. unfold dict_keys.
    apply in_map_iff. now exists (k, n).
  - destruct Hin as [Hin | Hin]; [ congruence | ]. now apply IH.
Qed.

(** [most_common(1)] after a left-to-right scan of [ps]: the winner
    has the greatest number of occurrences, and it was met before
    every other key with as many. *)
Lemma most_common1_first_seen ps k f :
  most_common1 (fold_left counter_incr ps []) = Some (k, f) ->
  f = count_occ eq_dec ps k
  /\ 1 <= f
  /\ (forall q, count_occ eq_dec ps q <= f)
  /\ (forall q, q <> k -> count_occ eq_dec ps q = f -> seen_before ps k q).
Proof.
  intros Hmc.
  destruct (counter_keys_fold ps) as (Hnd & Hkeys & Hord).
  simpl in Hnd, Hkeys, Hord.
  pose proof (fun q => counter_get_fold ps [] q) as Hcnt. simpl in Hcnt.
  set (c := fold_left counter_incr ps []) in *.
  destruct c as [ | x rest] eqn:Ec; [ discriminate | ].
  simpl in Hmc. injection Hmc as Hmax.
  destruct (max_first_split rest x [] [])
    as (i1 & i2 & Heq & H1 & H2); [ intros y [] | intros y [] | ].
  simpl in Heq. rewrite Hmax in Heq, H1, H2. simpl in H1, H2.
  assert (Hget : forall q n, In (q, n) (x :: rest) ->
                 n = count_occ eq_dec ps q).
  { intros q n Hin. rewrite <- Hcnt. unfold counter_get.
    now rewrite (dict_get_NoDup_In _ _ _ Hnd Hin). }
  assert (Hkf : In (k, f) (x :: rest)).
  { rewrite Heq. apply in_elt. }
  assert (Hf : f = count_occ eq_dec ps k) by now apply Hget.
  assert (Hkin : In k ps).
  { apply Hkeys. unfold dict_keys. apply in_map_iff. now exists (k, f). }
  assert (Hpos : 1 <= f).
  { rewrite Hf. apply (count_occ_In eq_dec) in Hkin. lia. }
  assert (Hbound : forall q n, In (q, n) (x :: rest) -> n <= f).
  { intros q n Hin. rewrite Heq in Hin. apply in_app_iff in Hin.
    destruct Hin as [Hin | [Hin | Hin]].
    - specialize (H1 _ Hin). simpl in H1. lia.
    - injection Hin as _ <-. lia.
    - exact (H2 _ Hin). }
  assert (Hitem : forall q, In q ps ->
                  In (q, count_occ eq_dec ps q) (x :: rest)).
  { intros q Hq. apply Hkeys in Hq. unfold dict_keys in Hq.
    apply in_map_iff in Hq. destruct Hq as ([q' n] & Eq & Hin).
    simpl in Eq. subst q'. now rewrite <- (Hget _ _ Hin). }
  split; [ exact Hf | ]. split; [ exact Hpos | ]. split.
  - intros q. destruct (in_dec eq_dec q ps) as [Hq | Hq].
    + eapply Hbound. apply Hitem. exact Hq.
    + apply (count_occ_not_In eq_dec) in Hq. lia.
  - intros q Hne Hq.
    assert (Hqin : In q ps).
    { apply (count_occ_In eq_dec). lia. }
    pose proof (Hitem _ Hqin) as Hin. rewrite Hq in Hin.
    rewrite Heq in Hin. apply in_app_iff in Hin.
    destruct Hin as [Hin | [Hin | Hin]].
    + specialize (H1 _ Hin). simpl in H1. lia.
    + congruence.
    + apply (Hord (map fst i1) k (map fst i2) q).
      * unfold dict_keys. rewrite Heq, map_app. reflexivity.
      * apply in_map_iff. now exists (q, f).
Qed.
End CounterFacts.

(** ** Pair counting *)

Lemma fold_left_map_list {A B C} (f : A -> C -> A) (g : B -> C) (l : list B) :
  forall a, fold_left f (map g l) a = fold_left (fun a x => f a (g x)) l a.
Proof.
  induction l as [ | x r IH]; intros a; simpl; [ reflexivity | apply IH ].
Qed.

(** The index scan visits the adjacent pairs from left to right. *)
Lemma pairs_by_index (seq : list symbol) :
  map (fun i => (at_index seq i, at_index seq (i + 1)))
      (List.seq 0 (List.length seq - 1))
  = adjacent_pairs seq.
Proof.
  induction seq as [ | x r IH]; [ reflexivity | ].
  destruct r as [ | y r']; [ reflexivity | ].
  replace (List.length (x :: y :: r') - 1) with (S (List.length (y :: r') - 1))
    by (simpl; lia).
  cbn [List.seq map]. rewrite <- seq_shift, map_map.
  change (adjacent_pairs (x :: y :: r'))
    with ((x, y) :: adjacent_pairs (y :: r')).
  f_equal. rewrite <- IH. apply map_ext. intros i. reflexivity.
Qed.

Lemma count_pairs_adjacent (seq : list symbol) :
  count_pairs seq = fold_left counter_incr (adjacent_pairs seq) [].
Proof.
  unfold count_pairs. rewrite <- pairs_by_index.
  now rewrite fold_left_map_list.
Qed.

Lemma count_occ_map_filter {A B} `{EqDec B} (g : A -> B) (l : list A) (p : B) :
  count_occ eq_dec (map g l) p
  = List.length (filter (fun i => if eq_dec (g i) p then true else false) l).
Proof.
  induction l as [ | x r IH]; simpl; [ reflexivity | ].
  destruct (eq_dec (g x) p); simpl; now rewrite IH.
Qed.

Lemma count_pairs_get (seq : list symbol) (p : symbol * symbol) :
  counter_get (count_pairs seq) p = count_occ eq_dec (adjacent_pairs seq) p.
Proof.
  rewrite count_pairs_adjacent, counter_get_fold. reflexivity.
Qed.

(** ** Rule symbols *)

Lemma string_of_nat_inj n m : string_of_nat n = string_of_nat m -> n = m.
Proof.
  unfold string_of_nat. intros Heq.
  apply Unsigned.to_uint_inj.
  pose proof (NilEmpty.usu (Nat.to_uint n)) as Hn.
  pose proof (NilEmpty.usu (Nat.to_uint m)) as Hm.
  rewrite Heq in Hn. congruence.
Qed.

Lemma new_sym_inj n m : new_sym n = new_sym m -> n = m.
Proof.
  unfold new_sym. simpl. intros [= Heq]. now apply string_of_nat_inj.
Qed.

(** ** The outer loop of the Grammar Compressor *)

Lemma rules_named_length st :
  rules_named st -> List.length (rs_rules st) = rs_next_idx st.
Proof.
  unfold rules_named, dict_keys. intros Hk.
  rewrite <- (length_map fst), Hk, length_map, length_seq. reflexivity.
Qed.

Lemma rules_named_fresh st :
  rules_named st -> dict_get (rs_rules st) (new_sym (rs_next_idx st)) = None.
Proof.
  intros Hk. apply dict_get_None_keys. rewrite Hk.
  intros Hin. apply in_map_iff in Hin. destruct Hin as (j & Ej & Hj).
  apply new_sym_inj in Ej. subst j. apply in_seq in Hj. lia.
Qed.

(** What a rule-creating turn does. *)
Lemma rules_iter_continue max minf st st' :
  rules_iter max minf st = Continue st' ->
  exists a b freq,
    most_common1 (count_pairs (rs_seq st)) = Some ((a, b), freq)
    /\ (minf <= Z.of_nat freq)%Z
    /\ (Z.of_nat (List.length (rs_rules st)) < max)%Z
    /\ st' = {| rs_seq :=
                  rewrite_pair (rs_seq st) a b (new_sym (rs_next_idx st));
                rs_rules :=
                  dict_set (rs_rules st) (new_sym (rs_next_idx st)) (a, b);
                rs_next_idx := S (rs_next_idx st) |}.
Proof.
  unfold rules_iter.
  destruct (most_common1 (count_pairs (rs_seq st))) as [[[a b] freq] | ];
    [ | discriminate ].
  destruct (Z.ltb_spec (Z.of_nat freq) minf) as [Hf | Hf]; [ discriminate | ].
  destruct (Z.leb_spec max (Z.of_nat (List.length (rs_rules st)))) as [Hm | Hm];
    [ discriminate | ].
  simpl. intros [= <-]. exists a, b, freq. auto.
Qed.

Lemma rules_iter_shorter max minf st st' :
  rules_iter max minf st = Continue st' ->
  List.length (rs_seq st') < List.length (rs_seq st).
Proof.
  intros Hit. apply rules_iter_continue in Hit.
  destruct Hit as (a & b & freq & Hmc & _ & _ & ->). simpl.
  rewrite count_pairs_adjacent in Hmc.
  apply most_common1_first_seen in Hmc. destruct Hmc as (Hf & Hpos & _).
  rewrite rewrite_pair_spec. apply rewrite_spec_shorter.
  apply (count_occ_In eq_dec). lia.
Qed.

Lemma rules_iter_named max minf st st' :
  rules_iter max minf st = Continue st' ->
  rules_named st -> rules_named st'.
Proof.
  intros Hit Hk. pose proof (rules_named_fresh _ Hk) as Hfresh.
  apply rules_iter_continue in Hit.
  destruct Hit as (a & b & freq & _ & _ & _ & ->).
  unfold rules_named in *. cbn [rs_rules rs_next_idx].
  rewrite dict_keys_set_new by assumption.
  rewrite Hk, seq_S, map_app. reflexivity.
Qed.

Lemma rules_loop_more_fuel max minf fuel : forall st r fuel',
  rules_loop fuel max minf st = Some r ->
  fuel <= fuel' ->
  rules_loop fuel' max minf st = Some r.
Proof.
  induction fuel as [ | f IH]; intros st r fuel' Hr Hle; [ discriminate | ].
  destruct fuel' as [ | f']; [ lia | ]. simpl in *.
  destruct (rules_iter max minf st) as [ | st']; [ assumption | ].
  apply IH; [ assumption | lia ].
Qed.

(** The loop reaches its [break] within [len(seq) + 1] turns, for every
    budget and every threshold. *)
Lemma rules_loop_terminates max minf fuel : forall st,
  List.length (rs_seq st) < fuel ->
  rules_named st ->
  (Z.of_nat (rs_next_idx st) <= Z.max 0 max)%Z ->
  exists r n,
    rules_loop fuel max minf st = Some r
    /\ rule_creating_turns fuel max minf st = Some n
    /\ rs_next_idx r = rs_next_idx st + n
    /\ rules_named r
    /\ (Z.of_nat (rs_next_idx r) <= Z.max 0 max)%Z
    /\ rules_iter max minf r = Break.
Proof.
  induction fuel as [ | f IH]; intros st Hlen Hk Hidx; [ lia | ].
  simpl. destruct (rules_iter max minf st) as [ | st'] eqn:Hit.
  - exists st, 0. rewrite Nat.add_0_r. repeat split; assumption.
  - pose proof (rules_iter_shorter _ _ _ _ Hit) as Hshort.
    pose proof (rules_iter_named _ _ _ _ Hit Hk) as Hk'.
    pose proof (rules_named_length _ Hk) as Hl.
    apply rules_iter_continue in Hit.
    destruct Hit as (a & b & freq & _ & _ & Hmax & Est').
    assert (Hidx' : (Z.of_nat (rs_next_idx st') <= Z.max 0 max)%Z).
    { subst st'. simpl. lia. }
    destruct (IH st') as (r & n & Hr & Hn & Hnext & Hnamed & Hb & Hbreak);
      [ lia | assumption | assumption | ].
    exists r, (S n). rewrite Hr, Hn. simpl.
    repeat split; try assumption.
    rewrite Hnext. subst st'. simpl. lia.
Qed.

(* ------------------------------------------------------------------ *)
(** ** Grammar Compressor: the claims                                  *)
(* ------------------------------------------------------------------ *)

(** C2.  In a turn of the Grammar Compressor on the state [st], the pair
    [(a, b)] that [most_common(1)] selects occurs at least as often as
    every other adjacent pair, and every other pair that occurs as often
    is first met later in the left-to-right scan; a rule-creating turn
    records exactly that pair.  Consequently equal input sequences with
    equal parameters give equal rule sets and equal final sequences. *)
Theorem tie_break_first_seen
    (st : rules_state) (a b : symbol) (freq : nat)
    (Hsel : most_common1 (count_pairs (rs_seq st)) = Some ((a, b), freq)) :
  let ps := adjacent_pairs (rs_seq st) in
  freq = count_occ eq_dec ps (a, b)
  /\ (forall q, count_occ eq_dec ps q <= freq)
  /\ (forall q, q <> (a, b) -> count_occ eq_dec ps q = freq ->
                seen_before ps (a, b) q)
  /\ (forall max_new_symbols min_pair_freq st',
        rules_iter max_new_symbols min_pair_freq st = Continue st' ->
        rs_rules st' = dict_set (rs_rules st) (new_sym (rs_next_idx st)) (a, b)
        /\ rs_seq st' = rewrite_pair (rs_seq st) a b (new_sym (rs_next_idx st)))
  /\ (forall sequence2 max_new_symbols min_pair_freq,
        sequence2 = rs_seq st ->
        build_hierarchical_rules sequence2 max_new_symbols min_pair_freq
        = build_hierarchical_rules (rs_seq st) max_new_symbols min_pair_freq).
Proof.
  intros ps.
  pose proof Hsel as Hmc. rewrite count_pairs_adjacent in Hmc.
  apply most_common1_first_seen in Hmc.
  destruct Hmc as (Hf & _ & Hmax & Htie).
  repeat split; try assumption.
  - apply rules_iter_continue in H.
    destruct H as (a' & b' & f' & Hsel' & _ & _ & ->).
    rewrite Hsel in Hsel'. injection Hsel' as <- <- <-. reflexivity.
  - apply rules_iter_continue in H.
    destruct H as (a' & b' & f' & Hsel' & _ & _ & ->).
    rewrite Hsel in Hsel'. injection Hsel' as <- <- <-. reflexivity.
  - intros sequence2 max_new_symbols min_pair_freq ->. reflexivity.
Qed.

Lemma tie_break_first_seen_witness :
  let st := initial_rules_state ["A"; "B"; "C"; "A"; "B"; "C"] in
  let ps := adjacent_pairs (rs_seq st) in
  2 = count_occ eq_dec ps ("A", "B")
  /\ (forall q, count_occ eq_dec ps q <= 2)
  /\ (forall q, q <> ("A", "B") -> count_occ eq_dec ps q = 2 ->
                seen_before ps ("A", "B") q)
  /\ (forall max_new_symbols min_pair_freq st',
        rules_iter max_new_symbols min_pair_freq st = Continue st' ->
        rs_rules st'
        = dict_set (rs_rules st) (new_sym (rs_next_idx st)) ("A", "B")
        /\ rs_seq st'
           = rewrite_pair (rs_seq st) "A" "B" (new_sym (rs_next_idx st)))
  /\ (forall sequence2 max_new_symbols min_pair_freq,
        sequence2 = rs_seq st ->
        build_hierarchical_rules sequence2 max_new_symbols min_pair_freq
        = build_hierarchical_rules (rs_seq st) max_new_symbols min_pair_freq).
Proof.
  exact (tie_break_first_seen
           (initial_rules_state ["A"; "B"; "C"; "A"; "B"; "C"])
           "A" "B" 2 eq_refl).
Defined.

(** C3.  In a turn of the Grammar Compressor on the state [st], pair
    counting counts every adjacent position [(i, i+1)] of the current
    sequence on its own, overlaps included: the count of a pair is the
    number of positions where it stands, and in [A, A, A] the pair
    [(A, A)] counts 2.  The rewrite is the non-overlapping left-to-right
    scan of the specification: an occurrence of the winning pair gives
    the new rule symbol and both positions are passed, every other
    symbol is copied; [A, A, A] becomes [R0, A].  A rule-creating turn
    counts in the first way and rewrites in the second. *)
Theorem counting_overlaps_rewrite_does_not (st : rules_state) :
  let seq := rs_seq st in
  (forall p, counter_get (count_pairs seq) p
             = List.length (positions_of_pair seq p))
  /\ (forall a b ns, rewrite_pair seq a b ns = rewrite_spec a b ns seq)
  /\ counter_get (count_pairs ["A"; "A"; "A"]) ("A", "A") = 2
  /\ rewrite_pair ["A"; "A"; "A"] "A" "A" "R0" = ["R0"; "A"]
  /\ (forall max_new_symbols min_pair_freq st',
        rules_iter max_new_symbols min_pair_freq st = Continue st' ->
        exists a b,
          (forall q, List.length (positions_of_pair seq q)
                     <= List.length (positions_of_pair seq (a, b)))
          /\ rs_rules st'
             = dict_set (rs_rules st) (new_sym (rs_next_idx st)) (a, b)
          /\ rs_seq st' = rewrite_spec a b (new_sym (rs_next_idx st)) seq).
Proof.
  intros seq.
  assert (Hcount : forall p, counter_get (count_pairs seq) p
                             = List.length (positions_of_pair seq p)).
  { intros p. rewrite count_pairs_get, <- pairs_by_index.
    unfold positions_of_pair. apply count_occ_map_filter. }
  split; [ exact Hcount | ].
  split; [ intros a b ns; apply rewrite_pair_spec | ].
  split; [ reflexivity | ]. split; [ reflexivity | ].
  intros max_new_symbols min_pair_freq st' Hit.
  apply rules_iter_continue in Hit.
  destruct Hit as (a & b & freq & Hsel & _ & _ & ->).
  cbn [rs_seq rs_rules rs_next_idx]. fold seq in Hsel |- *.
  exists a, b. split; [ | split; [ reflexivity | apply rewrite_pair_spec ] ].
  intros q. rewrite <- !Hcount, !count_pairs_get.
  rewrite count_pairs_adjacent in Hsel.
  apply most_common1_first_seen in Hsel.
  destruct Hsel as (Hf & _ & Hmax & _). rewrite <- Hf. apply Hmax.
Qed.

(** C4.  For every input sequence, every [min_pair_freq >= 1] and every
    [max_new_symbols >= 0], [build_hierarchical_rules] returns: its loop
    reaches a [break] within [len(sequence) + 1] turns (and more fuel
    changes nothing), and the number of rule-creating turns, which is
    the number of rules made, is at most [max_new_symbols]. *)
Theorem build_hierarchical_rules_terminates
    (sequence : list symbol) (max_new_symbols min_pair_freq : Z)
    (Hfreq : (1 <= min_pair_freq)%Z) (Hmax : (0 <= max_new_symbols)%Z) :
  exists st turns,
    build_hierarchical_rules sequence max_new_symbols min_pair_freq
    = Some (rs_seq st, rs_rules st)
    /\ (forall fuel, S (List.length sequence) <= fuel ->
          build_hierarchical_rules_fuel fuel sequence
            max_new_symbols min_pair_freq = Some st)
    /\ rule_creating_turns (S (List.length sequence))
         max_new_symbols min_pair_freq (initial_rules_state sequence)
       = Some turns
    /\ (Z.of_nat turns <= max_new_symbols)%Z
    /\ List.length (rs_rules st) = turns.
Proof.
  destruct (rules_loop_terminates max_new_symbols min_pair_freq
              (S (List.length sequence)) (initial_rules_state sequence))
    as (st & turns & Hloop & Hturns & Hidx & Hnamed & Hbound & _).
  - simpl. lia.
  - reflexivity.
  - simpl. lia.
  - exists st, turns. simpl in Hidx. subst turns.
    unfold build_hierarchical_rules, build_hierarchical_rules_fuel.
    rewrite Hloop. split; [ reflexivity | ].
    split; [ intros fuel Hfuel; eapply rules_loop_more_fuel; eassumption | ].
    split; [ assumption | ].
    split; [ lia | now apply rules_named_length ].
Qed.

Lemma build_hierarchical_rules_terminates_witness :
  exists st turns,
    build_hierarchical_rules ["a"; "b"; "a"; "b"] 10000 2
    = Some (rs_seq st, rs_rules st)
    /\ (forall fuel, S (List.length ["a"; "b"; "a"; "b"]) <= fuel ->
          build_hierarchical_rules_fuel fuel ["a"; "b"; "a"; "b"] 10000 2
          = Some st)
    /\ rule_creating_turns (S (List.length ["a"; "b"; "a"; "b"])) 10000 2
         (initial_rules_state ["a"; "b"; "a"; "b"])
       = Some turns
    /\ (Z.of_nat turns <= 10000)%Z
    /\ List.length (rs_rules st) = turns.
Proof.
  apply (build_hierarchical_rules_terminates ["a"; "b"; "a"; "b"] 10000 2);
    lia.
Defined.

(* ------------------------------------------------------------------ *)
(** ** Expander                                                        *)
(* ------------------------------------------------------------------ *)

Section ExpanderFacts.
Variable dictionary_ : dict symbol entry.
Variable rules_ : ruleset.
Variable context : string.

Local Abbreviation expand := (expand_symbol dictionary_ rules_ context).
Local Abbreviation emit := (write_loop dictionary_ rules_ context).

(** A result obtained within [d] frames is obtained within more. *)
Lemma expand_symbol_more_depth d : forall d' sym bs,
  expand d sym = Ok bs -> d <= d' -> expand d' sym = Ok bs.
Proof.
  induction d as [ | d IH]; intros d' sym bs Hok Hle; [ discriminate | ].
  destruct d' as [ | d']; [ lia | ]. simpl in *.
  destruct (dict_get dictionary_ sym) as [e | ]; [ assumption | ].
  destruct (dict_get rules_ sym) as [[a b] | ]; [ | assumption ].
  destruct (expand d a) as [x | ex] eqn:Ea; [ | discriminate ].
  destruct (expand d b) as [y | ey] eqn:Eb; [ | discriminate ].
  rewrite (IH d' a x Ea) by lia. rewrite (IH d' b y Eb) by lia.
  assumption.
Qed.

Lemma first_usable_found (pre : list jvalue) v post bs :
  Forall (fun w => is_ok (fromhex w) = false) pre ->
  fromhex v = Ok bs ->
  first_usable (pre ++ v :: post) = bs.
Proof.
  induction pre as [ | w r IH]; simpl; intros Hpre Hv.
  - now rewrite Hv.
  - inversion Hpre as [ | ? ? Hw Hr]; subst.
    destruct (fromhex w); [ discriminate | ]. now apply IH.
Qed.

Lemma first_usable_none (vs : list jvalue) :
  Forall (fun w => is_ok (fromhex w) = false) vs -> first_usable vs = [].
Proof.
  induction vs as [ | w r IH]; simpl; intros Hall; [ reflexivity | ].
  inversion Hall as [ | ? ? Hw Hr]; subst.
  destruct (fromhex w); [ discriminate | ]. now apply IH.
Qed.

(** The top-level loop either writes every expansion, or stops at the
    first symbol whose expansion raises, with the expansions of the
    symbols before it already in the file. *)
Lemma write_loop_outcome depth (seq : list symbol) : forall out,
  (exists vs,
      expands_to dictionary_ rules_ context depth seq vs
      /\ emit depth seq out = (Ok tt, out ++ List.concat vs))
  \/ (exists pre s post vs e,
         seq = pre ++ s :: post
         /\ expands_to dictionary_ rules_ context depth pre vs
         /\ expand depth s = Raise e
         /\ emit depth seq out = (Raise e, out ++ List.concat vs)).
Proof.
  induction seq as [ | s r IH]; intros out.
  - left. exists []. split; [ constructor | ]. simpl. now rewrite app_nil_r.
  - simpl. destruct (expand depth s) as [b | e] eqn:Es.
    + destruct (IH (out ++ b))
        as [(vs & Hvs & Hw)
           | (pre & s' & post & vs & e & -> & Hvs & Hs' & Hw)].
      * left. exists (b :: vs). split; [ now constructor | ].
        rewrite Hw. simpl. now rewrite app_assoc.
      * right. exists (s :: pre), s', post, (b :: vs), e.
        split; [ reflexivity | ]. split; [ now constructor | ].
        split; [ assumption | ]. rewrite Hw. simpl. now rewrite app_assoc.
    + right. exists [], s, r, [], e.
      split; [ reflexivity | ]. split; [ constructor | ].
      split; [ assumption | ]. simpl. now rewrite app_nil_r.
Qed.

Lemma write_loop_expands depth (seq : list symbol) vs : forall out,
  expands_to dictionary_ rules_ context depth seq vs ->
  emit depth seq out = (Ok tt, out ++ List.concat vs).
Proof.
  intros out Hvs. revert out.
  induction Hvs as [ | s v r vs Hs Hr IH]; intros out; simpl.
  - now rewrite app_nil_r.
  - rewrite Hs, IH, app_assoc. reflexivity.
Qed.




(** *** Cycles *)

Lemma expand_ok_operand depth s t bs :
  expand depth s = Ok bs ->
  rule_operand dictionary_ rules_ s t ->
  exists d bs', depth = S d /\ expand d t = Ok bs'.
Proof.
  intros Hok (Hd & a & b & Hr & Ht).
  destruct depth as [ | d]; [ discriminate | ].
  simpl in Hok. rewrite Hd, Hr in Hok.
  destruct (expand d a) as [x | ex] eqn:Ea; [ | discriminate ].
  destruct (expand d b) as [y | ey] eqn:Eb; [ | discriminate ].
  exists d. destruct Ht as [-> | ->]; eauto.
Qed.

Lemma expand_ok_reachable s t :
  clos_trans symbol (rule_operand dictionary_ rules_) s t ->
  forall depth bs, expand depth s = Ok bs ->
  exists d bs', d < depth /\ expand d t = Ok bs'.
Proof.
  induction 1 as [s t Hst | s u t Hsu IHsu Hut IHut]; intros depth bs Hok.
  - destruct (expand_ok_operand _ _ _ _ Hok Hst) as (d & bs' & -> & Ht).
    exists d, bs'. split; [ lia | assumption ].
  - destruct (IHsu _ _ Hok) as (d1 & bs1 & Hlt1 & Hu).
    destruct (IHut _ _ Hu) as (d2 & bs2 & Hlt2 & Ht).
    exists d2, bs2. split; [ lia | assumption ].
Qed.

(** A symbol on a cycle yields bytes at no recursion depth. *)
Lemma expand_cycle_never_ok depth : forall s bs,
  on_cycle dictionary_ rules_ s -> expand depth s <> Ok bs.
Proof.
  induction depth as [depth IH] using lt_wf_ind.
  intros s bs Hcyc Hok.
  destruct (expand_ok_reachable _ _ Hcyc _ _ Hok) as (d & bs' & Hlt & Hd).
  exact (IH d Hlt s bs' Hcyc Hd).
Qed.

Lemma fromhex_first_usable_all_hex (e : entry) (k : string) v :
  Forall (fun kv => is_ok (fromhex (snd kv)) = true) e ->
  dict_get e k = Some v -> exists bs, fromhex v = Ok bs.
Proof.
  intros Hall Hg. apply dict_get_In in Hg.
  rewrite Forall_forall in Hall. specialize (Hall _ Hg). simpl in Hall.
  destruct (fromhex v) as [bs | ]; [ eauto | discriminate ].
Qed.

(** With well-formed hexadecimal text throughout the dictionary the
    only exception of the expander is the recursion limit. *)
Lemma expand_all_hex_raise depth : forall sym e,
  all_hex dictionary_ ->
  expand depth sym = Raise e -> e = RecursionError.
Proof.
  induction depth as [ | d IH]; intros sym e Hall; simpl.
  - now intros [= <-].
  - destruct (dict_get dictionary_ sym) as [en | ] eqn:Hd.
    + apply dict_get_In in Hd. specialize (Hall _ _ Hd).
      destruct (dict_get en context) as [v | ] eqn:Hc.
      * destruct (fromhex_first_usable_all_hex _ _ _ Hall Hc) as (bs & ->).
        discriminate.
      * destruct (dict_get en "DEFAULT") as [v | ] eqn:Hdef; [ | discriminate ].
        destruct (fromhex_first_usable_all_hex _ _ _ Hall Hdef) as (bs & ->).
        discriminate.
    + destruct (dict_get rules_ sym) as [[a b] | ]; [ | discriminate ].
      destruct (expand d a) as [x | ex] eqn:Ea; simpl.
      * destruct (expand d b) as [y | ey] eqn:Eb; simpl; [ discriminate | ].
        intros [= <-]. eapply IH; eassumption.
      * intros [= <-]. eapply IH; eassumption.
Qed.
End ExpanderFacts.

(* ------------------------------------------------------------------ *)
(** ** Expander: the claims                                            *)
(* ------------------------------------------------------------------ *)

(** C6.  For a terminal, a symbol with the dictionary entry [e], and
    every active context, expansion resolves in this order: the value
    under the active context when that name is a key of [e]; otherwise
    the value under ["DEFAULT"] when present (either is decoded by
    [bytes.fromhex], whose outcome is the outcome of the expansion);
    otherwise the first value in the stored order of [e] that
    [bytes.fromhex] accepts; otherwise the empty byte string.  An entry
    with a ["DEFAULT"] key only gives, under ["VIDEO"], the ["DEFAULT"]
    bytes; an entry with no context gives no bytes. *)
Theorem context_fallback_order
    (tpl : template) (context : string) (d : nat) (sym : symbol) (e : entry)
    (Hentry : dict_get (dictionary tpl) sym = Some e) :
  let r := expand_symbol (dictionary tpl) (rules tpl) context (S d) sym in
  (forall v, dict_get e context = Some v -> r = fromhex v)
  /\ (forall v, dict_get e context = None ->
                dict_get e "DEFAULT" = Some v -> r = fromhex v)
  /\ (dict_get e context = None -> dict_get e "DEFAULT" = None ->
      (forall pre k v post bs,
          e = pre ++ (k, v) :: post ->
          Forall (fun kv => is_ok (fromhex (snd kv)) = false) pre ->
          fromhex v = Ok bs ->
          r = Ok bs)
      /\ (Forall (fun kv => is_ok (fromhex (snd kv)) = false) e -> r = Ok []))
  /\ expand_symbol (dictionary fallback_template) (rules fallback_template)
       "VIDEO" (S d) "T" = Ok [x41; x42]
  /\ expand_symbol (dictionary fallback_template) (rules fallback_template)
       context (S d) "E" = Ok [].
Proof.
  intros r. subst r. cbn [expand_symbol]. rewrite Hentry.
  split; [ intros v ->; reflexivity | ].
  split; [ intros v -> ->; reflexivity | ].
  split; [ | split; reflexivity ].
  intros -> ->. split.
  - intros pre k v post bs -> Hpre Hv. f_equal.
    unfold dict_values. rewrite map_app. cbn [map snd].
    apply first_usable_found; [ | assumption ].
    apply Forall_map. exact Hpre.
  - intros Hall. f_equal. apply first_usable_none.
    unfold dict_values. apply Forall_map. exact Hall.
Qed.

Lemma context_fallback_order_witness :
  let r := expand_symbol (dictionary fallback_template)
             (rules fallback_template) "VIDEO" 1 "T" in
  let e := [("DEFAULT", JStr "4142")] in
  (forall v, dict_get e "VIDEO" = Some v -> r = fromhex v)
  /\ (forall v, dict_get e "VIDEO" = None ->
                dict_get e "DEFAULT" = Some v -> r = fromhex v)
  /\ (dict_get e "VIDEO" = None -> dict_get e "DEFAULT" = None ->
      (forall pre k v post bs,
          e = pre ++ (k, v) :: post ->
          Forall (fun kv => is_ok (fromhex (snd kv)) = false) pre ->
          fromhex v = Ok bs ->
          r = Ok bs)
      /\ (Forall (fun kv => is_ok (fromhex (snd kv)) = false) e -> r = Ok []))
  /\ expand_symbol (dictionary fallback_template) (rules fallback_template)
       "VIDEO" 1 "T" = Ok [x41; x42]
  /\ expand_symbol (dictionary fallback_template) (rules fallback_template)
       "VIDEO" 1 "E" = Ok [].
Proof.
  exact (context_fallback_order fallback_template "VIDEO" 0 "T"
           [("DEFAULT", JStr "4142")] eq_refl).
Defined.



(** C8, as the code has it.  [expand_symbol] has no cycle check.  For a
    rule set with a cycle, none of whose symbols is a dictionary key,
    expanding a symbol on the cycle yields bytes at no recursion depth:
    it ends in an exception at every depth, and when the dictionary
    holds well-formed hexadecimal text only, that exception is the
    interpreter's [RecursionError]. *)
Theorem cycle_exhausts_recursion
    (tpl : template) (context : string) (sym : symbol)
    (Hcycle : on_cycle (dictionary tpl) (rules tpl) sym) :
  forall depth,
    (exists e,
        expand_symbol (dictionary tpl) (rules tpl) context depth sym = Raise e)
    /\ (all_hex (dictionary tpl) ->
        expand_symbol (dictionary tpl) (rules tpl) context depth sym
        = Raise RecursionError).
Proof.
  intros depth.
  destruct (expand_symbol (dictionary tpl) (rules tpl) context depth sym)
    as [bs | e] eqn:Hexp.
  - exfalso. eapply expand_cycle_never_ok; eassumption.
  - split; [ now exists e | ].
    intros Hall. f_equal. eapply expand_all_hex_raise; eassumption.
Qed.

Lemma cyclic_template_on_cycle :
  on_cycle (dictionary cyclic_template) (rules cyclic_template) "R0".
Proof.
  apply t_step. split; [ reflexivity | ].
  exists "R0", "R0". split; [ reflexivity | now left ].
Qed.

Lemma cycle_exhausts_recursion_witness :
  expand_symbol (dictionary cyclic_template) (rules cyclic_template)
    "DEFAULT" 1000 "R0" = Raise RecursionError.
Proof.
  destruct (cycle_exhausts_recursion cyclic_template "DEFAULT" "R0"
              cyclic_template_on_cycle 1000) as [_ Hrec].
  apply Hrec. intros s e [].
Defined.

(** C8, as the specification words it, fails: it would give every symbol
    on a cycle a recursion depth at which expansion ends in a condition
    of its own, other than the exhaustion of the stack. *)
Lemma cycle_detection_counterexample :
  ~ (forall (tpl : template) (context : string) (sym : symbol),
        on_cycle (dictionary tpl) (rules tpl) sym ->
        exists depth e,
          expand_symbol (dictionary tpl) (rules tpl) context depth sym
          = Raise e
          /\ e <> RecursionError).
Proof.
  intros Hclaim.
  destruct (Hclaim cyclic_template "DEFAULT" "R0" cyclic_template_on_cycle)
    as (depth & e & Hexp & Hne).
  apply Hne.
  apply (expand_all_hex_raise (dictionary cyclic_template)
           (rules cyclic_template) "DEFAULT" depth "R0" e);
    [ intros s en [] | exact Hexp ].
Qed.



(** C10.  The bytes that [decode_template] writes depend on the
    dictionary, the rules, the sequence and the context only: templates
    that agree on those three fields and differ in [meta] in any way
    give the same outcome and the same output file.  The declared chunk
    size and chunk count are not looked at. *)
Theorem decode_ignores_meta
    (tpl1 tpl2 : template) (context : string) (depth : nat)
    (out_before : file)
    (Hdict : dictionary tpl1 = dictionary tpl2)
    (Hrules : rules tpl1 = rules tpl2)
    (Hseq : sequence tpl1 = sequence tpl2) :
  decode_template tpl1 context depth out_before
  = decode_template tpl2 context depth out_before.
Proof.
  unfold decode_template. rewrite Hdict, Hrules, Hseq. reflexivity.
Qed.

Lemma decode_ignores_meta_witness :
  decode_template fallback_template "VIDEO" 5 None
  = decode_template
      {| tpl_meta := {| chunk_size := -7; orig_file := "other";
                        total_chunks := 99 |};
         dictionary := dictionary fallback_template;
         rules := rules fallback_template;
         sequence := sequence fallback_template |}
      "VIDEO" 5 None.
Proof.
  apply (decode_ignores_meta fallback_template
           {| tpl_meta := {| chunk_size := -7; orig_file := "other";
                             total_chunks := 99 |};
              dictionary := dictionary fallback_template;
              rules := rules fallback_template;
              sequence := sequence fallback_template |}
           "VIDEO" 5 None); reflexivity.
Defined.

(* ------------------------------------------------------------------ *)
(** ** Symbols on the wire                                             *)
(* ------------------------------------------------------------------ *)

Lemma all_chars_has_char p c s :
  all_chars p s = true -> p c = false -> has_char c s = false.
Proof.
  intros Hall Hc. induction s as [ | x r IH]; simpl in *; [ reflexivity | ].
  apply andb_prop in Hall. destruct Hall as [Hx Hr].
  rewrite (IH Hr), orb_false_r.
  destruct (Ascii.eqb_spec x c) as [-> | Hne]; congruence.
Qed.

Lemma is_hex12_comma_free h :
  is_hex12 h = true -> has_char "," h = false.
Proof.
  unfold is_hex12. intros Hh. apply andb_prop in Hh. destruct Hh as [_ Hall].
  eapply all_chars_has_char; [ exact Hall | reflexivity ].
Qed.

Lemma string_of_uint_no_comma d :
  has_char "," (NilEmpty.string_of_uint d) = false.
Proof. induction d; simpl; assumption || reflexivity. Qed.

Lemma new_sym_comma_free j : comma_free (new_sym j).
Proof.
  split; [ discriminate | ].
  unfold new_sym, string_of_nat. simpl. apply string_of_uint_no_comma.
Qed.

Lemma local_sym_comma_free h :
  is_hex12 h = true -> comma_free ("L" ++ h)%string.
Proof.
  intros Hh. split; [ discriminate | ].
  simpl. now apply is_hex12_comma_free.
Qed.

Lemma local_sym_fresh h k : fresh_sym k ("L" ++ h)%string.
Proof. intros j _. discriminate. Qed.

Lemma new_sym_fresh k : fresh_sym (S k) (new_sym k).
Proof. intros j Hj Heq. apply new_sym_inj in Heq. lia. Qed.

Lemma fresh_sym_S k s : fresh_sym k s -> fresh_sym (S k) s.
Proof. intros Hf j Hj. apply Hf. lia. Qed.

Lemma hex_all_lower (bs : bytes) : all_chars is_lower_hex (hex bs) = true.
Proof.
  induction bs as [ | b r IH]; [ reflexivity | ].
  cbn [hex]. unfold hex_of_byte.
  cbn [append all_chars]. rewrite IH.
  destruct b; reflexivity.
Qed.

Lemma hex_length (bs : bytes) : String.length (hex bs) = 2 * List.length bs.
Proof.
  induction bs as [ | b r IH]; [ reflexivity | ].
  cbn [hex]. unfold hex_of_byte. cbn [append String.length List.length].
  rewrite IH. lia.
Qed.

Lemma toy_hash_hex12 b : is_hex12 (toy_hash b) = true.
Proof.
  unfold is_hex12, toy_hash. rewrite hex_all_lower, hex_length.
  rewrite firstn_length_le; [ reflexivity | ].
  rewrite length_app, repeat_length. lia.
Qed.

(* ------------------------------------------------------------------ *)
(** ** Chunker                                                         *)
(* ------------------------------------------------------------------ *)

Lemma stream_chunks_fuel_concat size (Hsize : 0 < size) fuel :
  forall data, List.length data < fuel ->
  List.concat (stream_chunks_fuel fuel data size) = data.
Proof.
  induction fuel as [ | f IH]; intros data Hlen; [ lia | ].
  simpl. destruct data as [ | x r]; [ now rewrite firstn_nil | ].
  destruct size as [ | n]; [ lia | ].
  cbn [firstn]. cbn [List.concat].
  rewrite IH.
  - change (x :: firstn n r) with (firstn (S n) (x :: r)).
    apply firstn_skipn.
  - simpl in Hlen. cbn [skipn]. rewrite length_skipn. lia.
Qed.

(** Reading in chunks of a positive size loses nothing. *)
Lemma stream_chunks_concat data size :
  0 < size -> List.concat (stream_chunks data size) = data.
Proof.
  intros Hsize. apply stream_chunks_fuel_concat; [ assumption | lia ].
Qed.

(* ------------------------------------------------------------------ *)
(** ** Dictionary Manager                                              *)
(* ------------------------------------------------------------------ *)

Lemma dict_set_keys_NoDup {K V} `{EqDec K} (d : dict K V) k v :
  NoDup (dict_keys d) -> NoDup (dict_keys (dict_set d k v)).
Proof.
  intros Hnd. destruct (dict_get d k) as [v0 | ] eqn:Hg.
  - now rewrite (dict_keys_set_old _ _ v _ Hg).
  - rewrite dict_keys_set_new by assumption.
    apply NoDup_app; [ assumption | repeat constructor; simpl; tauto | ].
    intros a Ha [<- | []]. now apply dict_get_None_keys in Hg.
Qed.

Lemma startswith_S_drop1 sym :
  startswith_S sym = true -> sym = ("S" ++ drop1 sym)%string.
Proof.
  destruct sym as [ | c r]; simpl; [ discriminate | ].
  destruct (Ascii.eqb_spec c "S"%char) as [-> | ];
    [ reflexivity | discriminate ].
Qed.

(** [hash_to_sym] maps [h] to ["S" + h] exactly when that symbol is a
    key of the global dictionary. *)
Lemma build_hash_to_sym_spec (gd : dict symbol entry) (h : string) :
  (forall s, dict_get (build_hash_to_sym gd) h = Some s ->
             s = ("S" ++ h)%string /\ In s (dict_keys gd))
  /\ (In ("S" ++ h)%string (dict_keys gd) ->
      dict_get (build_hash_to_sym gd) h = Some ("S" ++ h)%string).
Proof.
  unfold build_hash_to_sym. generalize (dict_keys gd) as keys. intros keys.
  induction keys as [ | k keys IH] using rev_ind; simpl.
  - split; [ discriminate | contradiction ].
  - rewrite fold_left_app. cbn [fold_left].
    set (m := fold_left
                (fun m sym =>
                   if startswith_S sym then dict_set m (drop1 sym) sym else m)
                keys []) in *.
    destruct IH as [IH1 IH2].
    destruct (startswith_S k) eqn:Hk.
    + pose proof (startswith_S_drop1 _ Hk) as Ek.
      destruct (string_dec (drop1 k) h) as [Eh | Eh].
      * subst h. rewrite dict_get_set_same. split.
        -- intros s [= <-]. split; [ assumption | ].
           apply in_app_iff. right. now left.
        -- intros _. f_equal. exact Ek.
      * rewrite dict_get_set_other by assumption. split.
        -- intros s Hs. destruct (IH1 s Hs) as [-> Hin].
           split; [ reflexivity | apply in_app_iff; now left ].
        -- intros Hin. apply in_app_iff in Hin.
           destruct Hin as [Hin | [Hin | []]]; [ now apply IH2 | ].
           exfalso. apply Eh. rewrite Hin. reflexivity.
    + split.
      * intros s Hs. destruct (IH1 s Hs) as [-> Hin].
        split; [ reflexivity | apply in_app_iff; now left ].
      * intros Hin. apply in_app_iff in Hin.
        destruct Hin as [Hin | [Hin | []]]; [ now apply IH2 | ].
        subst k. simpl in Hk. discriminate.
Qed.

Lemma symbol_of_inj (gd : dict symbol entry) h1 h2 :
  symbol_of (build_hash_to_sym gd) h1 = symbol_of (build_hash_to_sym gd) h2 ->
  h1 = h2.
Proof.
  unfold symbol_of.
  destruct (build_hash_to_sym_spec gd h1) as [H1 _].
  destruct (build_hash_to_sym_spec gd h2) as [H2 _].
  destruct (dict_get (build_hash_to_sym gd) h1) as [s1 | ];
    destruct (dict_get (build_hash_to_sym gd) h2) as [s2 | ].
  - destruct (H1 _ eq_refl) as [-> _]. destruct (H2 _ eq_refl) as [-> _].
    now intros [= ->].
  - destruct (H1 _ eq_refl) as [-> _]. discriminate.
  - destruct (H2 _ eq_refl) as [-> _]. discriminate.
  - now intros [= ->].
Qed.

Section DictionaryManager.
Variable short_hash : bytes -> string.
Variable hash_to_sym : dict string symbol.

(** The first pass: one symbol per chunk, in stream order, and a local
    symbol for exactly the fingerprints that are not global. *)
Lemma pass1_spec (chunks : list bytes) :
  let st := pass1 short_hash hash_to_sym chunks in
  p1_sequence st
  = map (fun c => symbol_of hash_to_sym (short_hash c)) chunks
  /\ p1_total st = List.length chunks
  /\ NoDup (dict_keys (p1_local st))
  /\ (forall h s, dict_get (p1_local st) h = Some s ->
        s = ("L" ++ h)%string
        /\ dict_get hash_to_sym h = None
        /\ In h (map short_hash chunks))
  /\ (forall c, In c chunks ->
        dict_get hash_to_sym (short_hash c) = None ->
        dict_get (p1_local st) (short_hash c)
        = Some ("L" ++ short_hash c)%string).
Proof.
  induction chunks as [ | c cs IH] using rev_ind.
  - simpl. split; [ reflexivity | ]. split; [ reflexivity | ].
    split; [ constructor | ]. split; [ discriminate | contradiction ].
  - unfold pass1 in *. rewrite fold_left_app. cbn [fold_left].
    set (st := fold_left (pass1_step short_hash hash_to_sym) cs
                 {| p1_sequence := []; p1_local := []; p1_total := 0 |}) in *.
    cbn zeta in IH. destruct IH as (Hseq & Htot & Hnd & Hloc & Hall).
    assert (Hmono : forall h, In h (map short_hash cs) ->
                    In h (map short_hash (cs ++ [c]))).
    { intros h Hin. rewrite map_app. apply in_app_iff. now left. }
    assert (Hlast : In (short_hash c) (map short_hash (cs ++ [c]))).
    { rewrite map_app. apply in_app_iff. right. now left. }
    rewrite map_app, length_app. cbn [map List.length].
    unfold pass1_step, symbol_of at 2.
    destruct (dict_get hash_to_sym (short_hash c)) as [g | ] eqn:Hg.
    + cbn [p1_sequence p1_local p1_total].
      split; [ now rewrite Hseq | ]. split; [ lia | ].
      split; [ assumption | ]. split.
      * intros h s Hs. destruct (Hloc h s Hs) as (-> & Hn & Hin). auto.
      * intros c' Hin Hn. apply in_app_iff in Hin.
        destruct Hin as [Hin | [<- | []]]; [ now apply Hall | congruence ].
    + destruct (dict_get (p1_local st) (short_hash c)) as [s | ] eqn:Hl.
      * cbn [p1_sequence p1_local p1_total].
        destruct (Hloc _ _ Hl) as (-> & _ & _).
        split; [ now rewrite Hseq | ]. split; [ lia | ].
        split; [ assumption | ]. split.
        -- intros h s Hs. destruct (Hloc h s Hs) as (-> & Hn & Hin). auto.
        -- intros c' Hin Hn. apply in_app_iff in Hin.
           destruct Hin as [Hin | [<- | []]]; [ now apply Hall | assumption ].
      * cbn [p1_sequence p1_local p1_total].
        split; [ now rewrite Hseq | ]. split; [ lia | ].
        split; [ now apply dict_set_keys_NoDup | ]. split.
        -- intros h s.
           destruct (string_dec (short_hash c) h) as [<- | Hne].
           ++ rewrite dict_get_set_same. intros [= <-]. auto.
           ++ rewrite dict_get_set_other by assumption.
              intros Hs. destruct (Hloc h s Hs) as (-> & Hn & Hin). auto.
        -- intros c' Hin Hn.
           destruct (string_dec (short_hash c) (short_hash c')) as [<- | Hne].
           ++ now rewrite dict_get_set_same.
           ++ rewrite dict_get_set_other by assumption.
              apply in_app_iff in Hin.
              destruct Hin as [Hin | [<- | []]];
                [ now apply Hall | congruence ].
Qed.
End DictionaryManager.

Lemma count_occ_map_inj {A B} `{EqDec A} `{EqDec B} (f : A -> B)
    (l : list A) (x : A) :
  (forall y, In y l -> f y = f x -> y = x) ->
  count_occ eq_dec (map f l) (f x) = count_occ eq_dec l x.
Proof.
  induction l as [ | y r IH]; intros Hinj; [ reflexivity | ].
  cbn [map count_occ].
  rewrite IH by (intros z Hz; apply Hinj; now right).
  destruct (eq_dec (f y) (f x)) as [E | E]; destruct (eq_dec y x) as [E' | E'];
    try reflexivity.
  - exfalso. apply E'. apply Hinj; [ now left | assumption ].
  - exfalso. apply E. now rewrite E'.
Qed.

(** C5.  In one encode run, let [chunk] be a chunk whose fingerprint no
    different chunk of the input shares (collisions are assumed not to
    occur).  Exactly one symbol [sym] goes with that fingerprint: a
    chunk of the input is emitted as [sym] exactly when it has that
    fingerprint, and [sym] stands in the initial sequence as many times
    as [chunk] stands in the input.  When ["S" + h] is a key of the
    loaded global dictionary, [sym] is that global symbol and the local
    table has no entry for [h]; otherwise [sym] is the single local
    symbol ["L" + h], which the local table holds as soon as the chunk
    occurs. *)
Theorem dedup_one_symbol_per_fingerprint
    (short_hash : bytes -> string) (data : bytes) (size : nat)
    (dict_file : option global_entries) (chunk : bytes)
    (Hno_collision :
       forall c', In c' (stream_chunks data size) ->
                  short_hash c' = short_hash chunk -> c' = chunk) :
  let global_dict := load_global_dict dict_file in
  let hash_to_sym := build_hash_to_sym global_dict in
  let chunks := stream_chunks data size in
  let st := pass1 short_hash hash_to_sym chunks in
  let h := short_hash chunk in
  let sym := symbol_of hash_to_sym h in
  (forall i c', nth_error chunks i = Some c' ->
      (nth_error (p1_sequence st) i = Some sym <-> short_hash c' = h))
  /\ count_occ eq_dec (p1_sequence st) sym = count_occ eq_dec chunks chunk
  /\ (In ("S" ++ h)%string (dict_keys global_dict) ->
      sym = ("S" ++ h)%string /\ dict_get (p1_local st) h = None)
  /\ (~ In ("S" ++ h)%string (dict_keys global_dict) ->
      sym = ("L" ++ h)%string
      /\ (In chunk chunks -> dict_get (p1_local st) h = Some sym)
      /\ (forall s, dict_get (p1_local st) h = Some s -> s = sym)).
Proof.
  intros global_dict hash_to_sym chunks st h sym.
  destruct (pass1_spec short_hash hash_to_sym chunks)
    as (Hseq & _ & _ & Hloc & Hall).
  fold st in Hseq, Hloc, Hall.
  destruct (build_hash_to_sym_spec global_dict h) as [Hg1 Hg2].
  fold hash_to_sym in Hg1, Hg2.
  split; [ | split; [ | split ] ].
  - intros i c' Hi. rewrite Hseq, nth_error_map, Hi. cbn [option_map].
    split.
    + intros [= Heq]. now apply symbol_of_inj in Heq.
    + intros ->. reflexivity.
  - rewrite Hseq.
    apply (count_occ_map_inj (fun c => symbol_of hash_to_sym (short_hash c))).
    intros c' Hin Heq. apply symbol_of_inj in Heq. now apply Hno_collision.
  - intros Hin. specialize (Hg2 Hin). unfold sym, symbol_of. rewrite Hg2.
    split; [ reflexivity | ].
    destruct (dict_get (p1_local st) h) as [s | ] eqn:Hl; [ | reflexivity ].
    destruct (Hloc _ _ Hl) as (_ & Hn & _). congruence.
  - intros Hnin.
    assert (Hn : dict_get hash_to_sym h = None).
    { destruct (dict_get hash_to_sym h) as [s | ] eqn:Hs; [ | reflexivity ].
      destruct (Hg1 _ eq_refl) as [-> Hin]. contradiction. }
    assert (Hsym : sym = ("L" ++ h)%string).
    { unfold sym, symbol_of. now rewrite Hn. }
    split; [ exact Hsym | ]. split.
    + intros Hin. rewrite Hsym. now apply Hall.
    + intros s Hs. destruct (Hloc _ _ Hs) as (-> & _ & _). now rewrite Hsym.
Qed.

Lemma dedup_one_symbol_per_fingerprint_witness :
  let chunk := [x41; x41; x41; x41] in
  let chunks := stream_chunks sample_input 4 in
  let st := pass1 toy_hash (build_hash_to_sym (load_global_dict None)) chunks in
  let sym := symbol_of (build_hash_to_sym (load_global_dict None))
               (toy_hash chunk) in
  count_occ eq_dec (p1_sequence st) sym = 2
  /\ sym = "L414141410000"
  /\ dict_get (p1_local st) (toy_hash chunk) = Some sym.
Proof.
  intros chunk chunks st sym.
  destruct (dedup_one_symbol_per_fingerprint toy_hash sample_input 4 None chunk)
    as (_ & Hcount & _ & Hlocal).
  - intros c' Hin Hh. vm_compute in Hin.
    destruct Hin as [<- | [<- | [<- | [<- | []]]]];
      try reflexivity; vm_compute in Hh; discriminate.
  - split; [ exact Hcount | ].
    destruct Hlocal as (Hsym & Hget & _); [ vm_compute; tauto | ].
    split; [ exact Hsym | ].
    apply Hget. vm_compute. tauto.
Defined.

(* ------------------------------------------------------------------ *)
(** ** Payload capture (second pass)                                   *)
(* ------------------------------------------------------------------ *)

Lemma dict_get_NoDup_In_any {K V} `{EqDec K} (d : dict K V) k v :
  NoDup (dict_keys d) -> In (k, v) d -> dict_get d k = Some v.
Proof.
  induction d as [ | [k0 v0] r IH]; simpl; [ contradiction | ].
  intros Hnd Hin. inversion Hnd as [ | ? ? Hk0 Hr]; subst.
  destruct (eq_dec k0 k) as [E | E].
  - subst k0. destruct Hin as [Hin | Hin]; [ congruence | ].
    exfalso. apply Hk0. unfold dict_keys.
    apply in_map_iff. now exists (k, v).
  - destruct Hin as [Hin | Hin]; [ congruence | ]. now apply IH.
Qed.

Lemma NoDup_map_injective {A B} (f : A -> B) (l : list A) :
  (forall x y, f x = f y -> x = y) -> NoDup l -> NoDup (map f l).
Proof.
  intros Hinj Hnd. induction Hnd as [ | x r Hx Hr IH]; simpl; constructor.
  - intros Hin. apply in_map_iff in Hin. destruct Hin as (y & Ey & Hy).
    apply Hinj in Ey. now subst y.
  - exact IH.
Qed.

Lemma set_context_get_same td sym ctx v :
  exists e, dict_get (set_context td sym ctx v) sym = Some e
            /\ dict_get e ctx = Some v
            /\ forall ctx', ctx' <> ctx ->
                 dict_get e ctx'
                 = match dict_get td sym with
                   | Some e0 => dict_get e0 ctx'
                   | None => None
                   end.
Proof.
  unfold set_context. rewrite dict_get_set_same. eexists.
  split; [ reflexivity | ].
  split; [ apply dict_get_set_same | ].
  intros ctx' Hne. rewrite dict_get_set_other by congruence.
  destruct (dict_get td sym); reflexivity.
Qed.

Lemma set_context_get_other td sym ctx v sym' :
  sym' <> sym -> dict_get (set_context td sym ctx v) sym' = dict_get td sym'.
Proof.
  intros Hne. unfold set_context. apply dict_get_set_other. congruence.
Qed.

(** [for ctx in contexts: template_dict[sym][ctx] = v] *)
Lemma set_context_fold sym v (ctxs : list string) : forall td,
  let td' := fold_left (fun td ctx => set_context td sym ctx v) ctxs td in
  (forall sym', sym' <> sym -> dict_get td' sym' = dict_get td sym')
  /\ (forall ctx,
        In ctx ctxs
        \/ (exists e, dict_get td sym = Some e /\ dict_get e ctx = Some v) ->
        exists e, dict_get td' sym = Some e /\ dict_get e ctx = Some v).
Proof.
  induction ctxs as [ | c r IH]; intros td; cbn zeta; cbn [fold_left].
  - split; [ reflexivity | ]. intros ctx [[] | Hex]. exact Hex.
  - destruct (IH (set_context td sym c v)) as [IHa IHb]. split.
    + intros sym' Hne. rewrite IHa by assumption.
      now apply set_context_get_other.
    + intros ctx Hctx. apply IHb.
      destruct (set_context_get_same td sym c v) as (e & He & Hc & Hother).
      destruct (string_dec ctx c) as [-> | Hne].
      * right. now exists e.
      * destruct Hctx as [[Hc' | Hin] | (e0 & He0 & Hv)].
        -- congruence.
        -- now left.
        -- right. exists e. split; [ assumption | ].
           rewrite Hother by assumption. now rewrite He0.
Qed.

Section Capture.
Variable short_hash : bytes -> string.
Variable contexts : list string.
Variable local : dict string symbol.
Variable chunks : list bytes.

Hypothesis local_named :
  forall h s, dict_get local h = Some s -> s = ("L" ++ h)%string.
Hypothesis local_nodup : NoDup (dict_keys local).

Lemma local_values_distinct :
  List.length (nodup string_dec (dict_values local)) = List.length local.
Proof.
  assert (Hvals : dict_values local
                  = map (fun h => ("L" ++ h)%string) (dict_keys local)).
  { unfold dict_values, dict_keys. rewrite map_map.
    apply map_ext_in. intros [h s] Hin. simpl.
    apply local_named. now apply dict_get_NoDup_In_any. }
  rewrite nodup_fixed_point.
  - unfold dict_values. apply length_map.
  - rewrite Hvals. apply NoDup_map_injective; [ | exact local_nodup ].
    intros x y [= ->]. reflexivity.
Qed.

(** What holds between two turns of the second pass: [seen] has no
    repetition, every fingerprint in it is local and captured, and every
    local fingerprint of a chunk read so far is in it. *)
Lemma pass2_captures (rest : list bytes) : forall done td seen,
  chunks = done ++ rest ->
  NoDup seen ->
  (forall h, In h seen ->
     In h (dict_keys local) /\ captured short_hash contexts chunks td h) ->
  (forall c, In c done -> In (short_hash c) (dict_keys local) ->
     In (short_hash c) seen) ->
  forall c, In c chunks -> In (short_hash c) (dict_keys local) ->
    captured short_hash contexts chunks
      (pass2 short_hash contexts local rest td seen) (short_hash c).
Proof.
  induction rest as [ | chunk rest IH];
    intros done td seen Hchunks Hnd Hseen Hdone c Hc Hkey.
  - rewrite app_nil_r in Hchunks. subst done. simpl.
    apply Hseen. now apply Hdone.
  - cbn [pass2]. set (h := short_hash chunk).
    match goal with
    | |- captured _ _ _ (let '(_, _) := ?step in _) _ =>
        assert (Hstep :
          exists td' seen',
            step = (td', seen')
            /\ NoDup seen'
            /\ (forall h', In h' seen' ->
                  In h' (dict_keys local)
                  /\ captured short_hash contexts chunks td' h')
            /\ (forall c', In c' (done ++ [chunk]) ->
                  In (short_hash c') (dict_keys local) ->
                  In (short_hash c') seen'))
    end.
    { destruct (dict_get local h) as [sym | ] eqn:Hl.
      - destruct (set_mem string_dec h seen) eqn:Hm.
        + exists td, seen. split; [ reflexivity | ].
          split; [ assumption | ]. split; [ assumption | ].
          intros c' Hin Hk. apply in_app_iff in Hin.
          destruct Hin as [Hin | [<- | []]]; [ now apply Hdone | ].
          eapply set_mem_correct1. exact Hm.
        + eexists _, _. split; [ reflexivity | ].
          assert (Hnotin : ~ In h seen).
          { eapply set_mem_complete1. exact Hm. }
          pose proof (local_named _ _ Hl) as Esym. subst sym.
          destruct (set_context_fold ("L" ++ h)%string (JStr (hex chunk))
                      contexts td) as [Hother Hsame].
          split; [ now apply set_add_nodup | ]. split.
          * intros h' Hin. apply set_add_iff in Hin.
            destruct Hin as [-> | Hin].
            -- split; [ eapply dict_get_Some_keys; exact Hl | ].
               intros ctx Hctx.
               destruct (Hsame ctx (or_introl Hctx)) as (e & He & Hv).
               exists e, chunk. repeat split; try assumption.
               rewrite Hchunks. apply in_elt.
            -- destruct (Hseen _ Hin) as [Hk Hcap]. split; [ assumption | ].
               intros ctx Hctx.
               destruct (Hcap ctx Hctx) as (e & c' & He & Hv & Hin' & Hh).
               exists e, c'. repeat split; try assumption.
               rewrite Hother; [ assumption | ].
               intros [= Eh]. apply Hnotin. now rewrite <- Eh.
          * intros c' Hin Hk. apply set_add_iff. apply in_app_iff in Hin.
            destruct Hin as [Hin | [<- | []]]; [ right; now apply Hdone | ].
            now left.
      - exists td, seen. split; [ reflexivity | ].
        split; [ assumption | ]. split; [ assumption | ].
        intros c' Hin Hk. apply in_app_iff in Hin.
        destruct Hin as [Hin | [<- | []]]; [ now apply Hdone | ].
        exfalso. apply dict_get_None_keys in Hl. contradiction. }
    destruct Hstep as (td' & seen' & -> & Hnd' & Hseen' & Hdone').
    rewrite local_values_distinct.
    destruct (Nat.eqb_spec (List.length seen') (List.length local))
      as [Hlen | Hlen].
    + apply Hseen'.
      assert (Hincl : incl (dict_keys local) seen').
      { apply NoDup_length_incl; [ assumption | | ].
        - unfold dict_keys. rewrite length_map. lia.
        - intros h' Hin. now apply Hseen'. }
      now apply Hincl.
    + apply (IH (done ++ [chunk])); try assumption.
      rewrite <- app_assoc. exact Hchunks.
Qed.
End Capture.

(* ------------------------------------------------------------------ *)
(** ** The grammar preserves the expansion                             *)
(* ------------------------------------------------------------------ *)

Lemma rewrite_spec_In a b ns (seq : list symbol) x :
  In x (rewrite_spec a b ns seq) -> x = ns \/ In x seq.
Proof.
  assert (H : forall n (s : list symbol), List.length s <= n ->
              In x (rewrite_spec a b ns s) -> x = ns \/ In x s).
  { induction n as [ | n IH]; intros s Hs Hin.
    - destruct s; simpl in *; [ contradiction | lia ].
    - destruct s as [ | y [ | z r']]; cbn [rewrite_spec] in Hin.
      + contradiction.
      + right. exact Hin.
      + simpl in Hs.
        destruct (eq_dec y a); [ destruct (eq_dec z b) | ];
          destruct Hin as [Hin | Hin].
        * now left.
        * destruct (IH r' ltac:(lia) Hin) as [Hx | Hx];
            [ now left | right; simpl; auto ].
        * right. now left.
        * destruct (IH (z :: r') ltac:(simpl; lia) Hin) as [Hx | Hx];
            [ now left | right; now right ].
        * right. now left.
        * destruct (IH (z :: r') ltac:(simpl; lia) Hin) as [Hx | Hx];
            [ now left | right; now right ]. }
  now apply (H (List.length seq)).
Qed.

Lemma adjacent_pairs_In (seq : list symbol) a b :
  In (a, b) (adjacent_pairs seq) -> In a seq /\ In b seq.
Proof.
  unfold adjacent_pairs. intros Hin. split.
  - eapply in_combine_l. exact Hin.
  - apply in_combine_r in Hin. destruct seq; [ contradiction | now right ].
Qed.

(** Replacing the pair by a symbol that expands to the concatenation of
    the pair's expansions keeps the expansion of the sequence. *)
Lemma rewrite_spec_expands (E E' : symbol -> result bytes) a b ns :
  (forall va vb, E a = Ok va -> E b = Ok vb -> E' ns = Ok (va ++ vb)) ->
  forall (seq : list symbol) (vs : list bytes),
    (forall s v, In s seq -> E s = Ok v -> E' s = Ok v) ->
    Forall2 (fun s v => E s = Ok v) seq vs ->
    exists vs',
      Forall2 (fun s v => E' s = Ok v) (rewrite_spec a b ns seq) vs'
      /\ List.concat vs' = List.concat vs.
Proof.
  intros Hns.
  assert (H : forall n (seq : list symbol) vs, List.length seq <= n ->
              (forall s v, In s seq -> E s = Ok v -> E' s = Ok v) ->
              Forall2 (fun s v => E s = Ok v) seq vs ->
              exists vs',
                Forall2 (fun s v => E' s = Ok v) (rewrite_spec a b ns seq) vs'
                /\ List.concat vs' = List.concat vs).
  { induction n as [ | n IH]; intros seq vs Hlen Hold Hvs.
    - destruct seq; simpl in Hlen; [ | lia ].
      inversion Hvs; subst. exists []. split; [ constructor | reflexivity ].
    - destruct Hvs as [ | x vx r vr Hx Hr].
      + exists []. split; [ constructor | reflexivity ].
      + assert (Hkeep : exists vs',
                  Forall2 (fun s v => E' s = Ok v)
                    (x :: rewrite_spec a b ns r) vs'
                  /\ List.concat vs' = List.concat (vx :: vr)).
        { destruct (IH r vr) as (vs' & Hvs' & Hc).
          - simpl in Hlen. lia.
          - intros s v Hs. apply Hold. now right.
          - exact Hr.
          - exists (vx :: vs'). split.
            + constructor; [ apply Hold; [ now left | exact Hx ] | exact Hvs' ].
            + simpl. now rewrite Hc. }
        destruct Hr as [ | y vy r' vr' Hy Hr'].
        * exists [vx]. split; [ | reflexivity ].
          simpl. constructor; [ | constructor ].
          apply Hold; [ now left | exact Hx ].
        * cbn [rewrite_spec].
          destruct (eq_dec x a) as [Ex | Ex]; [ | exact Hkeep ].
          destruct (eq_dec y b) as [Ey | Ey]; [ | exact Hkeep ].
          subst x y.
          destruct (IH r' vr') as (vs' & Hvs' & Hc).
          -- simpl in Hlen. lia.
          -- intros s v Hs. apply Hold. right. now right.
          -- exact Hr'.
          -- exists ((vx ++ vy) :: vs'). split.
             ++ constructor; [ now apply Hns | exact Hvs' ].
             ++ simpl. rewrite Hc, <- app_assoc. reflexivity. }
  intros seq vs. now apply (H (List.length seq)).
Qed.

Lemma expand_symbol_rule (dictionary_ : dict symbol entry) (rules_ : ruleset)
    context d sym a b :
  dict_get dictionary_ sym = None ->
  dict_get rules_ sym = Some (a, b) ->
  expand_symbol dictionary_ rules_ context (S d) sym
  = (x <- expand_symbol dictionary_ rules_ context d a ;;
     y <- expand_symbol dictionary_ rules_ context d b ;;
     Ok (x ++ y)).
Proof. intros Hd Hr. cbn [expand_symbol]. now rewrite Hd, Hr. Qed.

Section GrammarExpansion.
Variable dictionary_ : dict symbol entry.
Variable context : string.
Variable data : bytes.

(** No key of the dictionary is a rule name. *)
Hypothesis dictionary_no_rule :
  forall j, dict_get dictionary_ (new_sym j) = None.

Local Abbreviation expand := (expand_symbol dictionary_).

(** A new rule changes no expansion that does not mention it. *)
Lemma expand_symbol_new_rule (rules_ : ruleset) ns a b :
  (forall s x y, In (s, (x, y)) rules_ -> x <> ns /\ y <> ns) ->
  forall d s, s <> ns ->
    expand (dict_set rules_ ns (a, b)) context d s = expand rules_ context d s.
Proof.
  intros Hops. induction d as [ | d IH]; intros s Hne; [ reflexivity | ].
  simpl. destruct (dict_get dictionary_ s); [ reflexivity | ].
  rewrite dict_get_set_other by congruence.
  destruct (dict_get rules_ s) as [[x y] | ] eqn:Hr; [ | reflexivity ].
  apply dict_get_In in Hr. destruct (Hops _ _ _ Hr) as [Hx Hy].
  rewrite (IH x Hx), (IH y Hy). reflexivity.
Qed.

Lemma grammar_inv_step max minf st st' :
  rules_iter max minf st = Continue st' ->
  grammar_inv dictionary_ context data st ->
  grammar_inv dictionary_ context data st'.
Proof.
  intros Hit (Hnamed & Hfresh & Hcomma & Hops & vs & Hvs & Hdata).
  pose proof (rules_iter_named _ _ _ _ Hit Hnamed) as Hnamed'.
  pose proof (rules_named_fresh _ Hnamed) as Hnew.
  apply rules_iter_continue in Hit.
  destruct Hit as (a & b & freq & Hsel & _ & _ & ->).
  set (k := rs_next_idx st) in *. set (ns := new_sym k) in *.
  rewrite count_pairs_adjacent in Hsel.
  apply most_common1_first_seen in Hsel. destruct Hsel as (Hf & Hpos & _).
  assert (Hab : In a (rs_seq st) /\ In b (rs_seq st)).
  { apply adjacent_pairs_In. apply (count_occ_In eq_dec). lia. }
  destruct Hab as [Ha Hb].
  rewrite Forall_forall in Hfresh, Hcomma.
  assert (Hane : a <> ns) by (apply (Hfresh a Ha k); lia).
  assert (Hbne : b <> ns) by (apply (Hfresh b Hb k); lia).
  assert (Hops' : forall s x y, In (s, (x, y)) (rs_rules st) ->
                  x <> ns /\ y <> ns).
  { intros s x y Hin. destruct (Hops _ _ _ Hin) as [Hx Hy].
    split; [ apply (Hx k) | apply (Hy k) ]; lia. }
  unfold grammar_inv. cbn [rs_seq rs_rules rs_next_idx].
  rewrite rewrite_pair_spec.
  split; [ exact Hnamed' | ]. split; [ | split; [ | split ] ].
  - apply Forall_forall. intros x Hx. apply rewrite_spec_In in Hx.
    destruct Hx as [-> | Hx]; [ apply new_sym_fresh | ].
    apply fresh_sym_S. now apply Hfresh.
  - apply Forall_forall. intros x Hx. apply rewrite_spec_In in Hx.
    destruct Hx as [-> | Hx]; [ apply new_sym_comma_free | now apply Hcomma ].
  - intros s x y Hin. rewrite dict_set_new in Hin by exact Hnew.
    apply in_app_iff in Hin. destruct Hin as [Hin | [Hin | []]].
    + destruct (Hops _ _ _ Hin) as [Hx Hy].
      split; now apply fresh_sym_S.
    + injection Hin as _ <- <-.
      split; apply fresh_sym_S; now apply Hfresh.
  - unfold expands_to in *.
    apply (rewrite_spec_expands
             (expand (rs_rules st) context (S k))
             (expand (dict_set (rs_rules st) ns (a, b)) context (S (S k)))
             a b ns) in Hvs.
    + destruct Hvs as (vs' & Hvs' & Hc). exists vs'.
      split; [ exact Hvs' | congruence ].
    + intros va vb Hva Hvb.
      rewrite (expand_symbol_rule _ _ _ _ _ a b);
        [ | apply dictionary_no_rule | apply dict_get_set_same ].
      rewrite !expand_symbol_new_rule by assumption.
      rewrite Hva, Hvb. reflexivity.
    + intros s v Hs Hv.
      rewrite expand_symbol_new_rule;
        [ | assumption | apply (Hfresh s Hs k); lia ].
      eapply expand_symbol_more_depth; [ exact Hv | lia ].
Qed.

Lemma grammar_inv_loop max minf fuel : forall st r,
  rules_loop fuel max minf st = Some r ->
  grammar_inv dictionary_ context data st ->
  grammar_inv dictionary_ context data r.
Proof.
  induction fuel as [ | f IH]; intros st r Hloop Hinv; [ discriminate | ].
  simpl in Hloop. destruct (rules_iter max minf st) as [ | st'] eqn:Hit.
  - now injection Hloop as <-.
  - eapply IH; [ exact Hloop | ]. eapply grammar_inv_step; eassumption.
Qed.
End GrammarExpansion.

(* ------------------------------------------------------------------ *)
(** ** Round trip, without the cache                                   *)
(* ------------------------------------------------------------------ *)

(** The second pass writes under local symbols only. *)
Lemma pass2_other_symbols short_hash contexts (local : dict string symbol) s :
  (forall h sym, dict_get local h = Some sym -> sym <> s) ->
  forall rest td seen,
    dict_get (pass2 short_hash contexts local rest td seen) s = dict_get td s.
Proof.
  intros Hlocal. induction rest as [ | chunk rest IH]; intros td seen;
    [ reflexivity | ].
  cbn [pass2].
  match goal with
  | |- dict_get (let '(_, _) := ?step in _) _ = _ =>
      assert (Hstep : exists td' seen',
                 step = (td', seen') /\ dict_get td' s = dict_get td s)
  end.
  { destruct (dict_get local (short_hash chunk)) as [sym | ] eqn:Hl;
      [ | now exists td, seen ].
    destruct (set_mem string_dec (short_hash chunk) seen);
      [ now exists td, seen | ].
    eexists _, _. split; [ reflexivity | ].
    destruct (set_context_fold sym (JStr (hex chunk)) contexts td)
      as [Hother _].
    apply Hother. intros ->. exact (Hlocal _ _ Hl eq_refl). }
  destruct Hstep as (td' & seen' & -> & Hs).
  destruct (_ =? _)%nat; [ exact Hs | ]. now rewrite IH.
Qed.

Lemma Forall2_map_left {A B} (P : B -> A -> Prop) (f : A -> B) (l : list A) :
  (forall x, In x l -> P (f x) x) -> Forall2 P (map f l) l.
Proof.
  induction l as [ | x r IH]; intros HP; simpl; constructor.
  - apply HP. now left.
  - apply IH. intros y Hy. apply HP. now right.
Qed.

(** The round trip on [expand_symbol] without its cache.  For every
    input, every chunk size above zero, every pair frequency threshold
    and every context list, [encode_file] without a global dictionary
    returns a template, and for every context [c] of the list decoding
    that template under [c] leaves exactly the input bytes in the
    output file, on every stack that admits more activations than the
    template has rules; provided that no two different chunks of the
    input share a fingerprint.  [short_hash] is any function that
    returns twelve lower-case hexadecimal digits. *)
Lemma round_trip_without_cache
    (short_hash : bytes -> string) (input_name : string) (data : bytes)
    (contexts : list string) (size : nat) (min_pair_freq : Z) (c : string)
    (Hhash : forall b, is_hex12 (short_hash b) = true)
    (Hsize : 0 < size)
    (Hctx : In c contexts)
    (Hno_collision :
       forall c1 c2,
         In c1 (stream_chunks data size) -> In c2 (stream_chunks data size) ->
         short_hash c1 = short_hash c2 -> c1 = c2) :
  exists tpl,
    encode_file short_hash input_name data None contexts size min_pair_freq
    = Some tpl
    /\ forall depth out_before,
         List.length (rules tpl) < depth ->
         decode_template tpl c depth out_before = (Ok tt, Some data).
Proof.
  unfold encode_file.
  change (load_global_dict None) with (@nil (symbol * entry)).
  change (build_hash_to_sym []) with (@nil (string * symbol)).
  cbn [fold_left].
  set (chunks := stream_chunks data size) in *.
  destruct (pass1_spec short_hash [] chunks) as (Hseq & _ & Hnd & Hloc & Hall).
  set (p1 := pass1 short_hash [] chunks) in *. cbn zeta in Hseq.
  assert (Hnamed : forall h s, dict_get (p1_local p1) h = Some s ->
                   s = ("L" ++ h)%string).
  { intros h s Hs. now destruct (Hloc h s Hs). }
  set (td := match p1_local p1 with
             | [] => []
             | _ :: _ => pass2 short_hash contexts (p1_local p1) chunks [] []
             end).
  (* every chunk has been captured under its local symbol *)
  assert (Hcap : forall ch, In ch chunks ->
            captured short_hash contexts chunks td (short_hash ch)).
  { intros ch Hch. pose proof (Hall ch Hch eq_refl) as Hget.
    unfold td. destruct (p1_local p1) as [ | kv loc] eqn:Eloc;
      [ discriminate | ].
    rewrite <- Eloc in *.
    apply (pass2_captures short_hash contexts (p1_local p1) chunks
             Hnamed Hnd chunks [] [] []).
    - reflexivity.
    - constructor.
    - intros h [].
    - intros c' [].
    - exact Hch.
    - eapply dict_get_Some_keys. exact Hget. }
  (* no dictionary key is a rule name *)
  assert (Hnorule : forall j, dict_get td (new_sym j) = None).
  { intros j. unfold td. destruct (p1_local p1) as [ | kv loc] eqn:Eloc;
      [ reflexivity | ].
    rewrite <- Eloc in *. rewrite pass2_other_symbols; [ reflexivity | ].
    intros h sym Hs. rewrite (Hnamed _ _ Hs). discriminate. }
  (* a local symbol expands to its chunk *)
  assert (Hbase : forall ch, In ch chunks ->
            expand_symbol td [] c 1 ("L" ++ short_hash ch)%string = Ok ch).
  { intros ch Hch.
    destruct (Hcap ch Hch c Hctx) as (e & c' & He & Hv & Hc' & Hh).
    assert (c' = ch) by now apply Hno_collision. subst c'.
    cbn [expand_symbol]. rewrite He, Hv. apply fromhex_hex. }
  (* the grammar loop returns *)
  destruct (rules_loop_terminates 10000 min_pair_freq
              (S (List.length (p1_sequence p1)))
              (initial_rules_state (p1_sequence p1)))
    as (r & turns & Hloop & _ & _ & Hrnamed & _ & _);
    [ simpl; lia | reflexivity | simpl; lia | ].
  unfold build_hierarchical_rules, build_hierarchical_rules_fuel.
  rewrite Hloop. eexists. split; [ reflexivity | ].
  cbn [rules dictionary sequence].
  (* the invariant holds at the start, hence at the end *)
  assert (Hinv : grammar_inv td c data r).
  { eapply grammar_inv_loop; [ exact Hnorule | exact Hloop | ].
    unfold grammar_inv, initial_rules_state.
    cbn [rs_seq rs_rules rs_next_idx].
    split; [ reflexivity | ]. rewrite Hseq.
    split; [ | split; [ | split ] ].
    - apply Forall_forall. intros s Hs. apply in_map_iff in Hs.
      destruct Hs as (ch & <- & _). apply local_sym_fresh.
    - apply Forall_forall. intros s Hs. apply in_map_iff in Hs.
      destruct Hs as (ch & <- & _). apply local_sym_comma_free, Hhash.
    - intros s x y [].
    - exists chunks. split; [ | now apply stream_chunks_concat ].
      unfold expands_to.
      apply (Forall2_map_left
               (fun s v => expand_symbol td [] c 1 s = Ok v)
               (fun ch => symbol_of [] (short_hash ch))).
      exact Hbase. }
  destruct Hinv as (_ & _ & Hcomma & _ & vs & Hvs & Hdata).
  intros depth out_before Hdepth.
  rewrite (rules_named_length _ Hrnamed) in Hdepth.
  unfold decode_template. cbn [rules dictionary sequence].
  rewrite parse_sequence_join by exact Hcomma.
  rewrite (write_loop_expands _ _ _ _ _ vs []).
  - now rewrite Hdata.
  - unfold expands_to in *.
    eapply Forall2_impl; [ | exact Hvs ].
    intros s v Hs. eapply expand_symbol_more_depth; [ exact Hs | lia ].
Qed.

(* ------------------------------------------------------------------ *)
(** ** The scenarios of the specification, evaluated                   *)
(* ------------------------------------------------------------------ *)

(** [b"AAAABBBBAAAABBBB"] with chunk size 4 and [min_pair_freq = 2]: two
    local symbols, the rule [R0 -> (L.., L..)] and the sequence
    [R0, R0]. *)
Example scenario_encode :
  encode_file toy_hash "sample.bin" sample_input None ["DEFAULT"] 4 2
  = Some {| tpl_meta := {| chunk_size := 4; orig_file := "sample.bin";
                           total_chunks := 4 |};
            dictionary :=
              [("L414141410000", [("DEFAULT", JStr "41414141")]);
               ("L424242420000", [("DEFAULT", JStr "42424242")])];
            rules := [("R0", ("L414141410000", "L424242420000"))];
            sequence := "R0,R0" |}.
Proof. vm_compute. reflexivity. Qed.

Example scenario_decode :
  match encode_file toy_hash "sample.bin" sample_input None ["DEFAULT"] 4 2
  with
  | Some tpl => decode_template tpl "DEFAULT" 1000 None
  | None => (Raise RecursionError, None)
  end = (Ok tt, Some sample_input).
Proof. vm_compute. reflexivity. Qed.

(** Empty input: no chunk, empty sequence, rules and dictionary, and a
    zero-length output file. *)
Example scenario_empty_input :
  encode_file toy_hash "empty.bin" [] None ["DEFAULT"] 4096 2
  = Some {| tpl_meta := {| chunk_size := 4096; orig_file := "empty.bin";
                           total_chunks := 0 |};
            dictionary := []; rules := []; sequence := "" |}
  /\ decode_template
       {| tpl_meta := no_meta; dictionary := []; rules := [];
          sequence := "" |} "DEFAULT" 1000 None
     = (Ok tt, Some []).
Proof. split; vm_compute; reflexivity. Qed.

(** A chunk size of zero reads no chunk at all: the positive size in
    the round trip is needed. *)
Remark zero_chunk_size_reads_nothing (data : bytes) :
  stream_chunks data 0 = [].
Proof. reflexivity. Qed.

(** The tie of the counting example: in [A, B, C, A, B, C] the pairs
    [(A, B)] and [(B, C)] both count 2 and the first seen wins. *)
Example scenario_tie :
  most_common1 (count_pairs ["A"; "B"; "C"; "A"; "B"; "C"])
  = Some (("A", "B"), 2)
  /\ counter_get (count_pairs ["A"; "B"; "C"; "A"; "B"; "C"]) ("B", "C") = 2.
Proof. split; reflexivity. Qed.

(* ================================================================== *)
(** * Part III.  Further properties of the code                        *)
(* ================================================================== *)

(* ------------------------------------------------------------------ *)
(** ** Chunker: sizes and number of the chunks                         *)
(* ------------------------------------------------------------------ *)

Lemma stream_chunks_fuel_nil fuel size : stream_chunks_fuel fuel [] size = [].
Proof. destruct fuel; simpl; [ reflexivity | now rewrite firstn_nil ]. Qed.

Lemma stream_chunks_fuel_cons fuel size (Hsize : 0 < size) x r :
  stream_chunks_fuel (S fuel) (x :: r) size
  = firstn size (x :: r) :: stream_chunks_fuel fuel (skipn size (x :: r)) size.
Proof. destruct size as [ | n]; [ lia | reflexivity ]. Qed.

Lemma stream_chunks_fuel_sizes size (Hsize : 0 < size) fuel :
  forall data, List.length data < fuel ->
  let cs := stream_chunks_fuel fuel data size in
  Forall (fun c => 1 <= List.length c <= size) cs
  /\ (forall pre c post, cs = pre ++ c :: post -> post <> [] ->
        List.length c = size)
  /\ List.length cs = (List.length data + size - 1) / size.
Proof.
  induction fuel as [ | f IH]; intros data Hlen; [ lia | ].
  destruct data as [ | x r].
  - cbn zeta. rewrite stream_chunks_fuel_nil.
    split; [ constructor | ]. split.
    + intros pre c post Heq. destruct pre; discriminate.
    + simpl. symmetry. apply Nat.div_small. lia.
  - cbn zeta. rewrite stream_chunks_fuel_cons by assumption.
    set (data := x :: r) in *.
    assert (Hd : 1 <= List.length data) by (unfold data; simpl; lia).
    destruct (IH (skipn size data)) as (Hall & Hfull & Hcount).
    { rewrite length_skipn. lia. }
    cbn zeta in Hall, Hfull, Hcount.
    split; [ | split ].
    + constructor; [ | exact Hall ]. rewrite length_firstn. lia.
    + intros pre c post Heq Hpost. destruct pre as [ | p pre].
      * simpl in Heq. injection Heq as <- Hrest.
        rewrite length_firstn.
        destruct (Nat.le_gt_cases (List.length data) size) as [Hle | Hgt];
          [ | lia ].
        exfalso. apply Hpost. rewrite <- Hrest.
        rewrite skipn_all2 by assumption. apply stream_chunks_fuel_nil.
      * simpl in Heq. injection Heq as _ Hrest.
        eapply Hfull; eassumption.
    + cbn [List.length]. rewrite Hcount, length_skipn.
      destruct (Nat.le_gt_cases (List.length data) size) as [Hle | Hgt].
      * replace (List.length data - size + size - 1) with (size - 1) by lia.
        rewrite (Nat.div_small (size - 1)) by lia.
        replace (List.length data + size - 1)
          with ((List.length data - 1) + 1 * size) by lia.
        rewrite Nat.div_add by lia.
        rewrite (Nat.div_small (List.length data - 1)) by lia. reflexivity.
      * replace (List.length data + size - 1)
          with ((List.length data - size + size - 1) + 1 * size) by lia.
        rewrite Nat.div_add by lia. lia.
Qed.

(** X1.  [stream_chunks] with a positive chunk size cuts the file into
    chunks that, put end to end, are the file; no chunk is empty or
    longer than the chunk size, and every chunk but the last has
    exactly the chunk size. *)
Theorem stream_chunks_partition (data : bytes) (size : nat)
    (Hsize : 0 < size) :
  let cs := stream_chunks data size in
  List.concat cs = data
  /\ Forall (fun c => 1 <= List.length c <= size) cs
  /\ (forall pre c post, cs = pre ++ c :: post -> post <> [] ->
        List.length c = size).
Proof.
  intros cs.
  destruct (stream_chunks_fuel_sizes size Hsize (S (List.length data)) data
              (Nat.lt_succ_diag_r _)) as (Hall & Hfull & _).
  split; [ now apply stream_chunks_concat | ]. split; assumption.
Qed.

Lemma stream_chunks_partition_witness :
  let cs := stream_chunks [x41; x42; x43; x44; x45] 2 in
  List.concat cs = [x41; x42; x43; x44; x45]
  /\ Forall (fun c => 1 <= List.length c <= 2) cs
  /\ (forall pre c post, cs = pre ++ c :: post -> post <> [] ->
        List.length c = 2).
Proof.
  apply (stream_chunks_partition [x41; x42; x43; x44; x45] 2). lia.
Defined.

(** X2.  With a positive chunk size the number of chunks is the length
    of the file divided by the chunk size, rounded up; an empty file
    has no chunk. *)
Theorem stream_chunks_count (data : bytes) (size : nat) (Hsize : 0 < size) :
  List.length (stream_chunks data size)
  = (List.length data + size - 1) / size.
Proof.
  destruct (stream_chunks_fuel_sizes size Hsize (S (List.length data)) data
              (Nat.lt_succ_diag_r _)) as (_ & _ & Hcount).
  exact Hcount.
Qed.

Lemma stream_chunks_count_witness :
  List.length (stream_chunks [x41; x42; x43; x44; x45] 2) = (5 + 2 - 1) / 2.
Proof.
  apply (stream_chunks_count [x41; x42; x43; x44; x45] 2). lia.
Defined.

(* ------------------------------------------------------------------ *)
(** ** Grammar Compressor: the shape of what it returns                *)
(* ------------------------------------------------------------------ *)

Lemma rules_loop_invariant (P : rules_state -> Prop) max minf :
  (forall st st', rules_iter max minf st = Continue st' -> P st -> P st') ->
  forall fuel st r, rules_loop fuel max minf st = Some r -> P st -> P r.
Proof.
  intros Hstep. induction fuel as [ | f IH]; intros st r Hloop HP;
    [ discriminate | ].
  simpl in Hloop. destruct (rules_iter max minf st) as [ | st'] eqn:Hit.
  - now injection Hloop as <-.
  - eapply IH; [ exact Hloop | ]. eapply Hstep; eassumption.
Qed.

Lemma rules_loop_break max minf fuel : forall st r,
  rules_loop fuel max minf st = Some r -> rules_iter max minf r = Break.
Proof.
  induction fuel as [ | f IH]; intros st r Hloop; [ discriminate | ].
  simpl in Hloop. destruct (rules_iter max minf st) as [ | st'] eqn:Hit.
  - now injection Hloop as <-.
  - eapply IH. exact Hloop.
Qed.

Lemma build_hierarchical_rules_state seq0 max minf seq' rules_ :
  build_hierarchical_rules seq0 max minf = Some (seq', rules_) ->
  exists st,
    rules_loop (S (List.length seq0)) max minf (initial_rules_state seq0)
    = Some st
    /\ rs_seq st = seq' /\ rs_rules st = rules_.
Proof.
  unfold build_hierarchical_rules, build_hierarchical_rules_fuel.
  destruct (rules_loop _ _ _ _) as [st | ]; [ | discriminate ].
  intros [= <- <-]. now exists st.
Qed.

Lemma rules_named_step max minf st st' :
  rules_iter max minf st = Continue st' -> rules_named st -> rules_named st'.
Proof. apply rules_iter_named. Qed.

Lemma rules_named_NoDup st : rules_named st -> NoDup (dict_keys (rs_rules st)).
Proof.
  intros Hk. rewrite Hk. apply NoDup_map_injective; [ | apply seq_NoDup ].
  intros x y. apply new_sym_inj.
Qed.

Lemma grammar_closed_step seq0 max minf st st' :
  rules_iter max minf st = Continue st' ->
  rules_named st /\ grammar_closed seq0 st ->
  rules_named st' /\ grammar_closed seq0 st'.
Proof.
  intros Hit (Hnamed & Hseq & Hops).
  split; [ eapply rules_iter_named; eassumption | ].
  pose proof (rules_named_fresh _ Hnamed) as Hnew.
  apply rules_iter_continue in Hit.
  destruct Hit as (a & b & freq & Hsel & _ & _ & ->).
  rewrite count_pairs_adjacent in Hsel.
  apply most_common1_first_seen in Hsel. destruct Hsel as (Hf & Hpos & _).
  assert (Hab : In a (rs_seq st) /\ In b (rs_seq st)).
  { apply adjacent_pairs_In. apply (count_occ_In eq_dec). lia. }
  destruct Hab as [Ha Hb].
  set (ns := new_sym (rs_next_idx st)) in *.
  assert (Hkeys : forall x, In x seq0 \/ In x (dict_keys (rs_rules st)) ->
            In x seq0
            \/ In x (dict_keys (dict_set (rs_rules st) ns (a, b)))).
  { intros x [Hx | Hx]; [ now left | right ].
    rewrite dict_keys_set_new by exact Hnew. apply in_app_iff. now left. }
  unfold grammar_closed. cbn [rs_seq rs_rules]. split.
  - intros x Hx. rewrite rewrite_pair_spec in Hx.
    apply rewrite_spec_In in Hx. destruct Hx as [-> | Hx].
    + right. rewrite dict_keys_set_new by exact Hnew.
      apply in_app_iff. right. now left.
    + apply Hkeys. now apply Hseq.
  - intros s x y Hin. rewrite dict_set_new in Hin by exact Hnew.
    apply in_app_iff in Hin. destruct Hin as [Hin | [Hin | []]].
    + destruct (Hops _ _ _ Hin) as [Hx Hy]. split; now apply Hkeys.
    + injection Hin as _ <- <-. split; apply Hkeys; now apply Hseq.
Qed.

Lemma grammar_length_step (seq0 : list symbol) max minf st st' :
  rules_iter max minf st = Continue st' ->
  List.length (rs_seq st) + rs_next_idx st <= List.length seq0 ->
  List.length (rs_seq st') + rs_next_idx st' <= List.length seq0.
Proof.
  intros Hit Hlen. pose proof (rules_iter_shorter _ _ _ _ Hit) as Hshort.
  apply rules_iter_continue in Hit.
  destruct Hit as (a & b & freq & _ & _ & _ & ->).
  cbn [rs_seq rs_next_idx] in *. lia.
Qed.

Lemma grammar_ordered_step max minf st st' :
  rules_iter max minf st = Continue st' ->
  grammar_ordered st -> grammar_ordered st'.
Proof.
  intros Hit (Hfresh & Hord).
  apply rules_iter_continue in Hit.
  destruct Hit as (a & b & freq & Hsel & _ & _ & ->).
  rewrite count_pairs_adjacent in Hsel.
  apply most_common1_first_seen in Hsel. destruct Hsel as (Hf & Hpos & _).
  assert (Hab : In a (rs_seq st) /\ In b (rs_seq st)).
  { apply adjacent_pairs_In. apply (count_occ_In eq_dec). lia. }
  destruct Hab as [Ha Hb].
  rewrite Forall_forall in Hfresh.
  unfold grammar_ordered. cbn [rs_seq rs_rules rs_next_idx]. split.
  - apply Forall_forall. intros x Hx. rewrite rewrite_pair_spec in Hx.
    apply rewrite_spec_In in Hx.
    destruct Hx as [-> | Hx]; [ apply new_sym_fresh | ].
    apply fresh_sym_S. now apply Hfresh.
  - intros s x y Hin.
    assert (Hcases : In (s, (x, y)) (rs_rules st)
                     \/ (s, (x, y)) = (new_sym (rs_next_idx st), (a, b))).
    { clear - Hin. induction (rs_rules st) as [ | [k v] r IH]; simpl in Hin.
      - destruct Hin as [Hin | []]. right. now symmetry.
      - destruct (eq_dec k (new_sym (rs_next_idx st))) as [E | E].
        + destruct Hin as [Hin | Hin].
          * right. congruence.
          * left. now right.
        + destruct Hin as [Hin | Hin]; [ left; now left | ].
          destruct (IH Hin) as [H | H]; [ left; now right | now right ]. }
    destruct Hcases as [Hin' | Heq].
    + destruct (Hord _ _ _ Hin') as (i & Hi & Hs & Hx & Hy).
      exists i. repeat split; try assumption. lia.
    + injection Heq as -> -> ->. exists (rs_next_idx st).
      repeat split; [ lia | now apply Hfresh | now apply Hfresh ].
Qed.

(** No pair at all: the sequence has fewer than two symbols. *)
Lemma most_common1_none_no_pair (seq : list symbol) :
  most_common1 (count_pairs seq) = None -> adjacent_pairs seq = [].
Proof.
  rewrite count_pairs_adjacent. intros Hnone.
  destruct (counter_keys_fold (adjacent_pairs seq)) as (_ & Hkeys & _).
  cbn zeta in Hkeys.
  destruct (fold_left counter_incr (adjacent_pairs seq) []) as [ | x r];
    [ | discriminate ].
  destruct (adjacent_pairs seq) as [ | p ps]; [ reflexivity | ].
  exfalso. apply (Hkeys p). now left.
Qed.

(** X3.  The rules that [build_hierarchical_rules] returns are named
    [R0], [R1], ... in the order of their creation, one name per rule,
    no name twice. *)
Theorem rules_are_numbered
    (seq0 : list symbol) (max_new_symbols min_pair_freq : Z)
    (seq' : list symbol) (rules_ : ruleset)
    (Hrun : build_hierarchical_rules seq0 max_new_symbols min_pair_freq
            = Some (seq', rules_)) :
  dict_keys rules_ = map new_sym (List.seq 0 (List.length rules_))
  /\ NoDup (dict_keys rules_).
Proof.
  apply build_hierarchical_rules_state in Hrun.
  destruct Hrun as (st & Hloop & <- & <-).
  assert (Hnamed : rules_named st).
  { eapply (rules_loop_invariant rules_named);
      [ apply rules_named_step | exact Hloop | reflexivity ]. }
  split; [ | now apply rules_named_NoDup ].
  rewrite (rules_named_length _ Hnamed). exact Hnamed.
Qed.

Lemma rules_are_numbered_witness :
  dict_keys [("R0", ("a", "b"))]
  = map new_sym (List.seq 0 1)
  /\ NoDup (dict_keys [("R0", ("a", "b"))]).
Proof.
  exact (rules_are_numbered ["a"; "b"; "a"; "b"] 10000 2
           ["R0"; "R0"] [("R0", ("a", "b"))] eq_refl).
Defined.

(** X4.  What [build_hierarchical_rules] returns has no dangling
    reference: every symbol of the final sequence and every operand of
    a rule is a symbol of the input sequence or the name of a rule
    returned. *)
Theorem grammar_has_no_dangling_symbol
    (seq0 : list symbol) (max_new_symbols min_pair_freq : Z)
    (seq' : list symbol) (rules_ : ruleset)
    (Hrun : build_hierarchical_rules seq0 max_new_symbols min_pair_freq
            = Some (seq', rules_)) :
  (forall x, In x seq' -> In x seq0 \/ In x (dict_keys rules_))
  /\ (forall s a b, In (s, (a, b)) rules_ ->
        (In a seq0 \/ In a (dict_keys rules_))
        /\ (In b seq0 \/ In b (dict_keys rules_))).
Proof.
  apply build_hierarchical_rules_state in Hrun.
  destruct Hrun as (st & Hloop & <- & <-).
  apply (rules_loop_invariant
           (fun st => rules_named st /\ grammar_closed seq0 st)
           max_new_symbols min_pair_freq
           (grammar_closed_step seq0 max_new_symbols min_pair_freq)
           _ _ _ Hloop).
  split; [ reflexivity | ]. split.
  - intros x Hx. now left.
  - intros s a b [].
Qed.

Lemma grammar_has_no_dangling_symbol_witness :
  (forall x, In x ["R0"; "R0"] ->
     In x ["a"; "b"; "a"; "b"]
     \/ In x (dict_keys [("R0", ("a", "b"))]))
  /\ (forall s a b,
        In (s, (a, b)) [("R0", ("a", "b"))] ->
        (In a ["a"; "b"; "a"; "b"]
         \/ In a (dict_keys [("R0", ("a", "b"))]))
        /\ (In b ["a"; "b"; "a"; "b"]
            \/ In b (dict_keys [("R0", ("a", "b"))]))).
Proof.
  exact (grammar_has_no_dangling_symbol ["a"; "b"; "a"; "b"] 10000 2
           ["R0"; "R0"] [("R0", ("a", "b"))] eq_refl).
Defined.

(** X5.  Every rule pays for itself: the length of the final sequence
    plus the number of rules is at most the length of the input
    sequence, so the final sequence is never longer than the input. *)
Theorem grammar_never_grows
    (seq0 : list symbol) (max_new_symbols min_pair_freq : Z)
    (seq' : list symbol) (rules_ : ruleset)
    (Hrun : build_hierarchical_rules seq0 max_new_symbols min_pair_freq
            = Some (seq', rules_)) :
  List.length seq' + List.length rules_ <= List.length seq0.
Proof.
  apply build_hierarchical_rules_state in Hrun.
  destruct Hrun as (st & Hloop & <- & <-).
  assert (Hnamed : rules_named st).
  { eapply (rules_loop_invariant rules_named);
      [ apply rules_named_step | exact Hloop | reflexivity ]. }
  rewrite (rules_named_length _ Hnamed).
  apply (rules_loop_invariant
           (fun st => List.length (rs_seq st) + rs_next_idx st
                      <= List.length seq0)
           max_new_symbols min_pair_freq
           (grammar_length_step seq0 max_new_symbols min_pair_freq)
           _ _ _ Hloop).
  simpl. lia.
Qed.

Lemma grammar_never_grows_witness :
  List.length ["R0"; "R0"]
  + List.length [("R0", ("a", "b"))]
  <= List.length ["a"; "b"; "a"; "b"].
Proof.
  exact (grammar_never_grows ["a"; "b"; "a"; "b"] 10000 2
           ["R0"; "R0"] [("R0", ("a", "b"))] eq_refl).
Defined.

(** X6.  When [build_hierarchical_rules] returns with fewer rules than
    the budget [max_new_symbols], the compression is complete for the
    threshold: every adjacent pair of the final sequence occurs fewer
    than [min_pair_freq] times in it. *)
Theorem grammar_stops_below_threshold
    (seq0 : list symbol) (max_new_symbols min_pair_freq : Z)
    (seq' : list symbol) (rules_ : ruleset)
    (Hrun : build_hierarchical_rules seq0 max_new_symbols min_pair_freq
            = Some (seq', rules_))
    (Hbudget : (Z.of_nat (List.length rules_) < max_new_symbols)%Z) :
  forall p, In p (adjacent_pairs seq') ->
    (Z.of_nat (count_occ eq_dec (adjacent_pairs seq') p) < min_pair_freq)%Z.
Proof.
  apply build_hierarchical_rules_state in Hrun.
  destruct Hrun as (st & Hloop & <- & <-).
  apply rules_loop_break in Hloop. unfold rules_iter in Hloop.
  intros p Hp.
  destruct (most_common1 (count_pairs (rs_seq st)))
    as [[[a b] freq] | ] eqn:Hsel.
  - rewrite count_pairs_adjacent in Hsel.
    apply most_common1_first_seen in Hsel.
    destruct Hsel as (_ & _ & Hmax & _). specialize (Hmax p).
    destruct (Z.ltb_spec (Z.of_nat freq) min_pair_freq) as [Hlt | Hge];
      [ lia | ].
    destruct (Z.leb_spec max_new_symbols
                (Z.of_nat (List.length (rs_rules st)))) as [Hle | Hgt];
      [ lia | ].
    discriminate.
  - apply most_common1_none_no_pair in Hsel. rewrite Hsel in Hp.
    contradiction.
Qed.

Lemma grammar_stops_below_threshold_witness :
  (Z.of_nat (count_occ eq_dec (adjacent_pairs ["R0"; "c"; "R0"]) ("R0", "c"))
   < 2)%Z.
Proof.
  apply (grammar_stops_below_threshold ["a"; "b"; "c"; "a"; "b"] 10000 2
           ["R0"; "c"; "R0"] [("R0", ("a", "b"))] eq_refl).
  - simpl. lia.
  - simpl. tauto.
Defined.

(* ------------------------------------------------------------------ *)
(** ** Grammar Compressor: the rules form no cycle                     *)
(* ------------------------------------------------------------------ *)

Lemma ordered_operand (dictionary_ : dict symbol entry) st s t :
  grammar_ordered st ->
  rule_operand dictionary_ (rs_rules st) s t ->
  exists i, s = new_sym i /\ fresh_sym i t.
Proof.
  intros [_ Hord] (_ & a & b & Hr & Ht).
  apply dict_get_In in Hr.
  destruct (Hord _ _ _ Hr) as (i & _ & Hs & Ha & Hb).
  exists i. split; [ exact Hs | ]. destruct Ht as [-> | ->]; assumption.
Qed.

Lemma ordered_reachable (dictionary_ : dict symbol entry) st s t :
  grammar_ordered st ->
  clos_trans symbol (rule_operand dictionary_ (rs_rules st)) s t ->
  exists i, s = new_sym i /\ fresh_sym i t.
Proof.
  intros Hord Hreach.
  induction Hreach as [s t Hst | s u t _ IHsu _ IHut].
  - eapply ordered_operand; eassumption.
  - destruct IHsu as (i & Hs & Hu). destruct IHut as (j & Hj & Ht).
    exists i. split; [ exact Hs | ].
    assert (Hji : j < i).
    { destruct (Nat.lt_ge_cases j i) as [Hlt | Hge]; [ exact Hlt | ].
      exfalso. exact (Hu j Hge Hj). }
    intros k Hk. apply Ht. lia.
Qed.

Lemma ordered_acyclic (dictionary_ : dict symbol entry) st s :
  grammar_ordered st -> ~ on_cycle dictionary_ (rs_rules st) s.
Proof.
  intros Hord Hcyc.
  destruct (ordered_reachable dictionary_ st s s Hord Hcyc) as (i & Hs & Hf).
  exact (Hf i (le_n i) Hs).
Qed.

Lemma build_hierarchical_rules_ordered seq0 max minf seq' rules_ :
  build_hierarchical_rules seq0 max minf = Some (seq', rules_) ->
  Forall (fresh_sym 0) seq0 ->
  exists st, rs_rules st = rules_ /\ rs_seq st = seq' /\ grammar_ordered st.
Proof.
  intros Hrun Hfresh. apply build_hierarchical_rules_state in Hrun.
  destruct Hrun as (st & Hloop & <- & <-).
  exists st. split; [ reflexivity | ]. split; [ reflexivity | ].
  apply (rules_loop_invariant grammar_ordered max minf
           (grammar_ordered_step max minf) _ _ _ Hloop).
  split; [ exact Hfresh | ]. intros s a b [].
Qed.

(** X7.  When no symbol of the input sequence is itself a rule name
    [R0], [R1], ..., the rules that [build_hierarchical_rules] returns
    form no cycle, whatever dictionary the decoder uses: no symbol is
    reachable from itself through rule operands. *)
Theorem grammar_is_acyclic
    (seq0 : list symbol) (max_new_symbols min_pair_freq : Z)
    (seq' : list symbol) (rules_ : ruleset)
    (Hrun : build_hierarchical_rules seq0 max_new_symbols min_pair_freq
            = Some (seq', rules_))
    (Hinput : Forall (fresh_sym 0) seq0) :
  forall (dictionary_ : dict symbol entry) (s : symbol),
    ~ on_cycle dictionary_ rules_ s.
Proof.
  destruct (build_hierarchical_rules_ordered _ _ _ _ _ Hrun Hinput)
    as (st & <- & _ & Hord).
  intros dictionary_ s. now apply ordered_acyclic.
Qed.

Lemma grammar_is_acyclic_witness :
  ~ on_cycle [] [("R0", ("a", "b"))] "R0".
Proof.
  apply (grammar_is_acyclic ["a"; "b"; "a"; "b"] 10000 2
           ["R0"; "R0"] [("R0", ("a", "b"))] eq_refl).
  repeat constructor; intros j _; discriminate.
Defined.

(** The hypothesis on the input is needed: an input that holds the
    symbol [R0] gets the rule [R0 -> [R0, x]]. *)
Example rule_name_in_input_makes_cycle :
  build_hierarchical_rules ["R0"; "x"; "R0"; "x"] 10000 2
  = Some (["R0"; "R0"], [("R0", ("R0", "x"))]).
Proof. reflexivity. Qed.

(* ------------------------------------------------------------------ *)
(** ** [encode_file]: the template it assembles                        *)
(* ------------------------------------------------------------------ *)

(** The parts of the template, named. *)
Lemma encode_file_parts short_hash input_name data dict_file contexts size
    min_pair_freq tpl :
  encode_file short_hash input_name data dict_file contexts size min_pair_freq
  = Some tpl ->
  let global_dict := load_global_dict dict_file in
  let chunks := stream_chunks data size in
  let p1 := pass1 short_hash (build_hash_to_sym global_dict) chunks in
  let td0 := fold_left (fun td sm => update_entry td (fst sm) (snd sm))
               global_dict [] in
  let td := match p1_local p1 with
            | [] => td0
            | _ :: _ => pass2 short_hash contexts (p1_local p1) chunks td0 []
            end in
  exists seq' rules_,
    build_hierarchical_rules (p1_sequence p1) 10000 min_pair_freq
    = Some (seq', rules_)
    /\ tpl = {| tpl_meta := {| chunk_size := Z.of_nat size;
                               orig_file := input_name;
                               total_chunks := Z.of_nat (p1_total p1) |};
                dictionary := td;
                rules := rules_;
                sequence := join "," seq' |}.
Proof.
  unfold encode_file. cbn zeta.
  destruct (build_hierarchical_rules _ 10000 min_pair_freq)
    as [[seq' rules_] | ]; [ | discriminate ].
  intros [= <-]. exists seq', rules_. split; reflexivity.
Qed.

Lemma symbol_of_shape (gd : dict symbol entry) h :
  symbol_of (build_hash_to_sym gd) h = ("S" ++ h)%string
  \/ symbol_of (build_hash_to_sym gd) h = ("L" ++ h)%string.
Proof.
  unfold symbol_of. destruct (build_hash_to_sym_spec gd h) as [Hs _].
  destruct (dict_get (build_hash_to_sym gd) h) as [s | ]; [ | now right ].
  left. now destruct (Hs s eq_refl).
Qed.

Lemma symbol_of_fresh (gd : dict symbol entry) h k :
  fresh_sym k (symbol_of (build_hash_to_sym gd) h).
Proof.
  destruct (symbol_of_shape gd h) as [-> | ->]; intros j _; discriminate.
Qed.

Lemma symbol_of_comma_free (gd : dict symbol entry) h :
  is_hex12 h = true -> comma_free (symbol_of (build_hash_to_sym gd) h).
Proof.
  intros Hh. destruct (symbol_of_shape gd h) as [-> | ->].
  - split; [ discriminate | ]. simpl. now apply is_hex12_comma_free.
  - now apply local_sym_comma_free.
Qed.

(** X8.  The [meta] of the template that [encode_file] returns records
    the chunk size and the file name it was given, and [total_chunks]
    is the number of chunks read from the input: with a positive chunk
    size, the length of the input divided by the chunk size, rounded
    up. *)
Theorem encode_file_meta
    (short_hash : bytes -> string) (input_name : string) (data : bytes)
    (dict_file : option global_entries) (contexts : list string)
    (size : nat) (min_pair_freq : Z) (tpl : template)
    (Hsize : 0 < size)
    (Henc : encode_file short_hash input_name data dict_file contexts size
              min_pair_freq = Some tpl) :
  tpl_meta tpl
  = {| chunk_size := Z.of_nat size;
       orig_file := input_name;
       total_chunks := Z.of_nat ((List.length data + size - 1) / size) |}.
Proof.
  apply encode_file_parts in Henc. cbn zeta in Henc.
  destruct Henc as (seq' & rules_ & _ & ->). cbn [tpl_meta].
  destruct (pass1_spec short_hash
              (build_hash_to_sym (load_global_dict dict_file))
              (stream_chunks data size)) as (_ & Htot & _).
  rewrite Htot.
  destruct (stream_chunks_fuel_sizes size Hsize (S (List.length data)) data
              (Nat.lt_succ_diag_r _)) as (_ & _ & Hcount).
  unfold stream_chunks. cbn zeta in Hcount. rewrite Hcount. reflexivity.
Qed.

Lemma encode_file_meta_witness :
  tpl_meta
    {| tpl_meta := {| chunk_size := 4; orig_file := "sample.bin";
                      total_chunks := 4 |};
       dictionary :=
         [("L414141410000", [("DEFAULT", JStr "41414141")]);
          ("L424242420000", [("DEFAULT", JStr "42424242")])];
       rules := [("R0", ("L414141410000", "L424242420000"))];
       sequence := "R0,R0" |}
  = {| chunk_size := Z.of_nat 4;
       orig_file := "sample.bin";
       total_chunks := Z.of_nat ((List.length sample_input + 4 - 1) / 4) |}.
Proof.
  apply (encode_file_meta toy_hash "sample.bin" sample_input None
           ["DEFAULT"] 4 2).
  - lia.
  - vm_compute. reflexivity.
Defined.

(** X9.  Whatever the input, the global dictionary file and the
    parameters, the rule set of a template that [encode_file] returns
    has no cycle: no symbol is reachable from itself through rule
    operands. *)
Theorem encode_file_rules_acyclic
    (short_hash : bytes -> string) (input_name : string) (data : bytes)
    (dict_file : option global_entries) (contexts : list string)
    (size : nat) (min_pair_freq : Z) (tpl : template)
    (Henc : encode_file short_hash input_name data dict_file contexts size
              min_pair_freq = Some tpl) :
  forall s, ~ on_cycle (dictionary tpl) (rules tpl) s.
Proof.
  apply encode_file_parts in Henc. cbn zeta in Henc.
  destruct Henc as (seq' & rules_ & Hrun & ->). cbn [dictionary rules].
  destruct (build_hierarchical_rules_ordered _ _ _ _ _ Hrun)
    as (st & <- & _ & Hord).
  - destruct (pass1_spec short_hash
                (build_hash_to_sym (load_global_dict dict_file))
                (stream_chunks data size)) as (Hseq & _).
    rewrite Hseq. apply Forall_forall. intros x Hx.
    apply in_map_iff in Hx. destruct Hx as (c & <- & _).
    apply symbol_of_fresh.
  - intros s. now apply ordered_acyclic.
Qed.

Lemma encode_file_rules_acyclic_witness :
  ~ on_cycle
      [("L414141410000", [("DEFAULT", JStr "41414141")]);
       ("L424242420000", [("DEFAULT", JStr "42424242")])]
      [("R0", ("L414141410000", "L424242420000"))] "R0".
Proof.
  apply (encode_file_rules_acyclic toy_hash "sample.bin" sample_input None
           ["DEFAULT"] 4 2
           {| tpl_meta := {| chunk_size := 4; orig_file := "sample.bin";
                             total_chunks := 4 |};
              dictionary :=
                [("L414141410000", [("DEFAULT", JStr "41414141")]);
                 ("L424242420000", [("DEFAULT", JStr "42424242")])];
              rules := [("R0", ("L414141410000", "L424242420000"))];
              sequence := "R0,R0" |}).
  vm_compute. reflexivity.
Defined.

(* ------------------------------------------------------------------ *)
(** ** [encode_file]: every symbol of the template is defined          *)
(* ------------------------------------------------------------------ *)

Lemma dict_get_set_preserved {K V} `{EqDec K} (d : dict K V) k v s :
  dict_get d s <> None -> dict_get (dict_set d k v) s <> None.
Proof.
  intros Hs. destruct (eq_dec k s) as [-> | Hne].
  - rewrite dict_get_set_same. discriminate.
  - now rewrite dict_get_set_other.
Qed.

Lemma fold_set_context_preserved sym v (ctxs : list string) s : forall td,
  dict_get td s <> None ->
  dict_get (fold_left (fun td ctx => set_context td sym ctx v) ctxs td) s
  <> None.
Proof.
  induction ctxs as [ | c r IH]; intros td Hs; [ exact Hs | ].
  cbn [fold_left]. apply IH. unfold set_context.
  now apply dict_get_set_preserved.
Qed.

(** The second pass removes no key. *)
Lemma pass2_preserved short_hash contexts (local : dict string symbol) s :
  forall rest td seen,
    dict_get td s <> None ->
    dict_get (pass2 short_hash contexts local rest td seen) s <> None.
Proof.
  induction rest as [ | chunk rest IH]; intros td seen Hs; [ exact Hs | ].
  cbn [pass2].
  match goal with
  | |- dict_get (let '(_, _) := ?step in _) _ <> _ =>
      assert (Hstep : exists td' seen',
                 step = (td', seen') /\ dict_get td' s <> None)
  end.
  { destruct (dict_get local (short_hash chunk)) as [sym | ];
      [ | now exists td, seen ].
    destruct (set_mem string_dec (short_hash chunk) seen);
      [ now exists td, seen | ].
    eexists _, _. split; [ reflexivity | ].
    now apply fold_set_context_preserved. }
  destruct Hstep as (td' & seen' & -> & Hs').
  destruct (_ =? _)%nat; [ exact Hs' | now apply IH ].
Qed.

(** Every key of the global dictionary is a key of the template
    dictionary. *)
Lemma update_entries_keys (gd : dict symbol entry) : forall td0 sym,
  In sym (dict_keys gd) \/ dict_get td0 sym <> None ->
  dict_get
    (fold_left (fun td sm => update_entry td (fst sm) (snd sm)) gd td0) sym
  <> None.
Proof.
  induction gd as [ | [k m] r IH]; intros td0 sym Hs; cbn [fold_left].
  - destruct Hs as [[] | Hs]. exact Hs.
  - apply IH. cbn [fst snd]. destruct Hs as [[<- | Hin] | Hs].
    + right. unfold update_entry. rewrite dict_get_set_same. discriminate.
    + now left.
    + right. unfold update_entry. now apply dict_get_set_preserved.
Qed.

Lemma comma_free_step max minf st st' :
  rules_iter max minf st = Continue st' ->
  Forall comma_free (rs_seq st) -> Forall comma_free (rs_seq st').
Proof.
  intros Hit Hall. apply rules_iter_continue in Hit.
  destruct Hit as (a & b & freq & _ & _ & _ & ->). cbn [rs_seq].
  rewrite Forall_forall in *. intros x Hx.
  rewrite rewrite_pair_spec in Hx. apply rewrite_spec_In in Hx.
  destruct Hx as [-> | Hx]; [ apply new_sym_comma_free | now apply Hall ].
Qed.

Lemma build_hierarchical_rules_comma_free seq0 max minf seq' rules_ :
  build_hierarchical_rules seq0 max minf = Some (seq', rules_) ->
  Forall comma_free seq0 -> Forall comma_free seq'.
Proof.
  intros Hrun Hall. apply build_hierarchical_rules_state in Hrun.
  destruct Hrun as (st & Hloop & <- & _).
  exact (rules_loop_invariant (fun st => Forall comma_free (rs_seq st))
           max minf (comma_free_step max minf) _ _ _ Hloop Hall).
Qed.

Lemma build_hierarchical_rules_closed seq0 max minf seq' rules_ :
  build_hierarchical_rules seq0 max minf = Some (seq', rules_) ->
  (forall x, In x seq' -> In x seq0 \/ In x (dict_keys rules_))
  /\ (forall s a b, In (s, (a, b)) rules_ ->
        (In a seq0 \/ In a (dict_keys rules_))
        /\ (In b seq0 \/ In b (dict_keys rules_))).
Proof.
  intros Hrun. apply build_hierarchical_rules_state in Hrun.
  destruct Hrun as (st & Hloop & <- & <-).
  apply (rules_loop_invariant
           (fun st => rules_named st /\ grammar_closed seq0 st)
           max minf (grammar_closed_step seq0 max minf) _ _ _ Hloop).
  split; [ reflexivity | ]. split.
  - intros x Hx. now left.
  - intros s a b [].
Qed.

Lemma is_known_dictionary (dictionary_ : dict symbol entry) rules_ s :
  dict_get dictionary_ s <> None -> is_known dictionary_ rules_ s = true.
Proof.
  unfold is_known, dict_mem. destruct (dict_get dictionary_ s);
    [ reflexivity | congruence ].
Qed.

Lemma is_known_rules (dictionary_ : dict symbol entry) (rules_ : ruleset) s :
  In s (dict_keys rules_) -> is_known dictionary_ rules_ s = true.
Proof.
  intros Hin. unfold is_known. apply orb_true_iff. right.
  unfold dict_mem. destruct (dict_get rules_ s) eqn:Hg; [ reflexivity | ].
  apply dict_get_None_keys in Hg. contradiction.
Qed.

(** The symbol of every chunk is a key of the template dictionary, as
    soon as one context is configured. *)
Lemma chunk_symbols_defined short_hash (dict_file : option global_entries)
    (contexts : list string) data size :
  contexts <> [] ->
  let global_dict := load_global_dict dict_file in
  let chunks := stream_chunks data size in
  let p1 := pass1 short_hash (build_hash_to_sym global_dict) chunks in
  let td0 := fold_left (fun td sm => update_entry td (fst sm) (snd sm))
               global_dict [] in
  let td := match p1_local p1 with
            | [] => td0
            | _ :: _ => pass2 short_hash contexts (p1_local p1) chunks td0 []
            end in
  forall x, In x (p1_sequence p1) -> dict_get td x <> None.
Proof.
  intros Hctx global_dict chunks p1 td0 td x Hx.
  destruct (pass1_spec short_hash (build_hash_to_sym global_dict) chunks)
    as (Hseq & _ & Hnd & Hloc & Hall).
  fold p1 in Hseq, Hnd, Hloc, Hall.
  rewrite Hseq in Hx. apply in_map_iff in Hx. destruct Hx as (c & <- & Hc).
  unfold symbol_of.
  destruct (dict_get (build_hash_to_sym global_dict) (short_hash c))
    as [g | ] eqn:Hg.
  - (* a global symbol *)
    destruct (build_hash_to_sym_spec global_dict (short_hash c)) as [Hs _].
    destruct (Hs g Hg) as [_ Hin].
    assert (Htd0 : dict_get td0 g <> None).
    { apply update_entries_keys. now left. }
    unfold td. destruct (p1_local p1); [ exact Htd0 | ].
    now apply pass2_preserved.
  - (* a local symbol *)
    pose proof (Hall c Hc Hg) as Hget.
    unfold td. destruct (p1_local p1) as [ | kv loc] eqn:Eloc;
      [ discriminate | ].
    rewrite <- Eloc in *.
    destruct contexts as [ | ctx ctxs]; [ congruence | ].
    assert (Hcap : captured short_hash (ctx :: ctxs) chunks
                     (pass2 short_hash (ctx :: ctxs) (p1_local p1) chunks
                        td0 [])
                     (short_hash c)).
    { apply (pass2_captures short_hash (ctx :: ctxs) (p1_local p1) chunks
               (fun h s Hs => proj1 (Hloc h s Hs)) Hnd chunks [] td0 []).
      - reflexivity.
      - constructor.
      - intros h [].
      - intros c' [].
      - exact Hc.
      - eapply dict_get_Some_keys. exact Hget. }
    destruct (Hcap ctx (or_introl eq_refl)) as (e & c' & He & _).
    rewrite He. discriminate.
Qed.

(** X10.  With at least one context configured, a template that
    [encode_file] returns has no dangling reference: every symbol of
    its sequence, as the decoder splits it, and every operand of its
    rules is a key of its dictionary or of its rules.  [short_hash] is
    any function that returns twelve lower-case hexadecimal digits. *)
Theorem template_has_no_dangling_symbol
    (short_hash : bytes -> string) (input_name : string) (data : bytes)
    (dict_file : option global_entries) (contexts : list string)
    (size : nat) (min_pair_freq : Z) (tpl : template)
    (Hhash : forall b, is_hex12 (short_hash b) = true)
    (Hctx : contexts <> [])
    (Henc : encode_file short_hash input_name data dict_file contexts size
              min_pair_freq = Some tpl) :
  Forall (fun x => is_known (dictionary tpl) (rules tpl) x = true)
    (parse_sequence (sequence tpl))
  /\ (forall s a b, In (s, (a, b)) (rules tpl) ->
        is_known (dictionary tpl) (rules tpl) a = true
        /\ is_known (dictionary tpl) (rules tpl) b = true).
Proof.
  pose proof (chunk_symbols_defined short_hash dict_file contexts data size
                Hctx) as Hdef. cbn zeta in Hdef.
  apply encode_file_parts in Henc. cbn zeta in Henc.
  destruct Henc as (seq' & rules_ & Hrun & ->).
  cbn [dictionary rules sequence].
  destruct (build_hierarchical_rules_closed _ _ _ _ _ Hrun) as [Hseq Hops].
  assert (Hknown : forall x,
            In x (p1_sequence
                    (pass1 short_hash
                       (build_hash_to_sym (load_global_dict dict_file))
                       (stream_chunks data size)))
            \/ In x (dict_keys rules_) ->
            is_known
              match p1_local
                      (pass1 short_hash
                         (build_hash_to_sym (load_global_dict dict_file))
                         (stream_chunks data size)) with
              | [] =>
                  fold_left (fun td sm => update_entry td (fst sm) (snd sm))
                    (load_global_dict dict_file) []
              | _ :: _ =>
                  pass2 short_hash contexts
                    (p1_local
                       (pass1 short_hash
                          (build_hash_to_sym (load_global_dict dict_file))
                          (stream_chunks data size)))
                    (stream_chunks data size)
                    (fold_left
                       (fun td sm => update_entry td (fst sm) (snd sm))
                       (load_global_dict dict_file) []) []
              end rules_ x = true).
  { intros x [Hx | Hx].
    - apply is_known_dictionary. now apply Hdef.
    - now apply is_known_rules. }
  split.
  - rewrite parse_sequence_join.
    + apply Forall_forall. intros x Hx. apply Hknown. now apply Hseq.
    + eapply build_hierarchical_rules_comma_free; [ exact Hrun | ].
      destruct (pass1_spec short_hash
                  (build_hash_to_sym (load_global_dict dict_file))
                  (stream_chunks data size)) as (Hp1 & _).
      rewrite Hp1. apply Forall_forall. intros x Hx.
      apply in_map_iff in Hx. destruct Hx as (c & <- & _).
      apply symbol_of_comma_free, Hhash.
  - intros s a b Hin. destruct (Hops _ _ _ Hin) as [Ha Hb].
    split; now apply Hknown.
Qed.

Lemma template_has_no_dangling_symbol_witness :
  let tpl :=
    {| tpl_meta := {| chunk_size := 4; orig_file := "sample.bin";
                      total_chunks := 4 |};
       dictionary :=
         [("L414141410000", [("DEFAULT", JStr "41414141")]);
          ("L424242420000", [("DEFAULT", JStr "42424242")])];
       rules := [("R0", ("L414141410000", "L424242420000"))];
       sequence := "R0,R0" |} in
  Forall (fun x => is_known (dictionary tpl) (rules tpl) x = true)
    (parse_sequence (sequence tpl))
  /\ (forall s a b, In (s, (a, b)) (rules tpl) ->
        is_known (dictionary tpl) (rules tpl) a = true
        /\ is_known (dictionary tpl) (rules tpl) b = true).
Proof.
  apply (template_has_no_dangling_symbol toy_hash "sample.bin" sample_input
           None ["DEFAULT"] 4 2).
  - exact toy_hash_hex12.
  - discriminate.
  - vm_compute. reflexivity.
Defined.

(* ------------------------------------------------------------------ *)
(** ** Payload capture: what an entry of a local symbol holds          *)
(* ------------------------------------------------------------------ *)

Lemma dict_set_In_value {K V} `{EqDec K} (d : dict K V) c v k w :
  In (k, w) (dict_set d c v) -> w = v \/ In (k, w) d.
Proof.
  induction d as [ | [k0 v0] r IH]; simpl.
  - intros [[= _ <-] | []]. now left.
  - destruct (eq_dec k0 c) as [E | E]; simpl.
    + intros [[= _ <-] | Hin]; [ now left | right; now right ].
    + intros [Hin | Hin]; [ right; now left | ].
      destruct (IH Hin) as [Hw | Hr]; [ now left | right; now right ].
Qed.

Lemma dict_set_not_nil {K V} `{EqDec K} (d : dict K V) c v :
  dict_set d c v <> [].
Proof.
  destruct d as [ | [k0 v0] r]; simpl; [ discriminate | ].
  destruct (eq_dec k0 c); discriminate.
Qed.

(** After [for ctx in contexts: template_dict[sym][ctx] = v] on a symbol
    that had no entry, the entry holds [v] and nothing else. *)
Lemma set_context_fold_uniform sym v (ctxs : list string) :
  forall td : dict symbol entry,
  (dict_get td sym = None
   \/ exists e : entry, dict_get td sym = Some e /\ e <> []
                /\ forall k w, In (k, w) e -> w = v) ->
  ctxs <> [] \/ dict_get td sym <> None ->
  exists e,
    dict_get (fold_left (fun td ctx => set_context td sym ctx v) ctxs td) sym
    = Some e
    /\ e <> [] /\ forall k w, In (k, w) e -> w = v.
Proof.
  induction ctxs as [ | c r IH]; intros td Huni Hne; cbn [fold_left].
  - destruct Hne as [Hne | Hne]; [ congruence | ].
    destruct Huni as [Hn | Hex]; [ congruence | exact Hex ].
  - apply IH.
    + right. unfold set_context. rewrite dict_get_set_same.
      eexists. split; [ reflexivity | ]. split; [ apply dict_set_not_nil | ].
      intros k w Hin. apply dict_set_In_value in Hin.
      destruct Hin as [Hw | Hin]; [ exact Hw | ].
      destruct Huni as [Hn | (e & He & _ & Hall)].
      * rewrite Hn in Hin. contradiction.
      * rewrite He in Hin. eapply Hall. exact Hin.
    + right. unfold set_context. rewrite dict_get_set_same. discriminate.
Qed.

(** Without a context the second pass writes nothing. *)
Lemma pass2_no_context short_hash (local : dict string symbol) :
  forall rest td seen, pass2 short_hash [] local rest td seen = td.
Proof.
  induction rest as [ | chunk rest IH]; intros td seen; [ reflexivity | ].
  cbn [pass2].
  match goal with
  | |- (let '(_, _) := ?step in _) = _ =>
      assert (Hstep : exists seen', step = (td, seen'))
  end.
  { destruct (dict_get local (short_hash chunk)); [ | now exists seen ].
    destruct (set_mem string_dec (short_hash chunk) seen);
      [ now exists seen | ].
    eexists. reflexivity. }
  destruct Hstep as (seen' & ->).
  destruct (_ =? _)%nat; [ reflexivity | apply IH ].
Qed.

Section CaptureAll.
Variable short_hash : bytes -> string.
Variable contexts : list string.
Variable local : dict string symbol.
Variable chunks : list bytes.

Hypothesis contexts_not_empty : contexts <> [].
Hypothesis local_named :
  forall h s, dict_get local h = Some s -> s = ("L" ++ h)%string.
Hypothesis local_nodup : NoDup (dict_keys local).

(** What holds between two turns of the second pass, entry by entry. *)
Lemma pass2_captures_all (rest : list bytes) : forall done td seen,
  chunks = done ++ rest ->
  NoDup seen ->
  (forall h, In h seen ->
     In h (dict_keys local) /\ captured_all short_hash chunks td h) ->
  (forall h, In h (dict_keys local) -> ~ In h seen ->
     dict_get td ("L" ++ h)%string = None) ->
  (forall c, In c done -> In (short_hash c) (dict_keys local) ->
     In (short_hash c) seen) ->
  forall c, In c chunks -> In (short_hash c) (dict_keys local) ->
    captured_all short_hash chunks
      (pass2 short_hash contexts local rest td seen) (short_hash c).
Proof.
  induction rest as [ | chunk rest IH];
    intros done td seen Hchunks Hnd Hseen Hnone Hdone c Hc Hkey.
  - rewrite app_nil_r in Hchunks. subst done. simpl.
    apply Hseen. now apply Hdone.
  - cbn [pass2]. set (h := short_hash chunk).
    match goal with
    | |- captured_all _ _ (let '(_, _) := ?step in _) _ =>
        assert (Hstep :
          exists td' seen',
            step = (td', seen')
            /\ NoDup seen'
            /\ (forall h', In h' seen' ->
                  In h' (dict_keys local)
                  /\ captured_all short_hash chunks td' h')
            /\ (forall h', In h' (dict_keys local) -> ~ In h' seen' ->
                  dict_get td' ("L" ++ h')%string = None)
            /\ (forall c', In c' (done ++ [chunk]) ->
                  In (short_hash c') (dict_keys local) ->
                  In (short_hash c') seen'))
    end.
    { destruct (dict_get local h) as [sym | ] eqn:Hl.
      - destruct (set_mem string_dec h seen) eqn:Hm.
        + exists td, seen. split; [ reflexivity | ].
          split; [ assumption | ]. split; [ assumption | ].
          split; [ assumption | ].
          intros c' Hin Hk. apply in_app_iff in Hin.
          destruct Hin as [Hin | [<- | []]]; [ now apply Hdone | ].
          eapply set_mem_correct1. exact Hm.
        + eexists _, _. split; [ reflexivity | ].
          assert (Hnotin : ~ In h seen).
          { eapply set_mem_complete1. exact Hm. }
          pose proof (local_named _ _ Hl) as Esym. subst sym.
          assert (Hhkey : In h (dict_keys local)).
          { eapply dict_get_Some_keys. exact Hl. }
          destruct (set_context_fold ("L" ++ h)%string (JStr (hex chunk))
                      contexts td) as [Hother _].
          destruct (set_context_fold_uniform ("L" ++ h)%string
                      (JStr (hex chunk)) contexts td)
            as (e & He & Hne & Hall);
            [ left; now apply Hnone | now left | ].
          split; [ now apply set_add_nodup | ]. split; [ | split ].
          * intros h' Hin. apply set_add_iff in Hin.
            destruct Hin as [-> | Hin].
            -- split; [ exact Hhkey | ].
               exists e, chunk. repeat split; try assumption.
               rewrite Hchunks. apply in_elt.
            -- destruct (Hseen _ Hin) as [Hk Hcap]. split; [ assumption | ].
               destruct Hcap as (e' & c' & He' & Hne' & Hall' & Hin' & Hh).
               exists e', c'. repeat split; try assumption.
               rewrite Hother; [ assumption | ].
               intros [= Eh]. apply Hnotin. now rewrite <- Eh.
          * intros h' Hk Hns. rewrite Hother.
            -- apply Hnone; [ exact Hk | ].
               intros Hin. apply Hns. apply set_add_iff. now right.
            -- intros [= Eh]. apply Hns. apply set_add_iff. now left.
          * intros c' Hin Hk. apply set_add_iff. apply in_app_iff in Hin.
            destruct Hin as [Hin | [<- | []]]; [ right; now apply Hdone | ].
            now left.
      - exists td, seen. split; [ reflexivity | ].
        split; [ assumption | ]. split; [ assumption | ].
        split; [ assumption | ].
        intros c' Hin Hk. apply in_app_iff in Hin.
        destruct Hin as [Hin | [<- | []]]; [ now apply Hdone | ].
        exfalso. apply dict_get_None_keys in Hl. contradiction. }
    destruct Hstep as (td' & seen' & -> & Hnd' & Hseen' & Hnone' & Hdone').
    rewrite (local_values_distinct local local_named local_nodup).
    destruct (Nat.eqb_spec (List.length seen') (List.length local))
      as [Hlen | Hlen].
    + apply Hseen'.
      assert (Hincl : incl (dict_keys local) seen').
      { apply NoDup_length_incl; [ assumption | | ].
        - unfold dict_keys. rewrite length_map. lia.
        - intros h' Hin. now apply Hseen'. }
      now apply Hincl.
    + apply (IH (done ++ [chunk])); try assumption.
      rewrite <- app_assoc. exact Hchunks.
Qed.
End CaptureAll.

(** An entry that is not empty and holds one hexadecimal text under
    every key expands to the bytes of that text under every context. *)
Lemma expand_uniform_entry (dictionary_ : dict symbol entry)
    (rules_ : ruleset) context d sym (e : entry) (b : bytes) :
  dict_get dictionary_ sym = Some e ->
  e <> [] ->
  (forall k v, In (k, v) e -> v = JStr (hex b)) ->
  expand_symbol dictionary_ rules_ context (S d) sym = Ok b.
Proof.
  intros He Hne Hall. cbn [expand_symbol]. rewrite He.
  destruct (dict_get e context) as [v | ] eqn:Hc.
  - apply dict_get_In in Hc. rewrite (Hall _ _ Hc). apply fromhex_hex.
  - destruct (dict_get e "DEFAULT") as [v | ] eqn:Hd.
    + apply dict_get_In in Hd. rewrite (Hall _ _ Hd). apply fromhex_hex.
    + destruct e as [ | [k v] r]; [ congruence | ].
      cbn [dict_values map snd first_usable].
      rewrite (Hall k v (or_introl eq_refl)), fromhex_hex. reflexivity.
Qed.

(* ------------------------------------------------------------------ *)
(** ** Round trip under every context, with or without a global        *)
(** ** dictionary                                                      *)
(* ------------------------------------------------------------------ *)

Lemma Forall2_map_right {A B} (P : A -> B -> Prop) (f : A -> B) (l : list A) :
  (forall x, In x l -> P x (f x)) -> Forall2 P l (map f l).
Proof.
  induction l as [ | x r IH]; intros HP; simpl; constructor.
  - apply HP. now left.
  - apply IH. intros y Hy. apply HP. now right.
Qed.

(** The round trip, for a global dictionary whose keys all start with
    [S] and whose entries, where the input uses them, hold the bytes of
    the chunk. *)
Lemma round_trip_core (short_hash : bytes -> string) input_name data
    dict_file contexts size min_pair_freq :
  (forall b, is_hex12 (short_hash b) = true) ->
  0 < size ->
  contexts <> [] ->
  (forall c1 c2,
      In c1 (stream_chunks data size) -> In c2 (stream_chunks data size) ->
      short_hash c1 = short_hash c2 -> c1 = c2) ->
  let td0 := fold_left (fun td sm => update_entry td (fst sm) (snd sm))
               (load_global_dict dict_file) [] in
  (forall s, dict_get td0 s <> None -> startswith_S s = true) ->
  (forall c (e : entry),
      In c (stream_chunks data size) ->
      dict_get td0 ("S" ++ short_hash c)%string = Some e ->
      e <> [] /\ forall k v, In (k, v) e -> v = JStr (hex c)) ->
  exists tpl,
    encode_file short_hash input_name data dict_file contexts size
      min_pair_freq = Some tpl
    /\ forall context depth out_before,
         List.length (rules tpl) < depth ->
         decode_template tpl context depth out_before = (Ok tt, Some data).
Proof.
  intros Hhash Hsize Hctx Hno_collision td0 HS HE.
  unfold encode_file. cbn zeta. fold td0.
  set (gd := load_global_dict dict_file) in *.
  set (chunks := stream_chunks data size) in *.
  destruct (pass1_spec short_hash (build_hash_to_sym gd) chunks)
    as (Hseq & _ & Hnd & Hloc & Hall).
  set (p1 := pass1 short_hash (build_hash_to_sym gd) chunks) in *.
  cbn zeta in Hseq.
  assert (Hnamed : forall h s, dict_get (p1_local p1) h = Some s ->
                   s = ("L" ++ h)%string).
  { intros h s Hs. now destruct (Hloc h s Hs). }
  assert (Hstart : forall s, startswith_S s = false -> dict_get td0 s = None).
  { intros s Hs. destruct (dict_get td0 s) eqn:Hg; [ | reflexivity ].
    assert (Ht : startswith_S s = true) by (apply HS; congruence).
    congruence. }
  set (td := match p1_local p1 with
             | [] => td0
             | _ :: _ => pass2 short_hash contexts (p1_local p1) chunks td0 []
             end).
  (* the second pass leaves the other symbols alone *)
  assert (Hsame : forall s, (forall h, s <> ("L" ++ h)%string) ->
                  dict_get td s = dict_get td0 s).
  { intros s Hs. unfold td. destruct (p1_local p1) as [ | kv loc] eqn:Eloc;
      [ reflexivity | ].
    rewrite <- Eloc in *. apply pass2_other_symbols.
    intros h sym Hsym. rewrite (Hnamed _ _ Hsym). apply not_eq_sym, Hs. }
  (* every chunk expands from its symbol, under every context *)
  assert (Hbase : forall context ch, In ch chunks ->
            expand_symbol td [] context 1
              (symbol_of (build_hash_to_sym gd) (short_hash ch)) = Ok ch).
  { intros context ch Hch. unfold symbol_of.
    destruct (dict_get (build_hash_to_sym gd) (short_hash ch))
      as [g | ] eqn:Hg.
    - destruct (build_hash_to_sym_spec gd (short_hash ch)) as [Hs _].
      destruct (Hs g Hg) as [-> Hin].
      assert (Htd0 : dict_get td0 ("S" ++ short_hash ch)%string <> None).
      { apply update_entries_keys. now left. }
      destruct (dict_get td0 ("S" ++ short_hash ch)%string) as [e | ] eqn:He;
        [ | congruence ].
      destruct (HE ch e Hch He) as [Hne Hvals].
      apply (expand_uniform_entry td [] context 0 _ e ch);
        [ | exact Hne | exact Hvals ].
      rewrite Hsame; [ exact He | ]. intros h. discriminate.
    - pose proof (Hall ch Hch Hg) as Hget.
      assert (Hcap : captured_all short_hash chunks td (short_hash ch)).
      { unfold td. destruct (p1_local p1) as [ | kv loc] eqn:Eloc;
          [ discriminate | ].
        rewrite <- Eloc in *.
        apply (pass2_captures_all short_hash contexts (p1_local p1) chunks
                 Hctx Hnamed Hnd chunks [] td0 []).
        - reflexivity.
        - constructor.
        - intros h [].
        - intros h _ _. now apply Hstart.
        - intros c' [].
        - exact Hch.
        - eapply dict_get_Some_keys. exact Hget. }
      destruct Hcap as (e & c' & He & Hne & Hvals & Hc' & Hh).
      assert (c' = ch) by now apply Hno_collision. subst c'.
      now apply (expand_uniform_entry td [] context 0 _ e ch). }
  (* no dictionary key is a rule name *)
  assert (Hnorule : forall j, dict_get td (new_sym j) = None).
  { intros j. rewrite Hsame; [ now apply Hstart | ].
    intros h. discriminate. }
  destruct (rules_loop_terminates 10000 min_pair_freq
              (S (List.length (p1_sequence p1)))
              (initial_rules_state (p1_sequence p1)))
    as (r & turns & Hloop & _ & _ & Hrnamed & _ & _);
    [ simpl; lia | reflexivity | simpl; lia | ].
  unfold build_hierarchical_rules, build_hierarchical_rules_fuel.
  rewrite Hloop. eexists. split; [ reflexivity | ].
  cbn [rules dictionary sequence].
  intros context depth out_before Hdepth.
  assert (Hinv : grammar_inv td context data r).
  { eapply grammar_inv_loop; [ exact Hnorule | exact Hloop | ].
    unfold grammar_inv, initial_rules_state.
    cbn [rs_seq rs_rules rs_next_idx].
    split; [ reflexivity | ]. rewrite Hseq.
    split; [ | split; [ | split ] ].
    - apply Forall_forall. intros s Hs. apply in_map_iff in Hs.
      destruct Hs as (ch & <- & _). apply symbol_of_fresh.
    - apply Forall_forall. intros s Hs. apply in_map_iff in Hs.
      destruct Hs as (ch & <- & _). apply symbol_of_comma_free, Hhash.
    - intros s x y [].
    - exists chunks. split; [ | now apply stream_chunks_concat ].
      unfold expands_to.
      apply (Forall2_map_left
               (fun s v => expand_symbol td [] context 1 s = Ok v)
               (fun ch => symbol_of (build_hash_to_sym gd) (short_hash ch))).
      apply Hbase. }
  destruct Hinv as (_ & _ & Hcomma & _ & vs & Hvs & Hdata).
  rewrite (rules_named_length _ Hrnamed) in Hdepth.
  unfold decode_template. cbn [rules dictionary sequence].
  rewrite parse_sequence_join by exact Hcomma.
  rewrite (write_loop_expands _ _ _ _ _ vs []).
  - now rewrite Hdata.
  - unfold expands_to in *.
    eapply Forall2_impl; [ | exact Hvs ].
    intros s v Hs. eapply expand_symbol_more_depth; [ exact Hs | lia ].
Qed.

(** With an empty context list and no global dictionary, [encode_file]
    still returns a template, but its dictionary is empty: no chunk is
    stored, and [expand_symbol] without its cache turns every symbol of
    the sequence into no byte at all, on every stack that admits more
    activations than the template has rules. *)
Lemma empty_context_list_without_cache
    (short_hash : bytes -> string) (input_name : string) (data : bytes)
    (size : nat) (min_pair_freq : Z)
    (Hhash : forall b, is_hex12 (short_hash b) = true) :
  exists tpl,
    encode_file short_hash input_name data None [] size min_pair_freq
    = Some tpl
    /\ dictionary tpl = []
    /\ forall context depth out_before,
         List.length (rules tpl) < depth ->
         decode_template tpl context depth out_before = (Ok tt, Some []).
Proof.
  unfold encode_file.
  change (load_global_dict None) with (@nil (symbol * entry)).
  change (build_hash_to_sym []) with (@nil (string * symbol)).
  cbn [fold_left].
  set (chunks := stream_chunks data size).
  destruct (pass1_spec short_hash [] chunks) as (Hseq & _).
  set (p1 := pass1 short_hash [] chunks) in *. cbn zeta in Hseq.
  destruct (rules_loop_terminates 10000 min_pair_freq
              (S (List.length (p1_sequence p1)))
              (initial_rules_state (p1_sequence p1)))
    as (r & turns & Hloop & _ & _ & Hrnamed & _ & _);
    [ simpl; lia | reflexivity | simpl; lia | ].
  unfold build_hierarchical_rules, build_hierarchical_rules_fuel.
  rewrite Hloop. eexists. split; [ reflexivity | ].
  cbn [rules dictionary sequence].
  split; [ destruct (p1_local p1); [ reflexivity | apply pass2_no_context ] | ].
  intros context depth out_before Hdepth.
  assert (Hinv : grammar_inv [] context [] r).
  { eapply grammar_inv_loop; [ reflexivity | exact Hloop | ].
    unfold grammar_inv, initial_rules_state.
    cbn [rs_seq rs_rules rs_next_idx].
    split; [ reflexivity | ]. rewrite Hseq.
    split; [ | split; [ | split ] ].
    - apply Forall_forall. intros s Hs. apply in_map_iff in Hs.
      destruct Hs as (ch & <- & _). apply local_sym_fresh.
    - apply Forall_forall. intros s Hs. apply in_map_iff in Hs.
      destruct Hs as (ch & <- & _). apply local_sym_comma_free, Hhash.
    - intros s x y [].
    - exists (map (fun _ => []) (map (fun c => symbol_of [] (short_hash c))
                                   chunks)).
      split.
      + unfold expands_to. apply Forall2_map_right. reflexivity.
      + clear. induction (map _ chunks); [ reflexivity | assumption ]. }
  destruct Hinv as (_ & _ & Hcomma & _ & vs & Hvs & Hdata).
  rewrite (rules_named_length _ Hrnamed) in Hdepth.
  unfold decode_template. cbn [rules dictionary sequence].
  rewrite parse_sequence_join by exact Hcomma.
  match goal with
  | |- context [write_loop ?D] =>
      assert (HD : D = []) by
        (destruct (p1_local p1); [ reflexivity | apply pass2_no_context ]);
      rewrite HD
  end.
  rewrite (write_loop_expands _ _ _ _ _ vs []).
  - now rewrite Hdata.
  - unfold expands_to in *.
    eapply Forall2_impl; [ | exact Hvs ].
    intros s v Hs. eapply expand_symbol_more_depth; [ exact Hs | lia ].
Qed.

(* ------------------------------------------------------------------ *)
(** ** [build_global_dict]                                             *)
(* ------------------------------------------------------------------ *)

Lemma fold_left_flat_map {A B C} (f : A -> C -> A) (g : B -> list C)
    (l : list B) : forall a,
  fold_left (fun st d => fold_left f (g d) st) l a
  = fold_left f (flat_map g l) a.
Proof.
  induction l as [ | d r IH]; intros a; [ reflexivity | ].
  cbn [fold_left flat_map]. now rewrite fold_left_app, IH.
Qed.

Lemma find_snoc {A} (f : A -> bool) (l : list A) (x : A) :
  find f (l ++ [x])
  = match find f l with
    | Some y => Some y
    | None => if f x then Some x else None
    end.
Proof.
  induction l as [ | y r IH]; simpl; [ reflexivity | ].
  destruct (f y); [ reflexivity | exact IH ].
Qed.

Lemma find_In_some {A} (f : A -> bool) (l : list A) (x : A) :
  In x l -> f x = true -> find f l <> None.
Proof.
  intros Hin Hf Hnone.
  pose proof (find_none f l Hnone x Hin). congruence.
Qed.

Section GlobalDictFacts.
Variable short_hash : bytes -> string.

(** The scan counts every fingerprint and keeps the first chunk met with
    it. *)
Lemma scan_spec (cs : list bytes) :
  let st := fold_left (scan_step short_hash) cs
              {| sc_counts := []; sc_sample_map := []; sc_total := 0 |} in
  sc_counts st = fold_left counter_incr (map short_hash cs) []
  /\ (forall h, dict_get (sc_sample_map st) h
                = first_with_hash short_hash h cs)
  /\ sc_total st = List.length cs.
Proof.
  induction cs as [ | c cs IH] using rev_ind.
  - simpl. auto.
  - rewrite fold_left_app. cbn [fold_left].
    set (st := fold_left (scan_step short_hash) cs
                 {| sc_counts := []; sc_sample_map := []; sc_total := 0 |})
      in *.
    cbn zeta in IH. destruct IH as (Hcounts & Hsamples & Htotal).
    cbn zeta. unfold scan_step. cbn [sc_counts sc_sample_map sc_total].
    split; [ | split ].
    + rewrite map_app, fold_left_app. cbn [map fold_left].
      now rewrite Hcounts.
    + intros h. unfold first_with_hash. rewrite find_snoc.
      fold (first_with_hash short_hash h cs). rewrite <- Hsamples.
      unfold dict_mem.
      destruct (dict_get (sc_sample_map st) (short_hash c)) as [x | ] eqn:Hx.
      * destruct (dict_get (sc_sample_map st) h) as [y | ] eqn:Hy;
          [ reflexivity | ].
        destruct (string_dec (short_hash c) h) as [E | E];
          [ congruence | reflexivity ].
      * destruct (string_dec (short_hash c) h) as [E | E].
        -- subst h. rewrite dict_get_set_same, Hx. reflexivity.
        -- rewrite dict_get_set_other by assumption.
           destruct (dict_get (sc_sample_map st) h); reflexivity.
    + rewrite length_app. simpl. lia.
Qed.

Lemma scan_files_spec files size :
  scan_files short_hash files size
  = fold_left (scan_step short_hash) (sample_chunks files size)
      {| sc_counts := []; sc_sample_map := []; sc_total := 0 |}.
Proof. unfold scan_files, sample_chunks. apply fold_left_flat_map. Qed.

(** [collect_entries] touches the key ["S" + h] of a counted fingerprint
    that meets the threshold, and no other key. *)
Lemma collect_entries_other min_freq sample_map items :
  forall entries entries' s,
    collect_entries min_freq sample_map items entries = Some entries' ->
    (forall h n, In (h, n) items -> (min_freq <= Z.of_nat n)%Z ->
                 s <> ("S" ++ h)%string) ->
    dict_get entries' s = dict_get entries s.
Proof.
  induction items as [ | [h0 n0] r IH]; intros entries entries' s Hrun Hs.
  - simpl in Hrun. now injection Hrun as <-.
  - cbn [collect_entries] in Hrun.
    destruct (Z.leb_spec min_freq (Z.of_nat n0)) as [Hle | Hlt].
    + destruct (dict_get sample_map h0) as [c0 | ]; [ | discriminate ].
      rewrite (IH _ _ s Hrun).
      * apply dict_get_set_other. apply not_eq_sym.
        apply (Hs h0 n0); [ now left | exact Hle ].
      * intros h n Hin. apply Hs. now right.
    + apply (IH _ _ s Hrun). intros h n Hin. apply Hs. now right.
Qed.

Lemma collect_entries_spec min_freq sample_map items :
  NoDup (map fst items) ->
  (forall h n, In (h, n) items -> dict_get sample_map h <> None) ->
  forall entries,
  exists entries',
    collect_entries min_freq sample_map items entries = Some entries'
    /\ (forall h n c0, In (h, n) items ->
          dict_get sample_map h = Some c0 ->
          (min_freq <= Z.of_nat n)%Z ->
          dict_get entries' ("S" ++ h)%string = Some (global_entry c0 n))
    /\ (NoDup (dict_keys entries) -> NoDup (dict_keys entries')).
Proof.
  induction items as [ | [h0 n0] r IH]; intros Hnd Htotal entries.
  - exists entries. split; [ reflexivity | ]. split; [ | auto ].
    intros h n c0 [].
  - cbn [map fst] in Hnd. inversion Hnd as [ | ? ? Hh0 Hr]; subst.
    assert (Htotal' : forall h n, In (h, n) r ->
                      dict_get sample_map h <> None).
    { intros h n Hin. apply (Htotal h n). now right. }
    cbn [collect_entries].
    destruct (Z.leb_spec min_freq (Z.of_nat n0)) as [Hle | Hlt].
    + destruct (dict_get sample_map h0) as [c0 | ] eqn:Hc0.
      2:{ exfalso. apply (Htotal h0 n0); [ now left | exact Hc0 ]. }
      destruct (IH Hr Htotal'
                  (dict_set entries ("S" ++ h0)%string (global_entry c0 n0)))
        as (entries' & Hrun & Hget & Hkeys).
      exists entries'. split; [ exact Hrun | ]. split.
      * intros h n c Hin Hc Hn. destruct Hin as [[= <- <-] | Hin].
        -- rewrite (collect_entries_other _ _ _ _ _ _ Hrun).
           ++ rewrite dict_get_set_same. congruence.
           ++ intros h n Hin _ [= <-]. apply Hh0.
              apply in_map_iff. now exists (h0, n).
        -- now apply (Hget h n c).
      * intros Hk. apply Hkeys. now apply dict_set_keys_NoDup.
    + destruct (IH Hr Htotal' entries) as (entries' & Hrun & Hget & Hkeys).
      exists entries'. split; [ exact Hrun | ]. split; [ | exact Hkeys ].
      intros h n c Hin Hc Hn. destruct Hin as [[= <- <-] | Hin]; [ lia | ].
      now apply (Hget h n c).
Qed.

Lemma collect_entries_keys min_freq sample_map items :
  forall entries entries' s,
    collect_entries min_freq sample_map items entries = Some entries' ->
    dict_get entries' s <> None ->
    dict_get entries s <> None
    \/ exists h n, In (h, n) items /\ (min_freq <= Z.of_nat n)%Z
                   /\ s = ("S" ++ h)%string.
Proof.
  induction items as [ | [h0 n0] r IH]; intros entries entries' s Hrun Hs.
  - simpl in Hrun. injection Hrun as <-. now left.
  - cbn [collect_entries] in Hrun.
    destruct (Z.leb_spec min_freq (Z.of_nat n0)) as [Hle | Hlt].
    + destruct (dict_get sample_map h0) as [c0 | ]; [ | discriminate ].
      destruct (IH _ _ s Hrun Hs) as [Hset | (h & n & Hin & Hn & ->)].
      * destruct (string_dec ("S" ++ h0)%string s) as [<- | Hne].
        -- right. exists h0, n0. split; [ now left | auto ].
        -- left. now rewrite dict_get_set_other in Hset.
      * right. exists h, n. split; [ now right | auto ].
    + destruct (IH _ _ s Hrun Hs) as [Hset | (h & n & Hin & Hn & ->)].
      * now left.
      * right. exists h, n. split; [ now right | auto ].
Qed.

(** The counter of the scan, item by item. *)
Lemma scan_counts_items (cs : list bytes) :
  let counts := fold_left counter_incr (map short_hash cs) [] in
  NoDup (map fst counts)
  /\ (forall h n, In (h, n) counts ->
        n = count_occ eq_dec (map short_hash cs) h
        /\ In h (map short_hash cs))
  /\ (forall h, In h (map short_hash cs) ->
        In (h, count_occ eq_dec (map short_hash cs) h) counts).
Proof.
  intros counts.
  destruct (counter_keys_fold (map short_hash cs)) as (Hnd & Hkeys & _).
  fold counts in Hnd, Hkeys.
  pose proof (fun h => counter_get_fold (map short_hash cs) [] h) as Hcnt.
  fold counts in Hcnt. cbn in Hcnt.
  assert (Hitem : forall h n, In (h, n) counts ->
                  n = count_occ eq_dec (map short_hash cs) h).
  { intros h n Hin. rewrite <- Hcnt. unfold counter_get.
    now rewrite (dict_get_NoDup_In _ _ _ Hnd Hin). }
  split; [ exact Hnd | ]. split.
  - intros h n Hin. split; [ now apply Hitem | ].
    apply Hkeys. unfold dict_keys. apply in_map_iff. now exists (h, n).
  - intros h Hh. apply Hkeys in Hh. unfold dict_keys in Hh.
    apply in_map_iff in Hh. destruct Hh as ([h' n] & Eh & Hin).
    simpl in Eh. subst h'. now rewrite <- (Hitem _ _ Hin).
Qed.

(** [build_global_dict], entry by entry. *)
Lemma build_global_dict_spec (files : list bytes) (size : nat)
    (min_freq : Z) :
  let cs := sample_chunks files size in
  let count h := count_occ eq_dec (map short_hash cs) h in
  exists g,
    build_global_dict short_hash files size min_freq = Some g
    /\ gd_chunk_size g = Z.of_nat size
    /\ gd_min_freq g = min_freq
    /\ NoDup (dict_keys (gd_entries g))
    /\ (forall c, In c cs ->
          (min_freq <= Z.of_nat (count (short_hash c)))%Z ->
          exists c0,
            first_with_hash short_hash (short_hash c) cs = Some c0
            /\ dict_get (gd_entries g) ("S" ++ short_hash c)%string
               = Some (global_entry c0 (count (short_hash c))))
    /\ (forall s, dict_get (gd_entries g) s <> None ->
          exists c, In c cs /\ s = ("S" ++ short_hash c)%string
                    /\ (min_freq <= Z.of_nat (count (short_hash c)))%Z).
Proof.
  intros cs count. unfold build_global_dict.
  rewrite scan_files_spec. fold cs.
  destruct (scan_spec cs) as (Hcounts & Hsamples & _).
  cbn zeta in Hcounts, Hsamples. rewrite Hcounts.
  destruct (scan_counts_items cs) as (Hnd & Hitems & Hall).
  cbn zeta in Hnd, Hitems, Hall.
  set (counts := fold_left counter_incr (map short_hash cs) []) in *.
  set (sample_map := sc_sample_map _) in *.
  assert (Hfirst : forall c, In c cs ->
            exists c0, dict_get sample_map (short_hash c) = Some c0).
  { intros c Hc. rewrite Hsamples. unfold first_with_hash.
    destruct (find _ cs) as [c0 | ] eqn:Hf; [ now exists c0 | ].
    exfalso. eapply (find_In_some _ cs c Hc); [ | exact Hf ].
    cbv beta. destruct (string_dec (short_hash c) (short_hash c));
      congruence. }
  destruct (collect_entries_spec min_freq sample_map counts Hnd) with
    (entries := @nil (symbol * entry)) as (entries & Hrun & Hget & Hkeys).
  { intros h n Hin. destruct (Hitems h n Hin) as [_ Hh].
    apply in_map_iff in Hh. destruct Hh as (c & <- & Hc).
    destruct (Hfirst c Hc) as (c0 & ->). discriminate. }
  rewrite Hrun. eexists. split; [ reflexivity | ].
  cbn [gd_chunk_size gd_min_freq gd_entries].
  split; [ reflexivity | ]. split; [ reflexivity | ].
  split; [ apply Hkeys; constructor | ]. split.
  - intros c Hc Hn. destruct (Hfirst c Hc) as (c0 & Hc0).
    exists c0. split; [ now rewrite <- Hsamples | ].
    apply Hget; [ | exact Hc0 | exact Hn ].
    apply Hall. apply in_map. exact Hc.
  - intros s Hs.
    destruct (collect_entries_keys _ _ _ _ _ s Hrun Hs)
      as [Hnil | (h & n & Hin & Hn & ->)]; [ now elim Hnil | ].
    destruct (Hitems h n Hin) as [-> Hh].
    apply in_map_iff in Hh. destruct Hh as (c & <- & Hc).
    exists c. auto.
Qed.
End GlobalDictFacts.

(** X13.  [build_global_dict] always returns (the lookup of a sample
    never fails), records the chunk size and the threshold, and its
    entries are exactly these: for every fingerprint that occurs in the
    sample files at least [min_freq] times, the key ["S"] followed by
    the fingerprint, with the hexadecimal text of the first chunk
    scanned with that fingerprint under ["DEFAULT"] and the number of
    occurrences under ["freq"]. *)
Theorem build_global_dict_entries
    (short_hash : bytes -> string) (files : list bytes) (size : nat)
    (min_freq : Z) :
  let cs := sample_chunks files size in
  let count h := count_occ eq_dec (map short_hash cs) h in
  exists g,
    build_global_dict short_hash files size min_freq = Some g
    /\ gd_chunk_size g = Z.of_nat size
    /\ gd_min_freq g = min_freq
    /\ (forall c, In c cs ->
          (min_freq <= Z.of_nat (count (short_hash c)))%Z ->
          exists c0,
            first_with_hash short_hash (short_hash c) cs = Some c0
            /\ dict_get (gd_entries g) ("S" ++ short_hash c)%string
               = Some [("DEFAULT", JStr (hex c0));
                       ("freq", JNum (Z.of_nat (count (short_hash c))))])
    /\ (forall s, dict_get (gd_entries g) s <> None ->
          exists c, In c cs /\ s = ("S" ++ short_hash c)%string
                    /\ (min_freq <= Z.of_nat (count (short_hash c)))%Z).
Proof.
  intros cs count.
  destruct (build_global_dict_spec short_hash files size min_freq)
    as (g & Hrun & Hsize & Hmin & _ & Hget & Hkeys).
  exists g. repeat split; assumption.
Qed.

(* ------------------------------------------------------------------ *)
(** ** From the dictionary file to the template dictionary             *)
(* ------------------------------------------------------------------ *)

Lemma dict_get_map_values {K V W} `{EqDec K} (f : V -> W) (d : dict K V) s :
  dict_get (map (fun kv => (fst kv, f (snd kv))) d) s
  = option_map f (dict_get d s).
Proof.
  induction d as [ | [k v] r IH]; simpl; [ reflexivity | ].
  destruct (eq_dec k s); [ reflexivity | exact IH ].
Qed.

Lemma dict_keys_map_values {K V W} (f : V -> W) (d : dict K V) :
  dict_keys (map (fun kv => (fst kv, f (snd kv))) d) = dict_keys d.
Proof. unfold dict_keys. rewrite map_map. reflexivity. Qed.

(** Storing under keys that are new and pairwise distinct appends. *)
Lemma fold_dict_set_fresh {K V W} `{EqDec K} (g : V -> W)
    (l : list (K * V)) : forall acc : dict K W,
  NoDup (map fst l) ->
  (forall x, In x l -> dict_get acc (fst x) = None) ->
  fold_left (fun d x => dict_set d (fst x) (g (snd x))) l acc
  = acc ++ map (fun x => (fst x, g (snd x))) l.
Proof.
  induction l as [ | x r IH]; intros acc Hnd Hnew; cbn [fold_left map].
  - now rewrite app_nil_r.
  - cbn [map] in Hnd. inversion Hnd as [ | ? ? Hx Hr]; subst.
    rewrite dict_set_new by (apply Hnew; now left).
    rewrite IH; [ now rewrite <- app_assoc | exact Hr | ].
    intros y Hy. rewrite dict_get_app, (Hnew y (or_intror Hy)). simpl.
    destruct (eq_dec (fst x) (fst y)) as [E | E]; [ | reflexivity ].
    exfalso. apply Hx. rewrite E. now apply in_map.
Qed.

Lemma load_global_dict_entries (entries : global_entries) :
  NoDup (dict_keys entries) ->
  load_global_dict (Some entries)
  = map (fun si => (fst si, strip_freq (snd si))) entries.
Proof.
  intros Hnd. unfold load_global_dict.
  rewrite (fold_dict_set_fresh strip_freq entries []); [ reflexivity | | ].
  - exact Hnd.
  - reflexivity.
Qed.

Lemma update_entries_fresh (gd : dict symbol entry) :
  forall acc : dict symbol entry,
  NoDup (dict_keys gd) ->
  (forall x, In x gd -> dict_get acc (fst x) = None) ->
  fold_left (fun td sm => update_entry td (fst sm) (snd sm)) gd acc
  = acc ++ map (fun sm => (fst sm, updated (snd sm))) gd.
Proof.
  induction gd as [ | x r IH]; intros acc Hnd Hnew; cbn [fold_left map].
  - now rewrite app_nil_r.
  - unfold dict_keys in Hnd. cbn [map] in Hnd.
    inversion Hnd as [ | ? ? Hx Hr]; subst.
    unfold update_entry at 2. rewrite (Hnew x (or_introl eq_refl)).
    fold (updated (snd x)).
    rewrite dict_set_new by (apply Hnew; now left).
    rewrite IH; [ now rewrite <- app_assoc | exact Hr | ].
    intros y Hy. rewrite dict_get_app, (Hnew y (or_intror Hy)). simpl.
    destruct (eq_dec (fst x) (fst y)) as [E | E]; [ | reflexivity ].
    exfalso. apply Hx. rewrite E. now apply in_map.
Qed.

(** The template dictionary before the second pass, read off the
    dictionary file. *)
Lemma template_dict_of_entries (entries : global_entries) s :
  NoDup (dict_keys entries) ->
  dict_get
    (fold_left (fun td sm => update_entry td (fst sm) (snd sm))
       (load_global_dict (Some entries)) []) s
  = option_map (fun m => updated (strip_freq m)) (dict_get entries s).
Proof.
  intros Hnd. rewrite load_global_dict_entries by exact Hnd.
  rewrite update_entries_fresh.
  - cbn [app]. rewrite map_map. cbn [fst snd].
    apply (dict_get_map_values (fun m => updated (strip_freq m))).
  - now rewrite dict_keys_map_values.
  - reflexivity.
Qed.

Lemma dict_get_keys_iff {K V} `{EqDec K} (d : dict K V) k :
  In k (dict_keys d) <-> dict_get d k <> None.
Proof.
  split.
  - intros Hin Hn. apply dict_get_None_keys in Hn. contradiction.
  - intros Hn. destruct (dict_get d k) eqn:Hg; [ | congruence ].
    eapply dict_get_Some_keys. exact Hg.
Qed.

(** The round trip against a global dictionary that [build_global_dict]
    made, on [expand_symbol] without its cache: for every set of sample
    files, every input, every positive chunk size and every non-empty
    context list, the dictionary is built, the template is produced,
    and decoding it under any context writes exactly the input, on
    every stack that admits more activations than the template has
    rules; provided that no two different chunks among those of the
    samples and of the input share a fingerprint. *)
Lemma round_trip_with_global_dict_without_cache
    (short_hash : bytes -> string) (files : list bytes) (dict_size : nat)
    (min_freq : Z) (input_name : string) (data : bytes)
    (contexts : list string) (size : nat) (min_pair_freq : Z)
    (Hhash : forall b, is_hex12 (short_hash b) = true)
    (Hsize : 0 < size)
    (Hctx : contexts <> [])
    (Hno_collision :
       forall c1 c2,
         In c1 (sample_chunks files dict_size ++ stream_chunks data size) ->
         In c2 (sample_chunks files dict_size ++ stream_chunks data size) ->
         short_hash c1 = short_hash c2 -> c1 = c2) :
  exists g tpl,
    build_global_dict short_hash files dict_size min_freq = Some g
    /\ encode_file short_hash input_name data (Some (gd_entries g)) contexts
         size min_pair_freq = Some tpl
    /\ forall context depth out_before,
         List.length (rules tpl) < depth ->
         decode_template tpl context depth out_before = (Ok tt, Some data).
Proof.
  destruct (build_global_dict_spec short_hash files dict_size min_freq)
    as (g & Hrun & _ & _ & Hnd & Hget & Hkeys).
  cbn zeta in Hget, Hkeys.
  assert (Hentry : forall s (e : entry),
            dict_get
              (fold_left (fun td sm => update_entry td (fst sm) (snd sm))
                 (load_global_dict (Some (gd_entries g))) []) s = Some e ->
            exists c0,
              In c0 (sample_chunks files dict_size)
              /\ s = ("S" ++ short_hash c0)%string
              /\ e = [("DEFAULT", JStr (hex c0))]).
  { intros s e He. rewrite template_dict_of_entries in He by exact Hnd.
    destruct (dict_get (gd_entries g) s) as [m | ] eqn:Hm; [ | discriminate ].
    destruct (Hkeys s) as (c & Hc & -> & Hn); [ congruence | ].
    destruct (Hget c Hc Hn) as (c0 & Hfirst & Hm').
    rewrite Hm in Hm'. injection Hm' as ->.
    apply find_some in Hfirst. destruct Hfirst as [Hc0 Hh].
    destruct (string_dec (short_hash c0) (short_hash c)) as [E | ];
      [ | discriminate ].
    exists c0. split; [ exact Hc0 | ]. split; [ now rewrite E | ].
    simpl in He. injection He as <-. reflexivity. }
  exists g.
  destruct (round_trip_core short_hash input_name data
              (Some (gd_entries g)) contexts size min_pair_freq)
    as (tpl & Henc & Hdec); try assumption.
  - intros c1 c2 H1 H2. apply Hno_collision; apply in_app_iff; now right.
  - intros s Hs.
    destruct (dict_get _ s) as [e | ] eqn:He; [ | congruence ].
    destruct (Hentry s e He) as (c0 & _ & -> & _). reflexivity.
  - intros c e Hc He.
    destruct (Hentry _ e He) as (c0 & Hc0 & [= Hh] & ->).
    assert (c = c0).
    { apply Hno_collision; [ | | exact Hh ]; apply in_app_iff;
        [ now right | now left ]. }
    subst c0. split; [ discriminate | ].
    intros k v [[= _ <-] | []]. reflexivity.
  - exists tpl. auto.
Qed.

(** X15.  Cross-file deduplication, end to end: against a global
    dictionary that [build_global_dict] made, the first pass of
    [encode_file] emits for a chunk with the fingerprint [h] the global
    symbol ["S" + h] exactly when [h] occurs in the sample files, at
    least [min_freq] times; otherwise it emits the local symbol
    ["L" + h]. *)
Theorem global_symbol_iff_frequent
    (short_hash : bytes -> string) (files : list bytes) (dict_size : nat)
    (min_freq : Z) (data : bytes) (size : nat) :
  exists g,
    build_global_dict short_hash files dict_size min_freq = Some g
    /\ let chunks := stream_chunks data size in
       let p1 :=
         pass1 short_hash
           (build_hash_to_sym (load_global_dict (Some (gd_entries g))))
           chunks in
       forall i c, nth_error chunks i = Some c ->
         let n := count_occ eq_dec
                    (map short_hash (sample_chunks files dict_size))
                    (short_hash c) in
         nth_error (p1_sequence p1) i
         = Some (if (0 <? n)%nat && (min_freq <=? Z.of_nat n)%Z
                 then ("S" ++ short_hash c)%string
                 else ("L" ++ short_hash c)%string).
Proof.
  destruct (build_global_dict_spec short_hash files dict_size min_freq)
    as (g & Hrun & _ & _ & Hnd & Hget & Hkeys).
  cbn zeta in Hget, Hkeys.
  exists g. split; [ exact Hrun | ]. intros chunks p1 i c Hi n.
  destruct (pass1_spec short_hash
              (build_hash_to_sym (load_global_dict (Some (gd_entries g))))
              chunks) as (Hseq & _).
  fold p1 in Hseq. rewrite Hseq, nth_error_map, Hi. cbn [option_map].
  f_equal. unfold symbol_of.
  set (gd := load_global_dict (Some (gd_entries g))).
  destruct (build_hash_to_sym_spec gd (short_hash c)) as [Hs1 Hs2].
  assert (Hgd : In ("S" ++ short_hash c)%string (dict_keys gd)
                <-> dict_get (gd_entries g) ("S" ++ short_hash c)%string
                    <> None).
  { unfold gd. rewrite load_global_dict_entries by exact Hnd.
    rewrite dict_keys_map_values. apply dict_get_keys_iff. }
  destruct ((0 <? n)%nat && (min_freq <=? Z.of_nat n)%Z) eqn:Hq.
  - apply andb_prop in Hq. destruct Hq as [Hpos Hmin].
    apply Nat.ltb_lt in Hpos. apply Z.leb_le in Hmin.
    assert (Hin : In (short_hash c)
                    (map short_hash (sample_chunks files dict_size))).
    { apply (count_occ_In eq_dec). exact Hpos. }
    apply in_map_iff in Hin. destruct Hin as (c1 & Eh & Hc1).
    destruct (Hget c1 Hc1) as (c0 & _ & Hentry).
    { rewrite Eh. exact Hmin. }
    rewrite Eh in Hentry.
    rewrite Hs2; [ reflexivity | ]. apply Hgd. congruence.
  - destruct (dict_get (build_hash_to_sym gd) (short_hash c)) as [s | ] eqn:Hs;
      [ | reflexivity ].
    exfalso. destruct (Hs1 s eq_refl) as [-> Hin].
    apply Hgd in Hin. destruct (Hkeys _ Hin) as (c1 & Hc1 & [= Eh] & Hmin).
    rewrite <- Eh in Hmin. fold n in Hmin.
    assert (Hpos : 0 < n).
    { apply (count_occ_In eq_dec). rewrite Eh. now apply in_map. }
    apply andb_false_iff in Hq. destruct Hq as [Hq | Hq].
    + apply Nat.ltb_ge in Hq. lia.
    + apply Z.leb_gt in Hq. lia.
Qed.

(* ------------------------------------------------------------------ *)
(** ** Edge cases of the encoder                                       *)
(* ------------------------------------------------------------------ *)

Lemma stream_chunks_none (data : bytes) (size : nat) :
  size = 0 \/ data = [] -> stream_chunks data size = [].
Proof.
  intros [-> | ->]; [ reflexivity | ].
  unfold stream_chunks. apply stream_chunks_fuel_nil.
Qed.

(** X16.  When the input yields no chunk, because it is empty or because
    the chunk size is 0 (the first read returns no byte), [encode_file]
    still returns a template: its sequence is the empty string, it has
    no rule, it declares zero chunks, and decoding it under any context
    writes a file of length zero.  A chunk size of 0 therefore loses the
    whole input without an error. *)
Theorem no_chunk_gives_empty_template
    (short_hash : bytes -> string) (input_name : string) (data : bytes)
    (dict_file : option global_entries) (contexts : list string)
    (size : nat) (min_pair_freq : Z)
    (Hnone : size = 0 \/ data = []) :
  exists tpl,
    encode_file short_hash input_name data dict_file contexts size
      min_pair_freq = Some tpl
    /\ sequence tpl = EmptyString
    /\ rules tpl = []
    /\ total_chunks (tpl_meta tpl) = 0%Z
    /\ forall context depth out_before,
         decode_template tpl context depth out_before = (Ok tt, Some []).
Proof.
  unfold encode_file. rewrite (stream_chunks_none data size Hnone).
  cbn. eexists. split; [ reflexivity | ].
  repeat split.
Qed.

Lemma no_chunk_gives_empty_template_witness :
  exists tpl,
    encode_file toy_hash "sample.bin" sample_input None ["DEFAULT"] 0 2
    = Some tpl
    /\ sequence tpl = EmptyString
    /\ rules tpl = []
    /\ total_chunks (tpl_meta tpl) = 0%Z
    /\ forall context depth out_before,
         decode_template tpl context depth out_before = (Ok tt, Some []).
Proof.
  apply (no_chunk_gives_empty_template toy_hash "sample.bin" sample_input
           None ["DEFAULT"] 0 2).
  now left.
Defined.

(** X17.  The template carries the whole global dictionary: every key
    of the loaded global dictionary is a key of the dictionary of the
    template, whether the input uses it or not. *)
Theorem template_embeds_global_dict
    (short_hash : bytes -> string) (input_name : string) (data : bytes)
    (dict_file : option global_entries) (contexts : list string)
    (size : nat) (min_pair_freq : Z) (tpl : template) (sym : symbol)
    (Henc : encode_file short_hash input_name data dict_file contexts size
              min_pair_freq = Some tpl)
    (Hkey : In sym (dict_keys (load_global_dict dict_file))) :
  dict_get (dictionary tpl) sym <> None.
Proof.
  apply encode_file_parts in Henc. cbn zeta in Henc.
  destruct Henc as (seq' & rules_ & _ & ->). cbn [dictionary].
  assert (Htd0 : dict_get
                   (fold_left
                      (fun td sm => update_entry td (fst sm) (snd sm))
                      (load_global_dict dict_file) []) sym <> None).
  { apply update_entries_keys. now left. }
  destruct (p1_local _); [ exact Htd0 | now apply pass2_preserved ].
Qed.

Lemma template_embeds_global_dict_witness :
  dict_get
    [("S424242420000", [("DEFAULT", JStr "42424242")]);
     ("L414141410000", [("VIDEO", JStr "41414141")])]
    "S424242420000" <> None.
Proof.
  apply (template_embeds_global_dict toy_hash "a.bin" [x41; x41; x41; x41]
           (Some [("S424242420000",
                   [("DEFAULT", JStr "42424242"); ("freq", JNum 2)])])
           ["VIDEO"] 4 2
           {| tpl_meta := {| chunk_size := 4; orig_file := "a.bin";
                             total_chunks := 1 |};
              dictionary :=
                [("S424242420000", [("DEFAULT", JStr "42424242")]);
                 ("L414141410000", [("VIDEO", JStr "41414141")])];
              rules := [];
              sequence := "L414141410000" |}).
  - vm_compute. reflexivity.
  - vm_compute. tauto.
Defined.

(* ------------------------------------------------------------------ *)
(** ** Edge cases of the Grammar Compressor                            *)
(* ------------------------------------------------------------------ *)

Lemma rules_iter_break_below max minf st :
  (max <= Z.of_nat (List.length (rs_rules st)))%Z
  \/ (forall p, In p (adjacent_pairs (rs_seq st)) ->
        (Z.of_nat (count_occ eq_dec (adjacent_pairs (rs_seq st)) p)
         < minf)%Z) ->
  rules_iter max minf st = Break.
Proof.
  intros Hstop. unfold rules_iter.
  destruct (most_common1 (count_pairs (rs_seq st)))
    as [[[a b] freq] | ] eqn:Hsel; [ | reflexivity ].
  rewrite count_pairs_adjacent in Hsel.
  apply most_common1_first_seen in Hsel. destruct Hsel as (Hf & Hpos & _).
  destruct Hstop as [Hmax | Hlow].
  - destruct (Z.leb_spec max (Z.of_nat (List.length (rs_rules st))));
      [ now rewrite orb_true_r | lia ].
  - assert (Hin : In (a, b) (adjacent_pairs (rs_seq st))).
    { apply (count_occ_In eq_dec). lia. }
    specialize (Hlow _ Hin). rewrite <- Hf in Hlow.
    destruct (Z.ltb_spec (Z.of_nat freq) minf); [ reflexivity | lia ].
Qed.

(** X18.  [build_hierarchical_rules] returns its input unchanged, with
    no rule, when the budget [max_new_symbols] is zero or negative, or
    when no adjacent pair of the input occurs [min_pair_freq] times;
    the latter covers the empty and the one-symbol sequence. *)
Theorem grammar_leaves_input_alone
    (seq0 : list symbol) (max_new_symbols min_pair_freq : Z)
    (Hstop : (max_new_symbols <= 0)%Z
             \/ (forall p, In p (adjacent_pairs seq0) ->
                   (Z.of_nat (count_occ eq_dec (adjacent_pairs seq0) p)
                    < min_pair_freq)%Z)) :
  build_hierarchical_rules seq0 max_new_symbols min_pair_freq
  = Some (seq0, []).
Proof.
  unfold build_hierarchical_rules, build_hierarchical_rules_fuel.
  cbn [rules_loop].
  rewrite rules_iter_break_below; [ reflexivity | ].
  cbn [initial_rules_state rs_rules rs_seq List.length].
  destruct Hstop as [Hmax | Hlow]; [ left; lia | now right ].
Qed.

Lemma grammar_leaves_input_alone_witness :
  build_hierarchical_rules ["a"; "b"; "c"; "a"] 10000 2
  = Some (["a"; "b"; "c"; "a"], []).
Proof.
  apply (grammar_leaves_input_alone ["a"; "b"; "c"; "a"] 10000 2).
  right. intros p Hp. simpl in Hp.
  destruct Hp as [<- | [<- | [<- | []]]]; vm_compute; reflexivity.
Defined.

(** X19.  Compressing twice changes nothing: when
    [build_hierarchical_rules] returned with fewer rules than its
    budget, running it on the sequence it returned, with the same
    threshold and any budget, returns that sequence again and no
    rule. *)
Theorem grammar_is_idempotent
    (seq0 : list symbol) (max_new_symbols min_pair_freq : Z)
    (seq' : list symbol) (rules_ : ruleset) (max_again : Z)
    (Hrun : build_hierarchical_rules seq0 max_new_symbols min_pair_freq
            = Some (seq', rules_))
    (Hbudget : (Z.of_nat (List.length rules_) < max_new_symbols)%Z) :
  build_hierarchical_rules seq' max_again min_pair_freq = Some (seq', []).
Proof.
  apply build_hierarchical_rules_state in Hrun.
  destruct Hrun as (st & Hloop & <- & <-).
  apply rules_loop_break in Hloop.
  unfold build_hierarchical_rules, build_hierarchical_rules_fuel.
  cbn [rules_loop].
  rewrite rules_iter_break_below; [ reflexivity | ].
  cbn [initial_rules_state rs_rules rs_seq List.length]. right.
  intros p Hp. unfold rules_iter in Hloop.
  destruct (most_common1 (count_pairs (rs_seq st)))
    as [[[a b] freq] | ] eqn:Hsel.
  - rewrite count_pairs_adjacent in Hsel.
    apply most_common1_first_seen in Hsel.
    destruct Hsel as (_ & _ & Hmax & _). specialize (Hmax p).
    destruct (Z.ltb_spec (Z.of_nat freq) min_pair_freq) as [Hlt | Hge];
      [ lia | ].
    destruct (Z.leb_spec max_new_symbols
                (Z.of_nat (List.length (rs_rules st)))) as [Hle | Hgt];
      [ lia | discriminate ].
  - apply most_common1_none_no_pair in Hsel. rewrite Hsel in Hp.
    contradiction.
Qed.

Lemma grammar_is_idempotent_witness :
  build_hierarchical_rules ["R0"; "R0"] 5 2 = Some (["R0"; "R0"], []).
Proof.
  apply (grammar_is_idempotent ["a"; "b"; "a"; "b"] 10000 2
           ["R0"; "R0"] [("R0", ("a", "b"))] 5 eq_refl).
  simpl. lia.
Defined.

(* ================================================================== *)
(** * Part IV.  The decoder with its cache and the stack               *)
(* ================================================================== *)

(* ------------------------------------------------------------------ *)
(** ** The cache of [expand_symbol]                                    *)
(* ------------------------------------------------------------------ *)

Lemma In_removelast {A} (l : list A) (x : A) : In x (removelast l) -> In x l.
Proof.
  induction l as [ | y r IH]; simpl; [ tauto | ].
  destruct r as [ | z r']; [ intros [] | ].
  intros [Hx | Hx]; [ now left | right; now apply IH ].
Qed.

Section CachedDecoderFacts.
Variable dictionary_ : dict symbol entry.
Variable rules_ : ruleset.
Variable context : string.

Local Abbreviation expand := (expand_symbol dictionary_ rules_ context).
Local Abbreviation cached :=
  (expand_symbol_cached dictionary_ rules_ context).
Local Abbreviation sound := (lru_sound dictionary_ rules_ context).

(** The bytes of a symbol do not depend on the stack that was left. *)
Lemma expand_symbol_deterministic d1 d2 sym v1 v2 :
  expand d1 sym = Ok v1 -> expand d2 sym = Ok v2 -> v1 = v2.
Proof.
  intros H1 H2.
  pose proof (expand_symbol_more_depth dictionary_ rules_ context
                d1 (Nat.max d1 d2) sym v1 H1 (Nat.le_max_l _ _)) as H1'.
  pose proof (expand_symbol_more_depth dictionary_ rules_ context
                d2 (Nat.max d1 d2) sym v2 H2 (Nat.le_max_r _ _)) as H2'.
  congruence.
Qed.

Lemma expand_symbol_terminal d sym e :
  dict_get dictionary_ sym = Some e ->
  expand (S d) sym = resolve_entry context e.
Proof. intros He. cbn [expand_symbol]. now rewrite He. Qed.

Lemma cached_hit depth c sym v :
  dict_get c sym = Some v -> cached depth c sym = (Ok v, lru_touch c sym v).
Proof.
  intros Hc. destruct depth; cbn [expand_symbol_cached]; now rewrite Hc.
Qed.

Lemma cached_miss d c sym :
  dict_get c sym = None ->
  cached (S d) c sym
  = lru_return sym
      match dict_get dictionary_ sym with
      | Some e => (resolve_entry context e, c)
      | None =>
          match dict_get rules_ sym with
          | Some (a, b) =>
              match cached d c a with
              | (Ok x, c1) =>
                  match cached d c1 b with
                  | (Ok y, c2) => (Ok (x ++ y), c2)
                  | (Raise e, c2) => (Raise e, c2)
                  end
              | (Raise e, c1) => (Raise e, c1)
              end
          | None => (Ok [], c)
          end
      end.
Proof. intros Hc. cbn [expand_symbol_cached]. now rewrite Hc. Qed.

Lemma lru_touch_sound c sym v :
  sound c -> dict_get c sym = Some v -> sound (lru_touch c sym v).
Proof.
  intros Hc Hhit s w [[= <- <-] | Hin].
  - apply Hc. now apply dict_get_In.
  - apply filter_In in Hin. apply Hc. tauto.
Qed.

Lemma lru_store_sound c sym v d :
  sound c -> expand d sym = Ok v -> sound (lru_store c sym v).
Proof.
  intros Hc Hv. unfold lru_store.
  destruct (dict_get c sym); [ exact Hc | ].
  destruct (_ <=? _)%N; intros s w [[= <- <-] | Hin]; eauto.
  apply Hc. now apply In_removelast.
Qed.

(** Where the function without the cache returns bytes, the cached
    function returns the same bytes within the same number of
    activations, whatever sound cache it starts from. *)
Lemma expand_symbol_cached_complete depth : forall c sym v,
  sound c ->
  expand depth sym = Ok v ->
  exists c', cached depth c sym = (Ok v, c') /\ sound c'.
Proof.
  induction depth as [ | d IH]; intros c sym v Hc Hv; [ discriminate | ].
  destruct (dict_get c sym) as [w | ] eqn:Hhit.
  - rewrite (cached_hit _ _ _ _ Hhit).
    destruct (Hc sym w (dict_get_In _ _ _ Hhit)) as (d' & Hw).
    rewrite (expand_symbol_deterministic _ _ _ _ _ Hw Hv) in *.
    eexists. split; [ reflexivity | now apply lru_touch_sound ].
  - rewrite (cached_miss _ _ _ Hhit).
    pose proof Hv as Hv'. cbn [expand_symbol] in Hv'.
    destruct (dict_get dictionary_ sym) as [e | ] eqn:Hd.
    + fold (resolve_entry context e) in Hv'. rewrite Hv'. cbn [lru_return].
      eexists. split; [ reflexivity | ]. eapply lru_store_sound; eassumption.
    + destruct (dict_get rules_ sym) as [[a b] | ] eqn:Hr.
      * destruct (expand d a) as [x | ex] eqn:Ea; [ | discriminate ].
        destruct (expand d b) as [y | ey] eqn:Eb; [ | discriminate ].
        cbn [bind] in Hv'. injection Hv' as <-.
        destruct (IH c a x Hc Ea) as (c1 & -> & Hc1).
        destruct (IH c1 b y Hc1 Eb) as (c2 & -> & Hc2).
        cbn [lru_return]. eexists. split; [ reflexivity | ].
        eapply lru_store_sound; eassumption.
      * injection Hv' as <-. cbn [lru_return].
        eexists. split; [ reflexivity | ]. eapply lru_store_sound; eassumption.
Qed.

(** What the cached function returns, the function without the cache
    returns when enough stack is left; and the cache stays sound. *)
Lemma expand_symbol_cached_sound depth : forall c sym r c',
  sound c ->
  cached depth c sym = (r, c') ->
  sound c' /\ forall v, r = Ok v -> exists d, expand d sym = Ok v.
Proof.
  induction depth as [ | d IH]; intros c sym r c' Hc Hrun.
  - destruct (dict_get c sym) as [w | ] eqn:Hhit.
    + rewrite (cached_hit _ _ _ _ Hhit) in Hrun. injection Hrun as <- <-.
      split; [ now apply lru_touch_sound | ].
      intros v [= <-]. apply Hc. now apply dict_get_In.
    + cbn [expand_symbol_cached] in Hrun. rewrite Hhit in Hrun.
      injection Hrun as <- <-. split; [ exact Hc | discriminate ].
  - destruct (dict_get c sym) as [w | ] eqn:Hhit.
    + rewrite (cached_hit _ _ _ _ Hhit) in Hrun. injection Hrun as <- <-.
      split; [ now apply lru_touch_sound | ].
      intros v [= <-]. apply Hc. now apply dict_get_In.
    + rewrite (cached_miss _ _ _ Hhit) in Hrun.
      assert (Hbody : forall rb cb,
                sound cb ->
                (forall v, rb = Ok v -> expand (S d) sym = Ok v
                                        \/ exists d', expand d' sym = Ok v) ->
                lru_return sym (rb, cb) = (r, c') ->
                sound c'
                /\ forall v, r = Ok v -> exists d', expand d' sym = Ok v).
      { intros rb cb Hcb Hrb Hret. destruct rb as [v | e]; cbn in Hret.
        - injection Hret as <- <-.
          assert (Hv : exists d', expand d' sym = Ok v).
          { destruct (Hrb v eq_refl) as [H | H]; eauto. }
          destruct Hv as (d' & Hv). split.
          + eapply lru_store_sound; eassumption.
          + intros v' [= <-]. eauto.
        - injection Hret as <- <-. split; [ exact Hcb | discriminate ]. }
      destruct (dict_get dictionary_ sym) as [e | ] eqn:Hd.
      * refine (Hbody _ _ Hc _ Hrun).
        intros v Hv. left. now rewrite (expand_symbol_terminal _ _ _ Hd).
      * destruct (dict_get rules_ sym) as [[a b] | ] eqn:Hr.
        -- destruct (cached d c a) as [ra c1] eqn:Ea.
           destruct (IH _ _ _ _ Hc Ea) as [Hc1 Hra].
           destruct ra as [x | ex].
           ++ destruct (cached d c1 b) as [rb c2] eqn:Eb.
              destruct (IH _ _ _ _ Hc1 Eb) as [Hc2 Hrb].
              destruct rb as [y | ey].
              ** refine (Hbody _ _ Hc2 _ Hrun).
                 intros v [= <-]. right.
                 destruct (Hra x eq_refl) as (da & Hx).
                 destruct (Hrb y eq_refl) as (db & Hy).
                 exists (S (Nat.max da db)).
                 rewrite (expand_symbol_rule _ _ _ _ _ a b Hd Hr).
                 rewrite (expand_symbol_more_depth _ _ _ da _ a x Hx
                            (Nat.le_max_l _ _)).
                 rewrite (expand_symbol_more_depth _ _ _ db _ b y Hy
                            (Nat.le_max_r _ _)).
                 reflexivity.
              ** refine (Hbody _ _ Hc2 _ Hrun). discriminate.
           ++ refine (Hbody _ _ Hc1 _ Hrun). discriminate.
        -- refine (Hbody _ _ Hc _ Hrun).
           intros v [= <-]. left. cbn [expand_symbol]. now rewrite Hd, Hr.
Qed.

(** The top-level loop with the cache writes what the expansions
    without the cache give. *)
Lemma write_loop_cached_expands depth (seq : list symbol) vs :
  expands_to dictionary_ rules_ context depth seq vs ->
  forall c out,
    sound c ->
    write_loop_cached dictionary_ rules_ context depth c seq out
    = (Ok tt, out ++ List.concat vs).
Proof.
  intros Hvs. induction Hvs as [ | s v r vs Hs Hr IH]; intros c out Hc; simpl.
  - now rewrite app_nil_r.
  - destruct (expand_symbol_cached_complete depth c s v Hc Hs)
      as (c' & -> & Hc').
    rewrite (IH c' (out ++ v) Hc'), app_assoc. reflexivity.
Qed.
End CachedDecoderFacts.

(** Where the decoder without the cache completes, the decoder with the
    cache completes within the same stack and writes the same file. *)
Lemma decode_template_cached_of_ok tpl context depth out_before f :
  decode_template tpl context depth out_before = (Ok tt, f) ->
  decode_template_cached tpl context depth out_before = (Ok tt, f).
Proof.
  unfold decode_template, decode_template_cached.
  destruct (write_loop_outcome (dictionary tpl) (rules tpl) context depth
              (parse_sequence (sequence tpl)) [])
    as [(vs & Hvs & Hw) | (pre & s & post & vs & e & _ & _ & _ & Hw)];
    rewrite Hw; [ | discriminate ].
  intros [= <-].
  rewrite (write_loop_cached_expands _ _ _ _ _ vs Hvs [] []);
    [ reflexivity | intros s v [] ].
Qed.

(* ------------------------------------------------------------------ *)
(** ** A grammar as deep as its input has different chunks             *)
(* ------------------------------------------------------------------ *)

Lemma adjacent_pairs_cons (x y : symbol) (r : list symbol) :
  adjacent_pairs (x :: y :: r) = (x, y) :: adjacent_pairs (y :: r).
Proof. reflexivity. Qed.

Lemma adjacent_pairs_mid (l1 l2 : list symbol) (a b : symbol) :
  In (a, b) (adjacent_pairs (l1 ++ a :: b :: l2)).
Proof.
  induction l1 as [ | x l1 IH]; [ now left | ].
  cbn [app]. destruct (l1 ++ a :: b :: l2) as [ | y r] eqn:E.
  - now destruct l1.
  - rewrite adjacent_pairs_cons. now right.
Qed.

(** A pair stands at most as often as its first component. *)
Lemma count_adjacent_le (l : list symbol) (a b : symbol) :
  count_occ eq_dec (adjacent_pairs l) (a, b) <= count_occ eq_dec l a.
Proof.
  induction l as [ | x l IH]; [ apply Nat.le_refl | ].
  destruct l as [ | y r]; [ apply Nat.le_0_l | ].
  rewrite adjacent_pairs_cons.
  destruct (eq_dec (x, y) (a, b)) as [E | N].
  - injection E as -> ->.
    rewrite count_occ_cons_eq by reflexivity.
    rewrite (count_occ_cons_eq eq_dec (b :: r) (x := a) (y := a))
      by reflexivity.
    apply le_n_S, IH.
  - rewrite count_occ_cons_neq by exact N.
    etransitivity; [ exact IH | ].
    destruct (eq_dec x a) as [-> | Nx].
    + rewrite (count_occ_cons_eq eq_dec (y :: r) (x := a) (y := a))
        by reflexivity.
      apply Nat.le_succ_diag_r.
    + rewrite (count_occ_cons_neq eq_dec (y :: r) (x := x) (y := a))
        by exact Nx.
      apply Nat.le_refl.
Qed.

(** In [h, t1, ..., h, t1, ...] with [h, t1, ...] pairwise different
    the leading pair stands twice, no pair more often, and it is the
    first the counter sees. *)
Lemma most_common1_repeated (h t1 : symbol) (T' : list symbol) :
  NoDup (h :: t1 :: T') ->
  most_common1 (count_pairs (h :: t1 :: T' ++ h :: t1 :: T'))
  = Some ((h, t1), 2).
Proof.
  intros Hnd.
  set (l := h :: t1 :: T' ++ h :: t1 :: T').
  assert (Hle : forall q, count_occ eq_dec (adjacent_pairs l) q <= 2).
  { intros [a b]. etransitivity; [ apply count_adjacent_le | ].
    change l with ((h :: t1 :: T') ++ h :: t1 :: T').
    rewrite count_occ_app.
    pose proof (proj1 (NoDup_count_occ eq_dec _) Hnd a). lia. }
  assert (Hge : 2 <= count_occ eq_dec (adjacent_pairs l) (h, t1)).
  { unfold l. rewrite adjacent_pairs_cons.
    rewrite count_occ_cons_eq by reflexivity. apply le_n_S.
    apply (proj1 (count_occ_In eq_dec _ _)).
    apply (adjacent_pairs_mid (t1 :: T') T' h t1). }
  destruct (most_common1 (count_pairs l)) as [[k f] | ] eqn:Hmc.
  - rewrite count_pairs_adjacent in Hmc.
    destruct (most_common1_first_seen _ _ _ Hmc) as (Hf & _ & Hmax & Hfirst).
    pose proof (Hmax (h, t1)) as H1. pose proof (Hle k) as H2.
    assert (Hf2 : f = 2) by lia.
    destruct (eq_dec k (h, t1)) as [-> | Hk]; [ now rewrite Hf2 | exfalso ].
    destruct (Hfirst (h, t1)) as (pre & post & Hsplit & Hk_pre & Hq_pre).
    { now apply not_eq_sym. }
    { rewrite Hf2. apply Nat.le_antisymm; [ apply Hle | exact Hge ]. }
    unfold l in Hsplit. rewrite adjacent_pairs_cons in Hsplit.
    destruct pre as [ | p pre].
    + injection Hsplit as Hhd _. now apply Hk.
    + injection Hsplit as Hhd _. apply Hq_pre. now left.
  - apply most_common1_none_no_pair in Hmc. discriminate.
Qed.

Lemma rewrite_spec_skip (a b ns x : symbol) (r : list symbol) :
  x <> a -> rewrite_spec a b ns (x :: r) = x :: rewrite_spec a b ns r.
Proof.
  intros Hx. cbn [rewrite_spec]. destruct r as [ | y r']; [ reflexivity | ].
  destruct (eq_dec x a); [ contradiction | reflexivity ].
Qed.

Lemma rewrite_spec_absent (a b ns : symbol) (l : list symbol) :
  ~ In a l -> rewrite_spec a b ns l = l.
Proof.
  induction l as [ | x r IH]; intros Hl; [ reflexivity | ].
  rewrite rewrite_spec_skip by (intros ->; apply Hl; now left).
  rewrite IH; [ reflexivity | ]. intros Hr. apply Hl. now right.
Qed.

Lemma rewrite_spec_prefix (a b ns : symbol) (l1 l2 : list symbol) :
  ~ In a l1 ->
  rewrite_spec a b ns (l1 ++ l2) = l1 ++ rewrite_spec a b ns l2.
Proof.
  induction l1 as [ | x r IH]; intros Hl; [ reflexivity | ].
  cbn [app]. rewrite rewrite_spec_skip by (intros ->; apply Hl; now left).
  rewrite IH; [ reflexivity | ]. intros Hr. apply Hl. now right.
Qed.

Lemma rewrite_spec_repeated (h t1 ns : symbol) (T' : list symbol) :
  NoDup (h :: t1 :: T') ->
  rewrite_spec h t1 ns (h :: t1 :: T' ++ h :: t1 :: T') = ns :: T' ++ ns :: T'.
Proof.
  intros Hnd.
  assert (Hh : ~ In h T').
  { apply NoDup_cons_iff in Hnd. destruct Hnd as [Hh _].
    intros Hin. apply Hh. now right. }
  assert (Hhead : forall r, rewrite_spec h t1 ns (h :: t1 :: r)
                            = ns :: rewrite_spec h t1 ns r).
  { intros r. cbn [rewrite_spec].
    destruct (eq_dec h h); [ | contradiction ].
    destruct (eq_dec t1 t1); [ reflexivity | contradiction ]. }
  rewrite Hhead, rewrite_spec_prefix by exact Hh.
  rewrite Hhead, rewrite_spec_absent by exact Hh. reflexivity.
Qed.

(** One turn of the loop on such a sequence: the leading pair becomes
    the next rule and both its occurrences are rewritten. *)
Lemma rules_iter_repeated (h t1 : symbol) (T' : list symbol) rl k :
  NoDup (h :: t1 :: T') ->
  (Z.of_nat (List.length rl) < 10000)%Z ->
  rules_iter 10000 2
    {| rs_seq := h :: t1 :: T' ++ h :: t1 :: T';
       rs_rules := rl; rs_next_idx := k |}
  = Continue {| rs_seq := new_sym k :: T' ++ new_sym k :: T';
                rs_rules := dict_set rl (new_sym k) (h, t1);
                rs_next_idx := S k |}.
Proof.
  intros Hnd Hlen. unfold rules_iter. cbn [rs_seq rs_rules rs_next_idx].
  rewrite most_common1_repeated by exact Hnd.
  replace (10000 <=? Z.of_nat (List.length rl))%Z with false
    by (symmetry; apply Z.leb_gt; lia).
  cbn [Z.of_nat Pos.of_succ_nat Pos.succ Z.ltb Z.compare Pos.compare
       Pos.compare_cont orb].
  now rewrite rewrite_pair_spec, rewrite_spec_repeated by exact Hnd.
Qed.

(** The loop stops on a sequence of one symbol, twice. *)
Lemma rules_iter_pair (h : symbol) rl k :
  rules_iter 10000 2 {| rs_seq := [h; h]; rs_rules := rl; rs_next_idx := k |}
  = Break.
Proof. reflexivity. Qed.

Lemma left_chain_extend dictionary_ (rules_ : ruleset) key v n s :
  left_chain dictionary_ rules_ n s ->
  dict_get rules_ key = None ->
  left_chain dictionary_ (dict_set rules_ key v) n s.
Proof.
  intros Hch Hkey.
  induction Hch as [s | n s a b Hd Hr Ha IH]; [ constructor | ].
  apply (left_chain_rule _ _ n s a b); [ exact Hd | | exact IH ].
  rewrite dict_get_set_other; [ exact Hr | ]. intros ->. congruence.
Qed.

(** The loop on [h, t1, ..., tm, h, t1, ..., tm]: one rule per [t], each
    with the rule before it as its first operand. *)
Lemma rules_loop_repeated dictionary_ : forall (T : list symbol) h rl k n fuel,
  NoDup (h :: T) ->
  (forall j, k <= j -> ~ In (new_sym j) T) ->
  dict_keys rl = map new_sym (List.seq 0 k) ->
  (Z.of_nat (k + List.length T) <= 10000)%Z ->
  List.length T < fuel ->
  (forall j, dict_get dictionary_ (new_sym j) = None) ->
  left_chain dictionary_ rl n h ->
  comma_free h ->
  exists r h',
    rules_loop fuel 10000 2
      {| rs_seq := h :: T ++ h :: T; rs_rules := rl; rs_next_idx := k |}
    = Some r
    /\ rs_seq r = [h'; h']
    /\ List.length (rs_rules r) = k + List.length T
    /\ left_chain dictionary_ (rs_rules r) (n + List.length T) h'
    /\ comma_free h'.
Proof.
  induction T as [ | t1 T' IH];
    intros h rl k n fuel Hnd Hfresh Hkeys Hcap Hfuel Hdict Hch Hcomma;
    (destruct fuel as [ | f]; [ inversion Hfuel | ]).
  - cbn [rules_loop app]. rewrite rules_iter_pair.
    eexists _, h. split; [ reflexivity | ].
    cbn [rs_seq rs_rules List.length].
    assert (Hlen : List.length rl = k).
    { rewrite <- (length_map fst rl). fold (dict_keys rl).
      now rewrite Hkeys, length_map, length_seq. }
    rewrite !Nat.add_0_r. auto.
  - assert (Hlen : List.length rl = k).
    { rewrite <- (length_map fst rl). fold (dict_keys rl).
      now rewrite Hkeys, length_map, length_seq. }
    cbn [List.length] in Hcap, Hfuel.
    assert (Hnew : dict_get rl (new_sym k) = None).
    { apply dict_get_None_keys. rewrite Hkeys. intros Hin.
      apply in_map_iff in Hin. destruct Hin as (j & Hj & Hin).
      apply new_sym_inj in Hj. subst j. apply in_seq in Hin. lia. }
    cbn [rules_loop app].
    rewrite rules_iter_repeated by (exact Hnd || lia).
    destruct (IH (new_sym k) (dict_set rl (new_sym k) (h, t1)) (S k) (S n) f)
      as (r & h' & Hloop & Hseq & Hrl & Hch' & Hcomma').
    + constructor.
      * apply (Hfresh k (Nat.le_refl k)) || (intros Hin;
          apply (Hfresh k (Nat.le_refl k)); now right).
      * apply NoDup_cons_iff in Hnd. destruct Hnd as [_ Hnd].
        apply NoDup_cons_iff in Hnd. tauto.
    + intros j Hj Hin. apply (Hfresh j); [ lia | now right ].
    + rewrite dict_keys_set_new by exact Hnew.
      rewrite Hkeys, seq_S, map_app. reflexivity.
    + lia.
    + lia.
    + exact Hdict.
    + apply (left_chain_rule _ _ n (new_sym k) h t1).
      * apply Hdict.
      * apply dict_get_set_same.
      * now apply left_chain_extend.
    + apply new_sym_comma_free.
    + exists r, h'. split; [ exact Hloop | ]. split; [ exact Hseq | ].
      cbn [List.length]. rewrite Hrl, <- Nat.add_succ_comm.
      split; [ lia | ]. split; [ | exact Hcomma' ].
      replace (n + S (List.length T')) with (S n + List.length T') by lia.
      exact Hch'.
Qed.

(** A symbol that heads a chain of [n] rules needs [n + 1] activations
    before anything returns, and there is nothing in the cache yet: on
    a stack of [n] or less the expansion raises [RecursionError]. *)
Lemma left_chain_exhausts dictionary_ rules_ context depth : forall n s,
  left_chain dictionary_ rules_ n s ->
  depth <= n ->
  expand_symbol_cached dictionary_ rules_ context depth [] s
  = (Raise RecursionError, []).
Proof.
  induction depth as [ | d IH]; intros n s Hch Hle; [ reflexivity | ].
  destruct Hch as [s | n s a b Hd Hr Ha]; [ inversion Hle | ].
  rewrite cached_miss by reflexivity. rewrite Hd, Hr.
  rewrite (IH n a Ha) by lia. reflexivity.
Qed.

Lemma stream_chunks_fuel_of_concat (size : nat) : forall (cs : list bytes) fuel,
  0 < size ->
  Forall (fun ch => List.length ch = size) cs ->
  List.length cs < fuel ->
  stream_chunks_fuel fuel (List.concat cs) size = cs.
Proof.
  induction cs as [ | ch cs IH]; intros fuel Hsize Hall Hfuel;
    (destruct fuel as [ | f]; [ inversion Hfuel | ]).
  - cbn [List.concat stream_chunks_fuel]. now rewrite firstn_nil.
  - apply Forall_cons_iff in Hall. destruct Hall as [Hch Hall].
    cbn [List.concat stream_chunks_fuel].
    rewrite firstn_app, skipn_app, Hch, Nat.sub_diag, <- Hch.
    rewrite firstn_all, skipn_all, firstn_O, skipn_O, app_nil_r.
    cbn [app]. rewrite Hch.
    rewrite IH by (assumption || (cbn [List.length] in Hfuel; lia)).
    destruct ch as [ | b ch']; [ simpl in Hch; lia | reflexivity ].
Qed.

Lemma stream_chunks_of_concat (size : nat) (cs : list bytes) :
  0 < size ->
  Forall (fun ch => List.length ch = size) cs ->
  stream_chunks (List.concat cs) size = cs.
Proof.
  intros Hsize Hall. apply stream_chunks_fuel_of_concat; try assumption.
  apply Nat.lt_succ_r.
  induction Hall as [ | ch cs Hch _ IH]; [ apply Nat.le_refl | ].
  cbn [List.concat List.length]. rewrite length_app. lia.
Qed.


(** An input of [n] chunks with [n] different fingerprints, followed by
    the same chunks once more, is encoded with [n - 1] rules, each the
    first operand of the one after it, and the sequence is the last of
    them, twice. *)
Lemma repeated_input_template
    (short_hash : bytes -> string) (input_name : string) (cs : list bytes)
    (contexts : list string) (size : nat) :
  (forall b, is_hex12 (short_hash b) = true) ->
  0 < size ->
  Forall (fun ch => List.length ch = size) cs ->
  NoDup (map short_hash cs) ->
  cs <> [] ->
  (Z.of_nat (List.length cs) <= 10001)%Z ->
  exists tpl h,
    encode_file short_hash input_name (List.concat (cs ++ cs)) None contexts
      size 2 = Some tpl
    /\ S (List.length (rules tpl)) = List.length cs
    /\ parse_sequence (sequence tpl) = [h; h]
    /\ left_chain (dictionary tpl) (rules tpl) (List.length (rules tpl)) h.
Proof.
  intros Hhash Hsize Hall Hnd Hne Hcap.
  destruct cs as [ | c0 cs']; [ contradiction | ].
  unfold encode_file.
  change (load_global_dict None) with (@nil (symbol * entry)).
  change (build_hash_to_sym []) with (@nil (string * symbol)).
  cbn [fold_left].
  rewrite stream_chunks_of_concat
    by (assumption || (apply Forall_app; split; assumption)).
  set (chunks := (c0 :: cs') ++ c0 :: cs').
  destruct (pass1_spec short_hash [] chunks) as (Hseq & _ & _ & Hloc & _).
  set (p1 := pass1 short_hash [] chunks) in *. cbn zeta in Hseq.
  assert (Hnamed : forall h s, dict_get (p1_local p1) h = Some s ->
                   s = ("L" ++ h)%string).
  { intros h s Hs. now destruct (Hloc h s Hs). }
  set (td := match p1_local p1 with
             | [] => []
             | _ :: _ => pass2 short_hash contexts (p1_local p1) chunks [] []
             end).
  assert (Hnorule : forall j, dict_get td (new_sym j) = None).
  { intros j. unfold td. destruct (p1_local p1) as [ | kv loc] eqn:Eloc;
      [ reflexivity | ].
    rewrite <- Eloc in *. rewrite pass2_other_symbols; [ reflexivity | ].
    intros h sym Hs. rewrite (Hnamed _ _ Hs). discriminate. }
  set (local_sym := fun c : bytes => ("L" ++ short_hash c)%string).
  assert (Hseq' : p1_sequence p1
                  = local_sym c0 :: map local_sym cs'
                    ++ local_sym c0 :: map local_sym cs').
  { rewrite Hseq. unfold chunks. now rewrite map_app. }
  destruct (rules_loop_repeated td (map local_sym cs') (local_sym c0) [] 0 0
              (S (List.length (local_sym c0 :: map local_sym cs'
                               ++ local_sym c0 :: map local_sym cs'))))
    as (r & h' & Hloop & Hrseq & Hrl & Hch & Hcomma).
  - change (NoDup (map local_sym (c0 :: cs'))).
    rewrite <- (map_map short_hash (String "L")).
    apply NoDup_map_NoDup_ForallPairs; [ | exact Hnd ].
    intros x y _ _ [= E]. exact E.
  - intros j _ Hin. apply in_map_iff in Hin.
    destruct Hin as (ch & Hch & _). discriminate.
  - reflexivity.
  - rewrite length_map. cbn [List.length] in Hcap. lia.
  - cbn [List.length]. rewrite length_app. cbn [List.length].
    rewrite !length_map. lia.
  - exact Hnorule.
  - constructor.
  - apply local_sym_comma_free, Hhash.
  - unfold build_hierarchical_rules, build_hierarchical_rules_fuel,
      initial_rules_state.
    rewrite Hseq'. unfold symbol in *. rewrite Hloop.
    eexists _, h'. split; [ reflexivity | ]. cbn [rules dictionary sequence].
    rewrite length_map in Hrl. cbn [Nat.add] in Hrl, Hch.
    split; [ now rewrite Hrl | ].
    split.
    + rewrite Hrseq. apply parse_sequence_join.
      repeat constructor; apply Hcomma.
    + rewrite length_map in Hch. rewrite Hrl. exact Hch.
Qed.









(* ------------------------------------------------------------------ *)
(** ** The round trip on the decoder as it runs                        *)
(* ------------------------------------------------------------------ *)

(** What the loop with the cache has written when it completes is what
    the expansions without the cache give on a deep enough stack. *)
Lemma write_loop_cached_sound dictionary_ rules_ context depth :
  forall (seq : list symbol) c out out',
    lru_sound dictionary_ rules_ context c ->
    write_loop_cached dictionary_ rules_ context depth c seq out
    = (Ok tt, out') ->
    exists vs d,
      expands_to dictionary_ rules_ context d seq vs
      /\ out' = out ++ List.concat vs.
Proof.
  induction seq as [ | s r IH]; intros c out out' Hc Hrun.
  - injection Hrun as <-. exists [], 0. split; [ constructor | ].
    now rewrite app_nil_r.
  - cbn [write_loop_cached] in Hrun.
    destruct (expand_symbol_cached dictionary_ rules_ context depth c s)
      as [[b | e] c'] eqn:Es; [ | discriminate ].
    destruct (expand_symbol_cached_sound _ _ _ _ _ _ _ _ Hc Es) as [Hc' Hb].
    destruct (Hb b eq_refl) as (d1 & Hd1).
    destruct (IH c' (out ++ b) out' Hc' Hrun) as (vs & d2 & Hvs & ->).
    exists (b :: vs), (Nat.max d1 d2). split.
    + constructor.
      * eapply expand_symbol_more_depth; [ exact Hd1 | apply Nat.le_max_l ].
      * eapply Forall2_impl; [ | exact Hvs ].
        intros x v Hx. eapply expand_symbol_more_depth;
          [ exact Hx | apply Nat.le_max_r ].
    + cbn [List.concat]. now rewrite app_assoc.
Qed.

(** [build_hierarchical_rules] as [encode_file] calls it makes 10000
    rules at most. *)
Lemma encode_file_rule_cap short_hash input_name data dict_file contexts size
    min_pair_freq tpl :
  encode_file short_hash input_name data dict_file contexts size min_pair_freq
  = Some tpl ->
  (Z.of_nat (List.length (rules tpl)) <= 10000)%Z.
Proof.
  intros Henc. apply encode_file_parts in Henc. cbn zeta in Henc.
  destruct Henc as (seq' & rules_ & Hrun & ->). cbn [rules].
  apply build_hierarchical_rules_state in Hrun.
  destruct Hrun as (st & Hloop & _ & <-).
  destruct (rules_loop_terminates 10000 min_pair_freq _
              (initial_rules_state
                 (p1_sequence
                    (pass1 short_hash
                       (build_hash_to_sym (load_global_dict dict_file))
                       (stream_chunks data size))))
              (Nat.lt_succ_diag_r _))
    as (r & turns & Hloop' & _ & _ & Hnamed & Hcap & _);
    [ reflexivity | simpl; lia | ].
  pose proof (eq_trans (eq_sym Hloop) Hloop') as E. injection E as ->.
  rewrite (rules_named_length _ Hnamed). lia.
Qed.


Lemma sample_input_no_collision :
  forall c1 c2,
    In c1 (stream_chunks sample_input 4) ->
    In c2 (stream_chunks sample_input 4) ->
    toy_hash c1 = toy_hash c2 -> c1 = c2.
Proof.
  intros c1 c2 H1 H2 Hh. vm_compute in H1, H2.
  destruct H1 as [<- | [<- | [<- | [<- | []]]]];
    destruct H2 as [<- | [<- | [<- | [<- | []]]]];
    try reflexivity; vm_compute in Hh; discriminate.
Qed.




(** The same on a file small enough to evaluate: [b"ABCDABCD"] with
    chunk size 1 gives three rules, each inside the next; decoding
    fails on a stack of three activations and succeeds on one of
    four. *)
Example scenario_shallow_stack :
  exists tpl,
    encode_file toy_hash "abcd.bin" abcd_twice None ["DEFAULT"] 1 2 = Some tpl
    /\ rules tpl
       = [("R0", ("L410000000000", "L420000000000"));
          ("R1", ("R0", "L430000000000"));
          ("R2", ("R1", "L440000000000"))]
    /\ sequence tpl = "R2,R2"
    /\ decode_template_cached tpl "DEFAULT" 3 None
       = (Raise RecursionError, Some [])
    /\ decode_template_cached tpl "DEFAULT" 4 None = (Ok tt, Some abcd_twice).
Proof.
  eexists. split; [ vm_compute; reflexivity | ].
  vm_compute. repeat split; reflexivity.
Qed.

(** A stored result is returned without an activation: the sequence
    [R0, R1, R2] of [warm_cache_template] is decoded on a stack of two
    activations, where [R2] alone would need four; without the cache
    the same stack fails at [R1]. *)
Example scenario_warm_cache :
  decode_template_cached warm_cache_template "DEFAULT" 2 None
  = (Ok tt, Some [x41; x42; x41; x42; x41; x41; x42; x41; x42])
  /\ decode_template warm_cache_template "DEFAULT" 2 None
     = (Raise RecursionError, Some [x41; x42]).
Proof. split; vm_compute; reflexivity. Qed.

(* ------------------------------------------------------------------ *)
(** ** Further properties of the decoder as it runs                    *)
(* ------------------------------------------------------------------ *)

(** X11.  Without a global dictionary and with at least one context
    configured, the template decodes to the input under every context,
    configured or not: the fallback of the Expander finds the bytes of
    a chunk under whatever name they were stored.  The hypotheses are
    those of the round trip: a positive chunk size, no two different
    chunks of the input with one fingerprint, and a stack that admits
    more nested activations of [expand_symbol] than the template has
    rules. *)
Theorem round_trip_under_any_context
    (short_hash : bytes -> string) (input_name : string) (data : bytes)
    (contexts : list string) (size : nat) (min_pair_freq : Z)
    (Hhash : forall b, is_hex12 (short_hash b) = true)
    (Hsize : 0 < size)
    (Hctx : contexts <> [])
    (Hno_collision :
       forall c1 c2,
         In c1 (stream_chunks data size) -> In c2 (stream_chunks data size) ->
         short_hash c1 = short_hash c2 -> c1 = c2) :
  exists tpl,
    encode_file short_hash input_name data None contexts size min_pair_freq
    = Some tpl
    /\ forall context depth out_before,
         List.length (rules tpl) < depth ->
         decode_template_cached tpl context depth out_before
         = (Ok tt, Some data).
Proof.
  destruct (round_trip_core short_hash input_name data None contexts size
              min_pair_freq Hhash Hsize Hctx Hno_collision)
    as (tpl & Henc & Hdec).
  - intros s Hs. exfalso. now apply Hs.
  - intros c e _ He. discriminate.
  - exists tpl. split; [ exact Henc | ].
    intros context depth out_before Hdepth.
    apply decode_template_cached_of_ok. now apply Hdec.
Qed.

Lemma round_trip_under_any_context_witness :
  exists tpl,
    encode_file toy_hash "sample.bin" sample_input None ["VIDEO"; "TEXT"] 4 2
    = Some tpl
    /\ forall context depth out_before,
         List.length (rules tpl) < depth ->
         decode_template_cached tpl context depth out_before
         = (Ok tt, Some sample_input).
Proof.
  apply (round_trip_under_any_context toy_hash "sample.bin" sample_input
           ["VIDEO"; "TEXT"] 4 2).
  - exact toy_hash_hex12.
  - lia.
  - discriminate.
  - exact sample_input_no_collision.
Defined.

(** X12.  With an empty context list and no global dictionary,
    [encode_file] still returns a template, but its dictionary is empty:
    no chunk is stored.  Its rules are made all the same, and on a
    stack that admits more nested activations of [expand_symbol] than
    there are rules, decoding under any context succeeds and writes a
    file of length zero, whatever the input was. *)
Theorem empty_context_list_stores_nothing
    (short_hash : bytes -> string) (input_name : string) (data : bytes)
    (size : nat) (min_pair_freq : Z)
    (Hhash : forall b, is_hex12 (short_hash b) = true) :
  exists tpl,
    encode_file short_hash input_name data None [] size min_pair_freq
    = Some tpl
    /\ dictionary tpl = []
    /\ forall context depth out_before,
         List.length (rules tpl) < depth ->
         decode_template_cached tpl context depth out_before
         = (Ok tt, Some []).
Proof.
  destruct (empty_context_list_without_cache short_hash input_name data size
              min_pair_freq Hhash)
    as (tpl & Henc & Hdict & Hdec).
  exists tpl. split; [ exact Henc | ]. split; [ exact Hdict | ].
  intros context depth out_before Hdepth.
  apply decode_template_cached_of_ok. now apply Hdec.
Qed.

Lemma empty_context_list_stores_nothing_witness :
  exists tpl,
    encode_file toy_hash "sample.bin" sample_input None [] 4 2 = Some tpl
    /\ dictionary tpl = []
    /\ forall context depth out_before,
         List.length (rules tpl) < depth ->
         decode_template_cached tpl context depth out_before
         = (Ok tt, Some []).
Proof.
  apply (empty_context_list_stores_nothing toy_hash "sample.bin" sample_input
           4 2).
  exact toy_hash_hex12.
Defined.

(** X14.  Encoding against a global dictionary that [build_global_dict]
    made restores the input: for every set of sample files, every input,
    every positive chunk size and every non-empty context list, the
    dictionary is built, the template is produced, and decoding it
    under any context writes exactly the input, on a stack that admits
    more nested activations of [expand_symbol] than the template has
    rules; provided that no two different chunks among those of the
    samples and of the input share a fingerprint. *)
Theorem round_trip_with_global_dict
    (short_hash : bytes -> string) (files : list bytes) (dict_size : nat)
    (min_freq : Z) (input_name : string) (data : bytes)
    (contexts : list string) (size : nat) (min_pair_freq : Z)
    (Hhash : forall b, is_hex12 (short_hash b) = true)
    (Hsize : 0 < size)
    (Hctx : contexts <> [])
    (Hno_collision :
       forall c1 c2,
         In c1 (sample_chunks files dict_size ++ stream_chunks data size) ->
         In c2 (sample_chunks files dict_size ++ stream_chunks data size) ->
         short_hash c1 = short_hash c2 -> c1 = c2) :
  exists g tpl,
    build_global_dict short_hash files dict_size min_freq = Some g
    /\ encode_file short_hash input_name data (Some (gd_entries g)) contexts
         size min_pair_freq = Some tpl
    /\ forall context depth out_before,
         List.length (rules tpl) < depth ->
         decode_template_cached tpl context depth out_before
         = (Ok tt, Some data).
Proof.
  destruct (round_trip_with_global_dict_without_cache short_hash files
              dict_size min_freq input_name data contexts size min_pair_freq
              Hhash Hsize Hctx Hno_collision)
    as (g & tpl & Hdict & Henc & Hdec).
  exists g, tpl. split; [ exact Hdict | ]. split; [ exact Henc | ].
  intros context depth out_before Hdepth.
  apply decode_template_cached_of_ok. now apply Hdec.
Qed.

Lemma round_trip_with_global_dict_witness :
  exists g tpl,
    build_global_dict toy_hash [sample_input] 4 2 = Some g
    /\ encode_file toy_hash "other.bin"
         [x41; x41; x41; x41; x43; x43; x41; x41; x41; x41]
         (Some (gd_entries g)) ["VIDEO"] 4 2 = Some tpl
    /\ forall context depth out_before,
         List.length (rules tpl) < depth ->
         decode_template_cached tpl context depth out_before
         = (Ok tt,
            Some [x41; x41; x41; x41; x43; x43; x41; x41; x41; x41]).
Proof.
  apply (round_trip_with_global_dict toy_hash [sample_input] 4 2 "other.bin"
           [x41; x41; x41; x41; x43; x43; x41; x41; x41; x41] ["VIDEO"] 4 2).
  - exact toy_hash_hex12.
  - lia.
  - discriminate.
  - intros c1 c2 H1 H2 Hh. vm_compute in H1, H2.
    repeat (destruct H1 as [<- | H1]); try contradiction;
      repeat (destruct H2 as [<- | H2]); try contradiction;
      try reflexivity; vm_compute in Hh; discriminate.
Defined.

(** X20.  The nesting of the rules is bounded by the input only.  An
    input of [n] chunks with [n] different fingerprints, followed by the
    same chunks once more, is encoded, with the default threshold, into
    [n - 1] rules, each the first operand of the next, and decoding the
    template raises [RecursionError] before a byte is written on every
    stack that admits fewer than [n] nested activations of
    [expand_symbol]; [n] is any number up to 10001, where
    [max_new_symbols] stops the rules. *)
Theorem repeated_input_exhausts_stack
    (short_hash : bytes -> string) (input_name : string) (cs : list bytes)
    (contexts : list string) (size : nat) (context : string) (depth : nat)
    (out_before : file)
    (Hhash : forall b, is_hex12 (short_hash b) = true)
    (Hsize : 0 < size)
    (Hchunks : Forall (fun ch => List.length ch = size) cs)
    (Hdistinct : NoDup (map short_hash cs))
    (Hdepth : depth < List.length cs)
    (Hcap : (Z.of_nat (List.length cs) <= 10001)%Z) :
  exists tpl,
    encode_file short_hash input_name (List.concat (cs ++ cs)) None contexts
      size 2 = Some tpl
    /\ S (List.length (rules tpl)) = List.length cs
    /\ decode_template_cached tpl context depth out_before
       = (Raise RecursionError, Some []).
Proof.
  destruct (repeated_input_template short_hash input_name cs contexts size
              Hhash Hsize Hchunks Hdistinct)
    as (tpl & h & Henc & Hlen & Hseq & Hch); [ | exact Hcap | ].
  - intros ->. inversion Hdepth.
  - exists tpl. split; [ exact Henc | ]. split; [ exact Hlen | ].
    unfold decode_template_cached. rewrite Hseq. cbn [write_loop_cached].
    rewrite (left_chain_exhausts _ _ _ _ _ _ Hch); [ reflexivity | lia ].
Qed.

Lemma repeated_input_exhausts_stack_witness :
  exists tpl,
    encode_file toy_hash "abcd.bin"
      (List.concat ([[x41]; [x42]; [x43]; [x44]]
                    ++ [[x41]; [x42]; [x43]; [x44]]))
      None ["DEFAULT"] 1 2 = Some tpl
    /\ S (List.length (rules tpl)) = 4
    /\ decode_template_cached tpl "DEFAULT" 3 None
       = (Raise RecursionError, Some []).
Proof.
  apply (repeated_input_exhausts_stack toy_hash "abcd.bin"
           [[x41]; [x42]; [x43]; [x44]] ["DEFAULT"] 1 "DEFAULT" 3 None).
  - exact toy_hash_hex12.
  - lia.
  - repeat constructor.
  - vm_compute. repeat constructor; simpl; intuition discriminate.
  - simpl. lia.
  - simpl. lia.
Defined.

(** X21.  [build_hierarchical_rules] stops at 10000 rules, so a stack
    that admits more than 10000 nested activations of [expand_symbol]
    restores every input, whatever its template: the round trip without
    a global dictionary, with no condition on the rules. *)
Theorem round_trip_on_full_stack
    (short_hash : bytes -> string) (input_name : string) (data : bytes)
    (contexts : list string) (size : nat) (min_pair_freq : Z) (c : string)
    (depth : nat) (out_before : file)
    (Hhash : forall b, is_hex12 (short_hash b) = true)
    (Hsize : 0 < size)
    (Hctx : In c contexts)
    (Hno_collision :
       forall c1 c2,
         In c1 (stream_chunks data size) -> In c2 (stream_chunks data size) ->
         short_hash c1 = short_hash c2 -> c1 = c2)
    (Hdepth : (10000 < Z.of_nat depth)%Z) :
  exists tpl,
    encode_file short_hash input_name data None contexts size min_pair_freq
    = Some tpl
    /\ decode_template_cached tpl c depth out_before = (Ok tt, Some data).
Proof.
  destruct (round_trip_without_cache short_hash input_name data contexts size
              min_pair_freq c Hhash Hsize Hctx Hno_collision)
    as (tpl & Henc & Hdec).
  exists tpl. split; [ exact Henc | ].
  apply decode_template_cached_of_ok, Hdec.
  pose proof (encode_file_rule_cap _ _ _ _ _ _ _ _ Henc). lia.
Qed.

Lemma round_trip_on_full_stack_witness :
  exists tpl,
    encode_file toy_hash "sample.bin" sample_input None ["VIDEO"; "TEXT"] 4 2
    = Some tpl
    /\ decode_template_cached tpl "TEXT" (Z.to_nat 10001) None
       = (Ok tt, Some sample_input).
Proof.
  apply (round_trip_on_full_stack toy_hash "sample.bin" sample_input
           ["VIDEO"; "TEXT"] 4 2 "TEXT" (Z.to_nat 10001) None).
  - exact toy_hash_hex12.
  - lia.
  - simpl. tauto.
  - exact sample_input_no_collision.
  - lia.
Defined.

(** X22.  The cache changes no byte: what [decode_template] writes when
    it completes with the cache of [expand_symbol] is what the plain
    recursion writes on a deep enough stack. *)
Theorem cache_returns_what_recursion_returns
    (tpl : template) (context : string) (depth : nat)
    (out_before : file) (out : bytes)
    (Hrun : decode_template_cached tpl context depth out_before
            = (Ok tt, Some out)) :
  exists depth',
    decode_template tpl context depth' out_before = (Ok tt, Some out).
Proof.
  unfold decode_template_cached in Hrun.
  destruct (write_loop_cached (dictionary tpl) (rules tpl) context depth []
              (parse_sequence (sequence tpl)) [])
    as [[[] | e] w] eqn:Hloop; [ | discriminate ].
  injection Hrun as <-.
  destruct (write_loop_cached_sound _ _ _ _ _ _ _ _ (fun s v (H : In (s, v) [])
              => match H with end) Hloop)
    as (vs & d & Hvs & ->).
  exists d. unfold decode_template.
  now rewrite (write_loop_expands _ _ _ _ _ vs []).
Qed.

Lemma cache_returns_what_recursion_returns_witness :
  exists depth',
    decode_template warm_cache_template "DEFAULT" depth' None
    = (Ok tt, Some [x41; x42; x41; x42; x41; x41; x42; x41; x42]).
Proof.
  apply (cache_returns_what_recursion_returns warm_cache_template "DEFAULT"
           2 None).
  vm_compute. reflexivity.
Defined.

Lemma expands_to_In dictionary_ rules_ context depth (seq : list symbol) vs s :
  expands_to dictionary_ rules_ context depth seq vs ->
  In s seq ->
  exists v, expand_symbol dictionary_ rules_ context depth s = Ok v.
Proof.
  induction 1 as [ | x v r vs Hx _ IH]; intros Hin; [ contradiction | ].
  destruct Hin as [<- | Hin]; [ now exists v | now apply IH ].
Qed.

(** X23.  Nor does the cache rescue a rule set with a cycle: a template
    whose sequence names a symbol on a cycle of the rules is decoded on
    no stack; [decode_template] ends in an exception, with the cache as
    without it. *)
Theorem cyclic_template_never_decodes
    (tpl : template) (context : string) (s : symbol) (depth : nat)
    (out_before : file)
    (Hseq : In s (parse_sequence (sequence tpl)))
    (Hcycle : on_cycle (dictionary tpl) (rules tpl) s) :
  exists e out,
    decode_template_cached tpl context depth out_before = (Raise e, Some out).
Proof.
  unfold decode_template_cached.
  destruct (write_loop_cached (dictionary tpl) (rules tpl) context depth []
              (parse_sequence (sequence tpl)) [])
    as [[[] | e] w] eqn:Hloop; [ exfalso | now exists e, w ].
  destruct (write_loop_cached_sound _ _ _ _ _ _ _ _ (fun s v (H : In (s, v) [])
              => match H with end) Hloop)
    as (vs & d & Hvs & _).
  destruct (expands_to_In _ _ _ _ _ _ _ Hvs Hseq) as (v & Hv).
  eapply expand_cycle_never_ok; eassumption.
Qed.

Lemma cyclic_template_never_decodes_witness :
  exists e out,
    decode_template_cached cyclic_template "DEFAULT" 1000 None
    = (Raise e, Some out).
Proof.
  apply (cyclic_template_never_decodes cyclic_template "DEFAULT" "R0").
  - now left.
  - exact cyclic_template_on_cycle.
Defined.
